(** * Viua VM: instruction codec, [li] expansion, interpreter loop and
      assembler stages

    A shallow embedding of the "new" Viua VM core:

    - [Arch]  : the instruction word layout (viua/arch/arch.h, viua/arch/ops.h);
    - [Asm]   : the load-immediate expansion of new/src/tools/asm.cpp;
    - [Vm]    : the executors and the dispatch loop of new/src/tools/vm.cpp;
    - [Stage] : entry-point detection and the relocation scan of
                new/src/tools/exec/asm.cpp;
    - [Emit]  : the bytecode emission of new/src/tools/exec/asm.cpp;
    - [Aa]    : the AA executor of new/src/vm/ins/aa.cpp.

    Machine integers are [Z] with the wrap-around written out, bit operations
    are [Z.land], [Z.lor], [Z.shiftl] and [Z.shiftr]. *)

From Stdlib Require Import ZArith Lia Bool.
From stdpp Require Import base option list strings gmap.
From coqutil Require Import Z.bitblast Z.prove_Zeq_bitwise.

Local Open Scope Z_scope.

(** ** Machine integers *)

Definition uint8_t (x : Z) : Z := x mod 2 ^ 8.
Definition uint16_t (x : Z) : Z := x mod 2 ^ 16.
Definition uint32_t (x : Z) : Z := x mod 2 ^ 32.
Definition uint64_t (x : Z) : Z := x mod 2 ^ 64.

(** [sizeof(viua::arch::instruction_type)] *)
Definition sizeof_instruction_type : Z := 8.

(** ** Outcomes of a C++ call

    A call returns, throws, or has no defined behaviour (a read past the end
    of an array, a division by zero, a downcast to the wrong class). State
    is threaded explicitly, and the state reached when an exception leaves
    the call is kept, so that what a failed call has mutated can be
    observed. *)

Inductive exception : Type :=
| out_of_range
| bad_variant_access
| abort_execution (ip : nat) (what : string).

Inductive result (E A : Type) : Type :=
| Ok (a : A)
| Throw (e : E)
| Undefined.

Arguments Ok {E A} a.
Arguments Throw {E A} e.
Arguments Undefined {E A}.

Definition M (S A : Type) : Type := S -> S * result exception A.

Definition ret {S A} (a : A) : M S A := fun s => (s, Ok a).

Definition bind {S A B} (c : M S A) (k : A -> M S B) : M S B :=
  fun s =>
    match c s with
    | (s', Ok a) => k a s'
    | (s', Throw e) => (s', Throw e)
    | (s', Undefined) => (s', Undefined)
    end.

Definition throw {S A} (e : exception) : M S A := fun s => (s, Throw e).
Definition undefined {S A} : M S A := fun s => (s, Undefined).
Definition gets {S A} (f : S -> A) : M S A := fun s => (s, Ok (f s)).
Definition modify {S} (f : S -> S) : M S unit := fun s => (f s, Ok tt).

Notation "'let*' x ':=' c 'in' k" := (bind c (fun x => k))
  (at level 10, x pattern, c at level 100, k at level 200).
Notation "c ';;;' k" := (bind c (fun _ => k))
  (at level 100, k at level 200, right associativity).

(** [for (auto i = size_t{0}; i < n; ++i) body(i)] for a body that never
    touches [i] or the bound. *)
Definition for_range {S} (n : nat) (body : nat -> M S unit) : M S unit :=
  foldr (fun i rest => body i ;;; rest) (ret tt) (seq 0 n).

(** ** The instruction word *)

Module Arch.

Definition instruction_type : Type := Z.
Definition opcode_type : Type := Z.

(** Modelled from the spec: viua/arch/arch.h is absent. A register access
    is a register set, a direct/indirect bit and an 8-bit register index;
    the set [VOID] is the distinguished "no register" encoding. The packed
    form sits in a 16-bit field of the instruction word, of which it uses
    the index in bits 0-7, the direct bit in bit 8 and the set in bits
    9-10. *)
Inductive REGISTER_SET : Type := VOID | LOCAL | ARGUMENT | PARAMETER.

Definition REGISTER_SET_code (s : REGISTER_SET) : Z :=
  match s with VOID => 0 | LOCAL => 1 | ARGUMENT => 2 | PARAMETER => 3 end.

Definition REGISTER_SET_of (c : Z) : REGISTER_SET :=
  match c with 0 => VOID | 1 => LOCAL | 2 => ARGUMENT | _ => PARAMETER end.

Module Register_access.
Record t : Type := mk { set : REGISTER_SET; direct : bool; index : Z }.

Definition make_local (index : Z) : t := mk LOCAL true index.
Definition make_void : t := mk VOID true 0.

Definition is_void (r : t) : bool :=
  match set r with VOID => true | _ => false end.

Definition encode (r : t) : Z :=
  Z.lor (Z.lor (index r) (Z.shiftl (Z.b2z (direct r)) 8))
        (Z.shiftl (REGISTER_SET_code (set r)) 9).

Definition decode (raw : Z) : t :=
  mk (REGISTER_SET_of (Z.shiftr (Z.land raw 0x0600) 9))
     (Z.testbit raw 8)
     (Z.land raw 0x00ff).

(** What the C++ types guarantee: [index] is a [uint8_t]. *)
Definition wf (r : t) : Prop := 0 <= index r < 2 ^ 8.
End Register_access.

(** Modelled from the spec: viua/arch/ops.h is absent. The opcode is the
    low 16 bits of the word; its top bit is the greedy overlay, the next
    three bits name the format, and the low 12 bits number the operation
    within the format. The numbers agree with the words 0x1001 .. 0x1004,
    0x5001 and 0x9001 that new/src/tools/asm.cpp feeds to [to_string]. *)
Module ops.
Definition GREEDY : opcode_type := 0x8000.
Definition OPCODE_MASK : opcode_type := 0x7fff.
Definition FORMAT_MASK : opcode_type := 0x7000.

Definition FORMAT_N : opcode_type := 0x0000.
Definition FORMAT_T : opcode_type := 0x1000.
Definition FORMAT_D : opcode_type := 0x2000.
Definition FORMAT_S : opcode_type := 0x3000.
Definition FORMAT_F : opcode_type := 0x4000.
Definition FORMAT_E : opcode_type := 0x5000.
Definition FORMAT_R : opcode_type := 0x6000.

Inductive FORMAT : Type := N_ | T_ | D_ | S_ | F_ | E_ | R_.

(** [static_cast<FORMAT>(opcode & FORMAT_MASK)]: the one remaining bit
    pattern, 0x7000, names no format and matches no case label. *)
Definition FORMAT_of (masked : Z) : option FORMAT :=
  match masked with
  | 0x0000 => Some N_
  | 0x1000 => Some T_
  | 0x2000 => Some D_
  | 0x3000 => Some S_
  | 0x4000 => Some F_
  | 0x5000 => Some E_
  | 0x6000 => Some R_
  | _ => None
  end.

Definition NOOP : opcode_type := Z.lor FORMAT_N 0x0000.
Definition HALT : opcode_type := Z.lor FORMAT_N 0x0001.
Definition EBREAK : opcode_type := Z.lor FORMAT_N 0x0002.

Definition ADD : opcode_type := Z.lor FORMAT_T 0x0001.
Definition SUB : opcode_type := Z.lor FORMAT_T 0x0002.
Definition MUL : opcode_type := Z.lor FORMAT_T 0x0003.
Definition DIV : opcode_type := Z.lor FORMAT_T 0x0004.

Definition CALL : opcode_type := Z.lor FORMAT_D 0x0001.

Definition DELETE : opcode_type := Z.lor FORMAT_S 0x0001.
Definition ATOM : opcode_type := Z.lor FORMAT_S 0x0004.

Definition LUI : opcode_type := Z.lor FORMAT_E 0x0001.
Definition LUIU : opcode_type := Z.lor FORMAT_E 0x0002.

Definition ADDI : opcode_type := Z.lor FORMAT_R 0x0001.
Definition ADDIU : opcode_type := Z.lor FORMAT_R 0x0002.

(** [instruction & GREEDY], as a truth value. *)
Definition is_greedy (raw : instruction_type) : bool :=
  negb (Z.land raw GREEDY =? 0).

Definition decode_opcode (raw : instruction_type) : opcode_type :=
  Z.land raw 0x000000000000ffff.

Definition decode_out (raw : instruction_type) : Register_access.t :=
  Register_access.decode (Z.shiftr (Z.land raw 0x00000000ffff0000) 16).

Definition decode_second (raw : instruction_type) : Register_access.t :=
  Register_access.decode (Z.shiftr (Z.land raw 0x0000ffff00000000) 32).

Definition decode_third (raw : instruction_type) : Register_access.t :=
  Register_access.decode (Z.shiftr (Z.land raw 0xffff000000000000) 48).

(** Format N: no operands. *)
Module N.
Record t : Type := mk { opcode : opcode_type }.
Definition encode (i : t) : instruction_type := opcode i.
Definition decode (raw : instruction_type) : t := mk (decode_opcode raw).
End N.

(** Format S: one register access. *)
Module S.
Record t : Type := mk { opcode : opcode_type; out : Register_access.t }.
Definition encode (i : t) : instruction_type :=
  Z.lor (opcode i) (Z.shiftl (Register_access.encode (out i)) 16).
Definition decode (raw : instruction_type) : t :=
  mk (decode_opcode raw) (decode_out raw).
End S.

(** Format D: two register accesses. *)
Module D.
Record t : Type :=
  mk { opcode : opcode_type; out : Register_access.t; in_ : Register_access.t }.
Definition encode (i : t) : instruction_type :=
  Z.lor (Z.lor (opcode i) (Z.shiftl (Register_access.encode (out i)) 16))
        (Z.shiftl (Register_access.encode (in_ i)) 32).
Definition decode (raw : instruction_type) : t :=
  mk (decode_opcode raw) (decode_out raw) (decode_second raw).
End D.

(** Format T: three register accesses. *)
Module T.
Record t : Type :=
  mk { opcode : opcode_type;
       out : Register_access.t;
       lhs : Register_access.t;
       rhs : Register_access.t }.
Definition encode (i : t) : instruction_type :=
  Z.lor (Z.lor (Z.lor (opcode i)
                      (Z.shiftl (Register_access.encode (out i)) 16))
               (Z.shiftl (Register_access.encode (lhs i)) 32))
        (Z.shiftl (Register_access.encode (rhs i)) 48).
Definition decode (raw : instruction_type) : t :=
  mk (decode_opcode raw) (decode_out raw) (decode_second raw)
     (decode_third raw).
End T.

(** Format F: one register access and a 32-bit immediate in the upper
    half of the word. *)
Module F.
Record t : Type :=
  mk { opcode : opcode_type; out : Register_access.t; immediate : Z }.
Definition encode (i : t) : instruction_type :=
  Z.lor (Z.lor (opcode i) (Z.shiftl (Register_access.encode (out i)) 16))
        (Z.shiftl (immediate i) 32).
Definition decode (raw : instruction_type) : t :=
  mk (decode_opcode raw) (decode_out raw)
     (Z.shiftr (Z.land raw 0xffffffff00000000) 32).
End F.

(** Format E: one register access and a 36-bit immediate. The immediate
    takes bits 28-63, that is, also the four bits of the register field
    that the packed access leaves unused. *)
Module E.
Record t : Type :=
  mk { opcode : opcode_type; out : Register_access.t; immediate : Z }.
Definition encode (i : t) : instruction_type :=
  Z.lor (Z.lor (opcode i) (Z.shiftl (Register_access.encode (out i)) 16))
        (Z.shiftl (immediate i) 28).
Definition decode (raw : instruction_type) : t :=
  mk (decode_opcode raw)
     (Register_access.decode (Z.shiftr (Z.land raw 0x000000000fff0000) 16))
     (Z.shiftr (Z.land raw 0xfffffffff0000000) 28).
End E.

(** Format R: two register accesses and a 24-bit immediate. The low 16
    bits of the immediate take bits 48-63; its bits 16-19 and 20-23 take
    the unused top four bits of the second and of the first register
    field. *)
Module R.
Record t : Type :=
  mk { opcode : opcode_type;
       out : Register_access.t;
       in_ : Register_access.t;
       immediate : Z }.
Definition encode (i : t) : instruction_type :=
  Z.lor (Z.lor (Z.lor (Z.lor (Z.lor (opcode i)
           (Z.shiftl (Register_access.encode (out i)) 16))
           (Z.shiftl (Register_access.encode (in_ i)) 32))
           (Z.shiftl (Z.land (immediate i) 0x00ffff) 48))
           (Z.shiftl (Z.land (immediate i) 0x0f0000) 28))
        (Z.shiftl (Z.land (immediate i) 0xf00000) 8).
Definition decode (raw : instruction_type) : t :=
  let low_short := Z.shiftr (Z.land raw 0xffff000000000000) 48 in
  let low_nibble := Z.shiftr (Z.land raw 0x0000f00000000000) 28 in
  let high_nibble := Z.shiftr (Z.land raw 0x00000000f0000000) 8 in
  mk (decode_opcode raw)
     (Register_access.decode (Z.shiftr (Z.land raw 0x000000000fff0000) 16))
     (Register_access.decode (Z.shiftr (Z.land raw 0x00000fff00000000) 32))
     (Z.lor (Z.lor low_short low_nibble) high_nibble).
End R.
End ops.

End Arch.

(** ** The load-immediate expansion (new/src/tools/asm.cpp) *)

Module Asm.
Import Arch Arch.ops.

Definition LOW_24 : Z := 0x0000000000ffffff.
Definition HIGH_36 : Z := 0xfffffffff0000000.

(** [~x] on a [uint64_t]. *)
Definition not64 (x : Z) : Z := Z.lxor x 0xffffffffffffffff.

(** The result is [(high_part, ((base, multiplier), remainder))]. *)
Definition to_loading_parts_unsigned (value : Z) : Z * ((Z * Z) * Z) :=
  let high_part := Z.shiftr (Z.land value HIGH_36) 28 in
  let low_part := uint32_t (Z.land value (not64 HIGH_36)) in
  if Z.land low_part LOW_24 =? low_part then
    (high_part, ((low_part, 0), 0))
  else
    let multiplier := 16 in
    let remainder := low_part mod multiplier in
    let base := uint32_t (low_part - remainder) / multiplier in
    (high_part, ((base, multiplier), remainder)).

(** The two overloads of [op_li] differ in the opcodes they emit only; the
    words written through [instructions] are returned as a list. *)
Definition op_li_with (lui addi : opcode_type) (value : Z)
  : list instruction_type :=
  let parts := to_loading_parts_unsigned value in
  (if negb (parts.1 =? 0) then
     [ E.encode (E.mk (Z.lor GREEDY lui) (Register_access.make_local 1) parts.1) ]
   else [])
  ++
  let base := parts.2.1.1 in
  let multiplier := parts.2.1.2 in
  if negb (multiplier =? 0) then
    let remainder := parts.2.2 in
    [ R.encode (R.mk (Z.lor GREEDY addi) (Register_access.make_local 2)
                     Register_access.make_void base);
      R.encode (R.mk (Z.lor GREEDY addi) (Register_access.make_local 3)
                     Register_access.make_void multiplier);
      T.encode (T.mk (Z.lor GREEDY MUL) (Register_access.make_local 2)
                     (Register_access.make_local 2) (Register_access.make_local 3));
      R.encode (R.mk (Z.lor GREEDY addi) (Register_access.make_local 3)
                     Register_access.make_void remainder);
      T.encode (T.mk (Z.lor GREEDY ADD) (Register_access.make_local 2)
                     (Register_access.make_local 2) (Register_access.make_local 3));
      T.encode (T.mk ADD (Register_access.make_local 1)
                     (Register_access.make_local 1) (Register_access.make_local 2)) ]
  else
    [ R.encode (R.mk addi (Register_access.make_local 1)
                     Register_access.make_void base) ].

(** [op_li(uint64_t*, uint64_t const)] *)
Definition op_li (value : Z) : list instruction_type :=
  op_li_with LUIU ADDIU value.

(** [op_li(uint64_t*, int64_t const)]: the value is converted to
    [uint64_t] on the way into [to_loading_parts_unsigned]. *)
Definition op_li_signed (value : Z) : list instruction_type :=
  op_li_with LUI ADDI (uint64_t value).
End Asm.

(** ** The interpreter (new/src/tools/vm.cpp) *)

Module Vm.
Import Arch Arch.ops.

Inductive Unboxed_type : Type :=
| Void
| Byte
| Integer_signed
| Integer_unsigned
| Float_single
| Float_double.

(** [std::variant<uint64_t, void*>] *)
Inductive variant : Type :=
| holds_uint64 (v : Z)
| holds_pointer (p : Z).

Record Value : Type :=
  mkValue { type_of_unboxed : Unboxed_type; value : variant }.

(** A value-initialised [Value], as [std::vector<Value>(256)] makes them. *)
Definition Value_init : Value := mkValue Void (holds_uint64 0).

Definition is_boxed (v : Value) : bool :=
  match value v with holds_pointer _ => true | holds_uint64 _ => false end.

Definition is_void (v : Value) : bool :=
  negb (is_boxed v)
  && match type_of_unboxed v with Void => true | _ => false end.

(** What is written to [std::cerr], one constructor per kind of line; the
    mnemonic text of an opcode is kept as the opcode. *)
Inductive line : Type :=
| Line_T (opcode out lhs rhs : Z)
| Line_S (opcode out : Z)
| Line_E (opcode out immediate : Z)
| Line_R (opcode out immediate : Z)
| Line_N (opcode : Z)
| Line_unimplemented_T
| Line_unimplemented_S
| Line_unimplemented (opcode : Z)
| Dump_index (i : nat)
| Dump_boxed
| Dump_by (v : Z)
| Dump_is (v : Z)
| Dump_iu (v : Z)
| Dump_fl (v : Z)
| Dump_db (v : Z)
| Line_cycle (offset : Z)
| Line_bundle (i : nat)
| Line_single (i : nat)
| Line_halted
| Line_preempted (ops : Z).

Record machine : Type :=
  mkMachine { registers : list Value; cerr : list line }.

Definition print (l : line) : M machine unit :=
  modify (fun s => mkMachine (registers s) (cerr s ++ [l])).

(** [registers.at(i)]: the bounds check; the reference obtained is the
    position of the slot. *)
Definition at_ (i : Z) : M machine nat :=
  fun s =>
    if (Z.to_nat i <? length (registers s))%nat
    then (s, Ok (Z.to_nat i))
    else (s, Throw out_of_range).

(** Reading through a reference gives what the slot holds now. *)
Definition read (ref : nat) : M machine Value :=
  fun s =>
    match registers s !! ref with
    | Some v => (s, Ok v)
    | None => (s, Undefined)
    end.

Definition write_type (ref : nat) (t : Unboxed_type) : M machine unit :=
  modify (fun s =>
    mkMachine (alter (fun v => mkValue t (value v)) ref (registers s)) (cerr s)).

Definition write_value (ref : nat) (x : variant) : M machine unit :=
  modify (fun s =>
    mkMachine (alter (fun v => mkValue (type_of_unboxed v) x) ref (registers s))
              (cerr s)).

(** [std::get<uint64_t>] *)
Definition get_uint64 (x : variant) : M machine Z :=
  match x with
  | holds_uint64 v => ret v
  | holds_pointer _ => throw bad_variant_access
  end.

Definition Line_of_T (op : T.t) : line :=
  Line_T (T.opcode op)
         (Register_access.index (T.out op))
         (Register_access.index (T.lhs op))
         (Register_access.index (T.rhs op)).

(** The four arithmetic executors differ in the operator only. The tag of
    [lhs] is copied into [out] before the payloads are read. *)
Definition execute_arith (f : Z -> Z -> M machine Z) (op : T.t)
  : M machine unit :=
  let* out := at_ (Register_access.index (T.out op)) in
  let* lhs := at_ (Register_access.index (T.lhs op)) in
  let* rhs := at_ (Register_access.index (T.rhs op)) in
  let* l := read lhs in
  write_type out (type_of_unboxed l) ;;;
  let* l := read lhs in
  let* a := get_uint64 (value l) in
  let* r := read rhs in
  let* b := get_uint64 (value r) in
  let* x := f a b in
  write_value out (holds_uint64 x) ;;;
  print (Line_of_T op).

Definition execute_ADD : T.t -> M machine unit :=
  execute_arith (fun a b => ret (uint64_t (a + b))).
Definition execute_SUB : T.t -> M machine unit :=
  execute_arith (fun a b => ret (uint64_t (a - b))).
Definition execute_MUL : T.t -> M machine unit :=
  execute_arith (fun a b => ret (uint64_t (a * b))).
(** [/] on [uint64_t] has no defined behaviour for a zero divisor, and the
    executor does not test for one. *)
Definition execute_DIV : T.t -> M machine unit :=
  execute_arith (fun a b => if b =? 0 then undefined else ret (a / b)).

Definition execute_DELETE (op : S.t) : M machine unit :=
  let* target := at_ (Register_access.index (S.out op)) in
  write_type target Void ;;;
  write_value target (holds_uint64 0) ;;;
  print (Line_S (S.opcode op) (Register_access.index (S.out op))).

Definition execute_LUI_as (t : Unboxed_type) (op : E.t) : M machine unit :=
  let* value := at_ (Register_access.index (E.out op)) in
  write_type value t ;;;
  write_value value (holds_uint64 (uint64_t (Z.shiftl (E.immediate op) 28))) ;;;
  print (Line_E (E.opcode op) (Register_access.index (E.out op)) (E.immediate op)).

Definition execute_LUI : E.t -> M machine unit := execute_LUI_as Integer_signed.
Definition execute_LUIU : E.t -> M machine unit := execute_LUI_as Integer_unsigned.

Definition execute_ADDI_as (t : Unboxed_type) (op : R.t) : M machine unit :=
  let* out := at_ (Register_access.index (R.out op)) in
  let* base :=
    (if Register_access.is_void (R.in_ op) then ret 0
     else
       let* in_ := at_ (Register_access.index (R.in_ op)) in
       let* v := read in_ in
       get_uint64 (value v)) in
  write_type out t ;;;
  write_value out (holds_uint64 (uint64_t (base + R.immediate op))) ;;;
  print (Line_R (R.opcode op) (Register_access.index (R.out op)) (R.immediate op)).

Definition execute_ADDI : R.t -> M machine unit := execute_ADDI_as Integer_signed.
Definition execute_ADDIU : R.t -> M machine unit := execute_ADDI_as Integer_unsigned.

(** What EBREAK prints for one slot that is not void. *)
Definition dump_slot (i : nat) (each : Value) : M machine unit :=
  print (Dump_index i) ;;;
  if is_boxed each then print Dump_boxed
  else
    match type_of_unboxed each with
    | Void => ret tt
    | Byte => let* v := get_uint64 (value each) in print (Dump_by (uint8_t v))
    | Integer_signed => let* v := get_uint64 (value each) in print (Dump_is v)
    | Integer_unsigned => let* v := get_uint64 (value each) in print (Dump_iu v)
    | Float_single => let* v := get_uint64 (value each) in print (Dump_fl v)
    | Float_double => let* v := get_uint64 (value each) in print (Dump_db v)
    end.

Definition execute_EBREAK (op : N.t) : M machine unit :=
  let* size := gets (fun s => length (registers s)) in
  for_range size (fun i =>
    let* ref := at_ (Z.of_nat i) in
    let* each := read ref in
    if is_void each then ret tt else dump_slot i each).

(** The dispatcher, on the word [raw = *ip]; [None] is [nullptr]. *)
Definition execute_raw (raw : instruction_type) (ip : nat)
  : M machine (option nat) :=
  let opcode := Z.land raw OPCODE_MASK in
  let format := FORMAT_of (Z.land opcode FORMAT_MASK) in
  match format with
  | Some T_ =>
      let instruction := T.decode raw in
      if opcode =? ADD then execute_ADD instruction ;;; ret (Some (S ip))
      else if opcode =? MUL then execute_MUL instruction ;;; ret (Some (S ip))
      else print Line_unimplemented_T ;;; ret None
  | Some S_ =>
      let instruction := S.decode raw in
      if opcode =? DELETE then execute_DELETE instruction ;;; ret (Some (S ip))
      else print Line_unimplemented_S ;;; ret None
  | Some E_ =>
      let instruction := E.decode raw in
      if opcode =? LUI then execute_LUI instruction ;;; ret (Some (S ip))
      else if opcode =? LUIU then execute_LUIU instruction ;;; ret (Some (S ip))
      else ret (Some (S ip))
  | Some R_ =>
      let instruction := R.decode raw in
      if opcode =? ADDI then execute_ADDI instruction ;;; ret (Some (S ip))
      else if opcode =? ADDIU then execute_ADDIU instruction ;;; ret (Some (S ip))
      else ret (Some (S ip))
  | Some N_ =>
      print (Line_N opcode) ;;;
      if opcode =? NOOP then ret (Some (S ip))
      else if opcode =? HALT then ret None
      else if opcode =? EBREAK then
        execute_EBREAK (N.decode raw) ;;; ret (Some (S ip))
      else ret (Some (S ip))
  | Some D_ | Some F_ =>
      print (Line_unimplemented opcode) ;;; ret None
  | None => ret (Some (S ip))
  end.

(** [*ip]: a read outside [text] has no defined behaviour. *)
Definition fetch (text : list instruction_type) (ip : nat)
  : M machine instruction_type :=
  match text !! ip with
  | Some raw => ret raw
  | None => undefined
  end.

Definition execute (text : list instruction_type) (ip : nat)
  : M machine (option nat) :=
  let* raw := fetch text ip in
  execute_raw raw ip.

(** The do-while loop of [run_instruction], on the words from [ip] on. *)
Fixpoint run_instruction_from (rest : list instruction_type) (ip : nat)
  : M machine (option nat) :=
  match rest with
  | [] => undefined
  | instruction :: rest' =>
      let* next := execute_raw instruction ip in
      match next with
      | Some ip' =>
          if is_greedy instruction then run_instruction_from rest' ip'
          else ret (Some ip')
      | None => ret None
      end
  end.

Definition run_instruction (text : list instruction_type) (ip : nat)
  : M machine (option nat) :=
  run_instruction_from (drop ip text) ip.

Definition PREEMPTION_THRESHOLD : nat := 2.

(** The [for] loop of [run]; every pass adds at least one to [i], so
    [left] passes are enough when [PREEMPTION_THRESHOLD <= i + left]. The
    result is the instruction pointer the loop ends with. *)
Fixpoint run_cycle (left : nat) (text : list instruction_type)
    (ip_end : nat) (i : nat) (ip : nat) : M machine nat :=
  match left with
  | O => ret ip
  | S left' =>
      if (i <? PREEMPTION_THRESHOLD)%nat && negb (ip =? ip_end)%nat then
        let* word := fetch text ip in
        let greedy := is_greedy word in
        let bundle_ip := ip in
        print (if greedy then Line_bundle i else Line_single i) ;;;
        let* next := run_instruction text ip in
        let ip := match next with None => ip_end | Some ip' => ip' end in
        let i :=
          if greedy && negb (ip =? ip_end)%nat
          then (i + ((ip - bundle_ip) - 1))%nat
          else i in
        run_cycle left' text ip_end (S i) ip
      else ret ip
  end.

(** The [while] loop of [run], [text] being the words between [ip_begin]
    and [ip_end]. The result is [false] when [fuel] passes did not reach
    the end of the loop. *)
Fixpoint run_loop (fuel : nat) (text : list instruction_type) (ip : nat)
  : M machine bool :=
  let ip_end := length text in
  if (ip =? ip_end)%nat then ret true
  else
    match fuel with
    | O => ret false
    | S fuel' =>
        let ip_before := ip in
        print (Line_cycle (Z.of_nat ip * sizeof_instruction_type)) ;;;
        let* ip := run_cycle PREEMPTION_THRESHOLD text ip_end 0 ip in
        if (ip =? ip_end)%nat then print Line_halted ;;; ret true
        else
          print (Line_preempted (Z.of_nat ip - Z.of_nat ip_before)) ;;;
          run_loop fuel' text ip
    end.

(** Every pass of the [while] loop moves [ip] forward, so one pass per
    word is enough. *)
Definition run (text : list instruction_type) (ip : nat) : M machine bool :=
  run_loop (length text) text ip.

(** [std::vector<Value>(256)] and an empty trace. *)
Definition clean : machine := mkMachine (replicate 256 Value_init) [].
End Vm.

(** ** Assembler stages (new/src/tools/exec/asm.cpp) *)

Module Stage.
Import Arch Arch.ops.

(** Modelled from the spec: viua/libs/lexer.h is absent. Of a lexeme, its
    text and its offset in the source are kept. *)
Record Lexeme : Type := mkLexeme { text : string; location : nat }.

(** Modelled from the spec: viua/libs/parser.h is absent. A node carries
    its attribute list; a function definition and a label definition both
    have a name. Of the other members of the two classes only those of a
    label are kept, to tell the classes apart. [has_attr] and [attr] look
    an attribute up by the text of its key, [attr] giving the key's
    lexeme. *)
Definition attribute_type : Type := Lexeme * option Lexeme.

Record Fn_def : Type :=
  mkFn_def { fn_attributes : list attribute_type; fn_name : Lexeme }.

Record Label_def : Type :=
  mkLabel_def { label_attributes : list attribute_type;
                label_name : Lexeme;
                label_type : Lexeme;
                label_value : list Lexeme }.

Inductive Node : Type :=
| Fn (fn : Fn_def)
| Label (ct : Label_def).

Definition attributes (n : Node) : list attribute_type :=
  match n with
  | Fn fn => fn_attributes fn
  | Label ct => label_attributes ct
  end.

Definition attr (n : Node) (key : string) : option Lexeme :=
  fst <$> find (fun a => String.eqb (text (fst a)) key) (attributes n).

Definition has_attr (n : Node) (key : string) : bool :=
  existsb (fun a => String.eqb (text (fst a)) key) (attributes n).

(** Modelled from the spec: viua/libs/errors/compile_time.h is absent. An
    error names a lexeme, a cause and a message, and collects further
    lexemes ([add]) and notes ([note]). *)
Inductive Cause : Type :=
| Unknown
| Invalid_operand
| Duplicated_entry_point.

Record Error : Type :=
  mkError { main_lexeme : Lexeme;
            cause : Cause;
            message : string;
            detail_lexemes : list Lexeme;
            notes : list string }.

Definition add (l : Lexeme) (e : Error) : Error :=
  mkError (main_lexeme e) (cause e) (message e) (detail_lexemes e ++ [l]) (notes e).

Definition note (s : string) (e : Error) : Error :=
  mkError (main_lexeme e) (cause e) (message e) (detail_lexemes e) (notes e ++ [s]).

(** How a stage ends other than by returning: [display_error_and_exit]
    prints the error and exits with status 1; [optional::value] throws on
    an empty optional. *)
Inductive failure : Type :=
| display_error_and_exit (e : Error)
| bad_optional_access.

(** The [static_cast] of a node to [ast::Fn_def&] is defined for a node
    that is a function definition only. *)
Definition static_cast_Fn_def (n : Node) : result failure Fn_def :=
  match n with
  | Fn fn => Ok fn
  | Label _ => Undefined
  end.

Fixpoint find_entry_point_from (nodes : list Node)
    (entry_point_fn : option Lexeme) : result failure (option Lexeme) :=
  match nodes with
  | [] => Ok entry_point_fn
  | each :: rest =>
      if has_attr each "entry_point" then
        match entry_point_fn with
        | Some first =>
            match static_cast_Fn_def each with
            | Ok dup =>
                match attr (Fn dup) "entry_point" with
                | Some a =>
                    Throw (display_error_and_exit
                      (note ("first entry point was: " +:+ text first)
                         (add a
                            (mkError (fn_name dup) Duplicated_entry_point
                                     (text (fn_name dup)) [] []))))
                | None => Throw bad_optional_access
                end
            | Throw e => Throw e
            | Undefined => Undefined
            end
        | None =>
            match static_cast_Fn_def each with
            | Ok fn => find_entry_point_from rest (Some (fn_name fn))
            | Throw e => Throw e
            | Undefined => Undefined
            end
        end
      else find_entry_point_from rest entry_point_fn
  end.

Definition find_entry_point (nodes : list Node)
  : result failure (option Lexeme) :=
  find_entry_point_from nodes None.

(** [Elf64_Rel] and the macros of <elf.h>. *)
Record Elf64_Rel : Type := mkRel { r_offset : Z; r_info : Z }.

Definition ELF64_R_INFO (sym type : Z) : Z :=
  uint64_t (Z.shiftl (uint64_t sym) 32 + type).
Definition ELF64_R_SYM (i : Z) : Z := Z.shiftr i 32.
Definition ELF64_R_TYPE (i : Z) : Z := Z.land i 0xffffffff.

(** Modelled from the spec: viua/arch/elf.h is absent. The relocation
    kinds and their numbers. *)
Inductive R_VIUA : Type := R_VIUA_NONE | R_VIUA_JUMP_SLOT | R_VIUA_OBJECT.

Definition R_VIUA_code (k : R_VIUA) : Z :=
  match k with
  | R_VIUA_NONE => 0
  | R_VIUA_JUMP_SLOT => 1
  | R_VIUA_OBJECT => 2
  end.

(** [text.at(i)] for an index computed in [size_t]. *)
Definition text_at {S} (text : list instruction_type) (i : Z)
  : M S instruction_type :=
  match text !! Z.to_nat (uint64_t i) with
  | Some each => ret each
  | None => throw out_of_range
  end.

(** The body shared by the CALL and the ATOM case. *)
Definition push_reloc (text : list instruction_type) (i : Z) (kind : R_VIUA)
  : M (list Elf64_Rel) unit :=
  let* upper := text_at text (i - 2) in
  let hi := uint64_t (Z.shiftl (F.immediate (F.decode upper)) 32) in
  let* lower := text_at text (i - 1) in
  let lo := F.immediate (F.decode lower) in
  let symtab_entry_index := uint32_t (Z.lor hi lo) in
  let rel :=
    mkRel (uint64_t (uint64_t (i - 2) * sizeof_instruction_type))
          (ELF64_R_INFO symtab_entry_index (uint8_t (R_VIUA_code kind))) in
  modify (fun reloc_table => reloc_table ++ [rel]).

Definition make_reloc_table (text : list instruction_type)
  : result exception (list Elf64_Rel) :=
  let scan :=
    for_range (length text) (fun i =>
      let* each := text_at text (Z.of_nat i) in
      let op := Z.land each OPCODE_MASK in
      if op =? CALL then push_reloc text (Z.of_nat i) R_VIUA_JUMP_SLOT
      else if op =? ATOM then push_reloc text (Z.of_nat i) R_VIUA_OBJECT
      else ret tt) in
  match scan [] with
  | (reloc_table, Ok _) => Ok reloc_table
  | (_, Throw e) => Throw e
  | (_, Undefined) => Undefined
  end.
End Stage.

(** ** The AA executor (new/src/vm/ins/aa.cpp) *)

Module Aa.
Import Arch.

Record Pointer : Type := mkPointer { ptr : Z }.

Record Process : Type :=
  mkProcess { stack_break : Z; pointers : list Pointer }.

(** The operands of an AA instruction the executor reads. *)
Record AA : Type :=
  mkAA { out : Register_access.t; in_ : Register_access.t; spec : Z }.

Section Executor.
(** Modelled from the spec: viua/vm/ins.h and viua/vm/core.h are absent.
    A frame holds a register file and the saved stack break; a stack
    holds its process and its frames. [fetch_proxy] reads the register
    an access names and may throw; [get] is [.get<uint64_t>()] on what
    it returns, with a value only when the register holds an unsigned
    64-bit integer; [save] is the assignment through [save_proxy]. *)
Context {Register_file Proxy : Type}.

Record Frame : Type :=
  mkFrame { registers : Register_file; saved_sbrk : Z }.

Record Stack : Type := mkStack { proc : Process; frames : list Frame }.

Variable fetch_proxy : Stack -> Register_access.t -> nat -> result exception Proxy.
Variable get : Proxy -> option Z.
Variable save : Register_access.t -> nat -> Z -> M Stack unit.

Definition set_stack_break (b : Z) : M Stack unit :=
  modify (fun stack =>
    mkStack (mkProcess b (pointers (proc stack))) (frames stack)).

(** [stack.frames.back().saved.sbrk = b]; [back()] of an empty vector
    has no defined behaviour. *)
Definition set_saved_sbrk (b : Z) : M Stack unit :=
  fun stack =>
    match last (frames stack) with
    | Some top =>
        (mkStack (proc stack)
           (alter (fun f => mkFrame (registers f) b)
                  (length (frames stack) - 1)%nat (frames stack)),
         Ok tt)
    | None => (stack, Undefined)
    end.

Definition push_pointer (p : Pointer) : M Stack unit :=
  modify (fun stack =>
    mkStack (mkProcess (stack_break (proc stack)) (pointers (proc stack) ++ [p]))
            (frames stack)).

Definition execute (op : AA) (ip : nat) : M Stack unit :=
  let* size :=
    (fun stack =>
       match fetch_proxy stack (in_ op) ip with
       | Ok p => (stack, Ok (get p))
       | Throw e => (stack, Throw e)
       | Undefined => (stack, Undefined)
       end) in
  let alignment := Z.shiftl 1 (spec op) in
  match size with
  | None => throw (abort_execution ip "invalid operand type for aa instruction")
  | Some size =>
      let* pointer_address := gets (fun stack => stack_break (proc stack)) in
      set_stack_break (uint64_t (pointer_address + size)) ;;;
      let* break := gets (fun stack => stack_break (proc stack)) in
      set_saved_sbrk break ;;;
      save (out op) ip pointer_address ;;;
      push_pointer (mkPointer pointer_address)
  end.
End Executor.

Arguments Frame : clear implicits.
Arguments Stack : clear implicits.

(** Modelled from the spec: a register file of tagged 64-bit slots, for
    which [fetch_proxy] reads the slot of the topmost frame that the
    access names, throwing when there is none, and [.get<uint64_t>()] has
    a value for the tag Unsigned only. *)
Definition Register_file : Type := list Vm.Value.

Definition fetch_slot (stack : Stack Register_file)
    (a : Register_access.t) (ip : nat) : result exception Vm.Value :=
  match last (frames stack) with
  | Some top =>
      match registers top !! Z.to_nat (Register_access.index a) with
      | Some v => Ok v
      | None => Throw (abort_execution ip "invalid register access")
      end
  | None => Throw (abort_execution ip "no frame")
  end.

Definition get_unsigned (v : Vm.Value) : option Z :=
  match Vm.type_of_unboxed v, Vm.value v with
  | Vm.Integer_unsigned, Vm.holds_uint64 x => Some x
  | _, _ => None
  end.

Definition save_slot (a : Register_access.t) (ip : nat) (x : Z)
  : M (Stack Register_file) unit :=
  fun stack =>
    match last (frames stack) with
    | Some top =>
        (mkStack (proc stack)
           (alter (fun f =>
                     mkFrame (<[Z.to_nat (Register_access.index a) :=
                                  Vm.mkValue Vm.Integer_unsigned (Vm.holds_uint64 x)]>
                                (registers f))
                             (saved_sbrk f))
                  (length (frames stack) - 1)%nat (frames stack)),
         Ok tt)
    | None => (stack, Throw (abort_execution ip "no frame"))
    end.
End Aa.

(** ** The codec as one function per direction *)

Module Codec.
Import Arch Arch.ops.

Inductive instruction : Type :=
| Fmt_N (i : N.t)
| Fmt_S (i : S.t)
| Fmt_D (i : D.t)
| Fmt_T (i : T.t)
| Fmt_F (i : F.t)
| Fmt_E (i : E.t)
| Fmt_R (i : R.t).

Definition format_of (x : instruction) : FORMAT :=
  match x with
  | Fmt_N _ => N_ | Fmt_S _ => S_ | Fmt_D _ => D_ | Fmt_T _ => T_
  | Fmt_F _ => F_ | Fmt_E _ => E_ | Fmt_R _ => R_
  end.

Definition opcode_of (x : instruction) : opcode_type :=
  match x with
  | Fmt_N i => N.opcode i | Fmt_S i => S.opcode i | Fmt_D i => D.opcode i
  | Fmt_T i => T.opcode i | Fmt_F i => F.opcode i | Fmt_E i => E.opcode i
  | Fmt_R i => R.opcode i
  end.

Definition encode (x : instruction) : instruction_type :=
  match x with
  | Fmt_N i => N.encode i | Fmt_S i => S.encode i | Fmt_D i => D.encode i
  | Fmt_T i => T.encode i | Fmt_F i => F.encode i | Fmt_E i => E.encode i
  | Fmt_R i => R.encode i
  end.

Definition decode (f : FORMAT) (raw : instruction_type) : instruction :=
  match f with
  | N_ => Fmt_N (N.decode raw) | S_ => Fmt_S (S.decode raw)
  | D_ => Fmt_D (D.decode raw) | T_ => Fmt_T (T.decode raw)
  | F_ => Fmt_F (F.decode raw) | E_ => Fmt_E (E.decode raw)
  | R_ => Fmt_R (R.decode raw)
  end.

(** What the C++ types of the operands guarantee: a 16-bit opcode, 8-bit
    register indexes, and an immediate within the width of its format. *)
Definition wf (x : instruction) : Prop :=
  0 <= opcode_of x < 2 ^ 16 /\
  match x with
  | Fmt_N _ => True
  | Fmt_S i => Register_access.wf (S.out i)
  | Fmt_D i => Register_access.wf (D.out i) /\ Register_access.wf (D.in_ i)
  | Fmt_T i =>
      Register_access.wf (T.out i) /\ Register_access.wf (T.lhs i)
      /\ Register_access.wf (T.rhs i)
  | Fmt_F i => Register_access.wf (F.out i) /\ 0 <= F.immediate i < 2 ^ 32
  | Fmt_E i => Register_access.wf (E.out i) /\ 0 <= E.immediate i < 2 ^ 36
  | Fmt_R i =>
      Register_access.wf (R.out i) /\ Register_access.wf (R.in_ i)
      /\ 0 <= R.immediate i < 2 ^ 24
  end.
End Codec.

(** ** Sample inputs *)

(** The T-format tuple that the self-test of new/src/tools/asm.cpp encodes
    and decodes. *)
Definition sample_T : Codec.instruction :=
  Codec.Fmt_T
    (Arch.ops.T.mk 0xdead
       (Arch.Register_access.mk Arch.LOCAL true 0xff)
       (Arch.Register_access.mk Arch.LOCAL true 0x01)
       (Arch.Register_access.mk Arch.LOCAL true 0x02)).


(** ** What the trace and a bundle are compared with *)

Module Trace.
Import Arch Arch.ops.

(** The byte offsets of the "cycle at" lines of a trace, in order: the
    offset of the first is where [run] starts, that of every later one is a
    preemption point. *)
Definition cycles (l : list Vm.line) : list Z :=
  omap (fun x => match x with Vm.Line_cycle off => Some off | _ => None end) l.

(** The words [ws] executed one after the other from [ip] on, up to the
    first for which the dispatcher returns [nullptr]. This is not a function
    of the source: it says what executing a run of instructions without
    interruption means. *)
Fixpoint execute_all (ws : list instruction_type) (ip : nat)
  : M Vm.machine (option nat) :=
  match ws with
  | [] => ret (Some ip)
  | w :: ws' =>
      let* next := Vm.execute_raw w ip in
      match next with
      | Some ip' => execute_all ws' ip'
      | None => ret None
      end
  end.
End Trace.

(** [li] of the value of new/src/tools/asm.cpp's sample program, followed by
    the rest of that program's first part. *)
Definition sample_program : list Arch.instruction_type :=
  Asm.op_li 0xdeadbeefdeadbeef
  ++ [ Arch.ops.S.encode
         (Arch.ops.S.mk (Z.lor Arch.ops.GREEDY Arch.ops.DELETE)
            (Arch.Register_access.make_local 2));
       Arch.ops.S.encode
         (Arch.ops.S.mk Arch.ops.DELETE (Arch.Register_access.make_local 3));
       Arch.ops.N.encode (Arch.ops.N.mk Arch.ops.EBREAK);
       Arch.ops.N.encode (Arch.ops.N.mk Arch.ops.HALT) ].

(** A DIV of register 2 by register 3, and a register file in which
    register 3 holds zero. *)
Definition DIV_word : Arch.instruction_type :=
  Arch.ops.T.encode
    (Arch.ops.T.mk Arch.ops.DIV (Arch.Register_access.make_local 1)
       (Arch.Register_access.make_local 2) (Arch.Register_access.make_local 3)).

Definition zero_divisor : Vm.machine :=
  Vm.mkMachine
    (<[2%nat := Vm.mkValue Vm.Integer_unsigned (Vm.holds_uint64 10)]>
       (<[3%nat := Vm.mkValue Vm.Integer_unsigned (Vm.holds_uint64 0)]>
          (Vm.registers Vm.clean)))
    [].


(** A call is quiet when it leaves the "cycle at" lines of the trace as they
    were, however it ends. *)
Definition quiet {A} (c : M Vm.machine A) : Prop :=
  forall s s' r, c s = (s', r) ->
    Trace.cycles (Vm.cerr s') = Trace.cycles (Vm.cerr s).


(** A position that follows a word without the greedy bit. *)
Definition after_plain (text : list Arch.instruction_type) (p : nat) : Prop :=
  exists i w, p = S i /\ text !! i = Some w /\ Arch.ops.is_greedy w = false.


(** Where a pass of the while loop of [run] may start. *)
Definition good_start (text : list Arch.instruction_type) (p : nat) : Prop :=
  p = 0%nat \/ after_plain text p.


(** The seven words of the [li] expansion of [sample_program] as a bundle:
    the six greedy ones, the closing one, and what follows. *)
Definition sample_gs : list Arch.instruction_type :=
  take 6 (Asm.op_li 0xdeadbeefdeadbeef).

Definition sample_last : Arch.instruction_type :=
  Arch.ops.T.encode
    (Arch.ops.T.mk Arch.ops.ADD (Arch.Register_access.make_local 1)
       (Arch.Register_access.make_local 1) (Arch.Register_access.make_local 2)).

Definition sample_post : list Arch.instruction_type := drop 7 sample_program.

(** ** What entry-point detection and the relocation scan are compared with *)

Module Expected.
Import Arch Arch.ops Stage.

(** The function definitions that carry the attribute [entry_point], in the
    order of the source. *)
Definition entry_point_functions (nodes : list Node) : list Fn_def :=
  omap (fun n =>
          match n with
          | Fn fn => if has_attr n "entry_point" then Some fn else None
          | Label _ => None
          end) nodes.

(** The error built for the function [dup] when [first] is the name of the
    entry point seen before it and [a] the lexeme of the attribute. *)
Definition duplicated (dup : Fn_def) (first a : Lexeme) : Error :=
  mkError (fn_name dup) Duplicated_entry_point (text (fn_name dup)) [a]
          ["first entry point was: " +:+ text first].

(** The kind of relocation a word asks for, if any. *)
Definition reloc_kind (each : instruction_type) : option R_VIUA :=
  if Z.land each OPCODE_MASK =? CALL then Some R_VIUA_JUMP_SLOT
  else if Z.land each OPCODE_MASK =? ATOM then Some R_VIUA_OBJECT
  else None.

(** The relocation for the word at [i]: two words back in bytes, the
    immediate of the word before it as the symbol, the kind as the type. *)
Definition reloc_for (text : list instruction_type) (i : nat)
  : option Elf64_Rel :=
  each ← text !! i;
  kind ← reloc_kind each;
  lower ← text !! (i - 1)%nat;
  Some (mkRel (8 * (Z.of_nat i - 2))
              (F.immediate (F.decode lower) * 2 ^ 32 + R_VIUA_code kind)).

Definition reloc_table (text : list instruction_type) : list Elf64_Rel :=
  omap (reloc_for text) (seq 0 (length text)).

(** The symbol-table index as the specification words it: the 64-bit value
    whose upper half is the immediate of the word two before [i] and whose
    lower half is the immediate of the word before [i]. *)
Definition symbol_index_as_claimed (text : list instruction_type) (i : nat)
  : option Z :=
  upper ← text !! (i - 2)%nat;
  lower ← text !! (i - 1)%nat;
  Some (Z.lor (Z.shiftl (F.immediate (F.decode upper)) 32)
              (F.immediate (F.decode lower))).
End Expected.

(** Two F-format words carrying the halves 1 and 5 of an index, and a
    CALL. *)
Definition sample_call : list Arch.instruction_type :=
  [ Arch.ops.F.encode
      (Arch.ops.F.mk (Z.lor Arch.ops.FORMAT_F 1) (Arch.Register_access.make_local 1) 1);
    Arch.ops.F.encode
      (Arch.ops.F.mk (Z.lor Arch.ops.FORMAT_F 1) (Arch.Register_access.make_local 1) 5);
    Arch.ops.D.encode
      (Arch.ops.D.mk Arch.ops.CALL (Arch.Register_access.make_local 1)
         (Arch.Register_access.make_local 2)) ].

(** A stack of one frame whose register 0 holds a signed integer, and an AA
    that takes its size from that register. *)
Definition sample_stack : Aa.Stack Aa.Register_file :=
  Aa.mkStack (Aa.mkProcess 4096 [])
    [ Aa.mkFrame
        [ Vm.mkValue Vm.Integer_signed (Vm.holds_uint64 16); Vm.Value_init ]
        4096 ].

Definition sample_AA : Aa.AA :=
  Aa.mkAA (Arch.Register_access.make_local 1) (Arch.Register_access.make_local 0) 3.

(** A function [main] that is the entry point, a label, and a second
    function. *)
Definition sample_nodes : list Stage.Node :=
  [ Stage.Fn (Stage.mkFn_def
       [(Stage.mkLexeme "entry_point" 12, None)] (Stage.mkLexeme "main" 27));
    Stage.Label (Stage.mkLabel_def
       [] (Stage.mkLexeme "msg" 60) (Stage.mkLexeme "string" 50) []);
    Stage.Fn (Stage.mkFn_def [] (Stage.mkLexeme "helper" 90)) ].


(** ** What the dispatcher is compared with *)

Module Dispatch.
Import Arch Arch.ops.

(** The executor that the dispatcher has for a decoded instruction of the
    formats T, S, E and R, chosen by the opcode with the greedy bit masked
    off; [None] where the dispatcher has no executor or the opcode is not
    of the format of the instruction. *)
Definition executor_of (x : Codec.instruction) : option (M Vm.machine unit) :=
  let opcode := Z.land (Codec.opcode_of x) OPCODE_MASK in
  match x with
  | Codec.Fmt_T i =>
      if opcode =? ADD then Some (Vm.execute_ADD i)
      else if opcode =? MUL then Some (Vm.execute_MUL i)
      else None
  | Codec.Fmt_S i => if opcode =? DELETE then Some (Vm.execute_DELETE i) else None
  | Codec.Fmt_E i =>
      if opcode =? LUI then Some (Vm.execute_LUI i)
      else if opcode =? LUIU then Some (Vm.execute_LUIU i)
      else None
  | Codec.Fmt_R i =>
      if opcode =? ADDI then Some (Vm.execute_ADDI i)
      else if opcode =? ADDIU then Some (Vm.execute_ADDIU i)
      else None
  | _ => None
  end.
End Dispatch.


(** ** Register files the interpreter is safe on *)

Module Safe.

(** No slot holds a pointer. *)
Definition unboxed (registers : list Vm.Value) : Prop :=
  Forall (fun v => Vm.is_boxed v = false) registers.

(** The register file [main] makes has 256 slots, one for every value of a
    [uint8_t] index, and nothing puts a pointer in one. *)
Definition invariant (s : Vm.machine) : Prop :=
  length (Vm.registers s) = 256%nat /\ unboxed (Vm.registers s).

(** A call that, on such a register file, returns (no exception, no
    undefined behaviour) a value satisfying [P], and keeps the register
    file such. *)
Definition returns {A} (P : A -> Prop) (c : M Vm.machine A) : Prop :=
  forall s, invariant s ->
    exists s' a, c s = (s', Ok a) /\ invariant s' /\ P a.
End Safe.


(** ** Lines of one kind in a trace *)

Module Marks.

(** The lines of a trace that [pick] selects, in order. *)
Definition marks {A} (pick : Vm.line -> option A) (l : list Vm.line) : list A :=
  omap pick l.

(** A call that prints no line that [pick] selects, however it ends. *)
Definition keeps {A B} (pick : Vm.line -> option A) (c : M Vm.machine B) : Prop :=
  forall s s' r, c s = (s', r) ->
    marks pick (Vm.cerr s') = marks pick (Vm.cerr s).

(** The operation counts of the "preempted after" lines. *)
Definition preempted (l : Vm.line) : option Z :=
  match l with Vm.Line_preempted n => Some n | _ => None end.

(** What EBREAK prints for one slot, as a list. *)
Definition dump_of_slot (i : nat) (each : Vm.Value) : list Vm.line :=
  if Vm.is_void each then []
  else
    Vm.Dump_index i
    :: match Vm.value each with
       | Vm.holds_pointer _ => [Vm.Dump_boxed]
       | Vm.holds_uint64 v =>
           match Vm.type_of_unboxed each with
           | Vm.Void => []
           | Vm.Byte => [Vm.Dump_by (uint8_t v)]
           | Vm.Integer_signed => [Vm.Dump_is v]
           | Vm.Integer_unsigned => [Vm.Dump_iu v]
           | Vm.Float_single => [Vm.Dump_fl v]
           | Vm.Float_double => [Vm.Dump_db v]
           end
       end.

(** The dump of a register file: the slots that are not void, in the order
    of their indexes. *)
Definition dump (registers : list Vm.Value) : list Vm.line :=
  concat (imap dump_of_slot registers).
End Marks.

(** ** Bytecode emission (new/src/tools/exec/asm.cpp) *)

Module Emit.
Import Arch Arch.ops.

(** [Elf64_Sym] of <elf.h>. *)
Record Elf64_Sym : Type :=
  mkSym { st_name : Z; st_info : Z; st_other : Z; st_shndx : Z;
          st_value : Z; st_size : Z }.

(** What leaves [emit_bytecode] other than its result: the
    [std::out_of_range] of [map::at] and [vector::at], or the compile-time
    error of the encoder. *)
Inductive failure : Type :=
| at_out_of_range
| compile_time (e : Stage.Error).

(** The two vectors that [emit_bytecode] is given by reference. *)
Record buffers : Type :=
  mkBuffers { text : list instruction_type; symbol_table : list Elf64_Sym }.

Section Emit_bytecode.

(** [ast::Instruction] and [viua::libs::stage::emit_instruction] are
    declared in headers that are absent: the stage is embedded for any type
    of instructions and any encoder, which returns a word or throws a
    compile-time error. *)
Context {Instruction : Type}.
Variable emit_instruction : Instruction -> result Stage.Error instruction_type.

(** Modelled from the spec: viua/libs/parser.h is absent. A function
    definition as this stage reads it: the name and the attributes, as in
    [Stage.Fn_def], and the instructions of the body. *)
Record Fn_def : Type :=
  mkFn_def { header : Stage.Fn_def; instructions : list Instruction }.

Inductive Node : Type :=
| Fn (fn : Fn_def)
| Label (ct : Stage.Label_def).

Definition name (fn : Fn_def) : Stage.Lexeme := Stage.fn_name (header fn).

Definition has_attr (fn : Fn_def) (key : string) : bool :=
  Stage.has_attr (Stage.Fn (header fn)) key.

(** The [std::accumulate] over the nodes, and the HALT before them. Sizes
    are natural numbers: the vectors are in memory, so that the sum stays
    far below [2^64]. *)
Definition ops_count (nodes : list Node) : nat :=
  (1 + foldl (fun acc each =>
                match each with
                | Fn fn => acc + length (instructions fn)
                | Label _ => acc
                end) 0 nodes)%nat.

(** [for (auto const& insn : fn.instructions) *ip++ = emit_instruction(insn)]
    with [ip] as an index into the text: a store through [ip] is defined
    inside the vector only. *)
Fixpoint emit_instructions (insns : list Instruction) (ip : nat)
    (text : list instruction_type)
  : list instruction_type * result failure nat :=
  match insns with
  | [] => (text, Ok ip)
  | insn :: rest =>
      match emit_instruction insn with
      | Ok word =>
          if (ip <? length text)%nat
          then emit_instructions rest (S ip) (<[ip := word]> text)
          else (text, Undefined)
      | Throw e => (text, Throw (compile_time e))
      | Undefined => (text, Undefined)
      end
  end.

(** The block that saves the address of a function in its symbol. *)
Definition save_address (fn : Fn_def) (ip : nat) (sym : Elf64_Sym)
  : Elf64_Sym :=
  if has_attr fn "extern" then sym
  else
    mkSym (st_name sym) (st_info sym) (st_other sym) (st_shndx sym)
          (uint64_t (Z.of_nat ip * sizeof_instruction_type))
          (uint64_t (Z.of_nat (length (instructions fn))
                     * sizeof_instruction_type)).

(** The loop over the nodes, from the word [ip] on. *)
Fixpoint emit_functions (symbol_map : gmap string nat) (nodes : list Node)
    (ip : nat) (b : buffers) : buffers * result failure unit :=
  match nodes with
  | [] => (b, Ok tt)
  | Label _ :: rest => emit_functions symbol_map rest ip b
  | Fn fn :: rest =>
      match symbol_map !! Stage.text (name fn) with
      | None => (b, Throw at_out_of_range)
      | Some index =>
          match symbol_table b !! index with
          | None => (b, Throw at_out_of_range)
          | Some sym =>
              let symbol_table' :=
                <[index := save_address fn ip sym]> (symbol_table b) in
              match emit_instructions (instructions fn) ip (text b) with
              | (text', Ok ip') =>
                  emit_functions symbol_map rest ip'
                    (mkBuffers text' symbol_table')
              | (text', Throw e) =>
                  (mkBuffers text' symbol_table', Throw e)
              | (text', Undefined) =>
                  (mkBuffers text' symbol_table', Undefined)
              end
          end
      end
  end.

(** [emit_bytecode] of the anonymous namespace. The map of function
    addresses that it returns is never written to. *)
Definition emit_bytecode (nodes : list Node) (b : buffers)
    (symbol_map : gmap string nat)
  : buffers * result failure (gmap string Z) :=
  let text := resize (ops_count nodes) 0 (text b) in
  match text with
  | [] => (mkBuffers text (symbol_table b), Throw at_out_of_range)
  | _ :: _ =>
      let text := <[0%nat := N.encode (N.mk HALT)]> text in
      match emit_functions symbol_map nodes 1
              (mkBuffers text (symbol_table b)) with
      | (b', Ok _) => (b', Ok empty)
      | (b', Throw e) => (b', Throw e)
      | (b', Undefined) => (b', Undefined)
      end
  end.

End Emit_bytecode.

Arguments Fn_def : clear implicits.
Arguments Node : clear implicits.
End Emit.

(** The layout that the emitted text is expected to have. *)
Module Layout.

(** The function definitions among the nodes, in order. *)
Definition functions {I} (nodes : list (Emit.Node I)) : list (Emit.Fn_def I) :=
  omap (fun each => match each with
                    | Emit.Fn fn => Some fn
                    | Emit.Label _ => None
                    end) nodes.

(** The number of instructions of the functions among the nodes. *)
Definition size {I} (nodes : list (Emit.Node I)) : nat :=
  length (flat_map Emit.instructions (functions nodes)).

(** The words of the functions among the nodes, for an encoder [enc]. *)
Definition code {I} (enc : I -> Arch.instruction_type)
    (nodes : list (Emit.Node I)) : list Arch.instruction_type :=
  flat_map (fun fn => map enc (Emit.instructions fn)) (functions nodes).

(** [emit_instruction] returns for every instruction of every function,
    and what it returns is given by [enc]. *)
Definition encoded {I}
    (emit_instruction : I -> result Stage.Error Arch.instruction_type)
    (enc : I -> Arch.instruction_type) (nodes : list (Emit.Node I)) : Prop :=
  Forall (fun fn =>
            Forall (fun insn => emit_instruction insn = Ok (enc insn))
                   (Emit.instructions fn))
         (functions nodes).

(** Every function has an entry in the symbol map, which is an index into
    a symbol table of [n] entries. *)
Definition named {I} (symbol_map : gmap string nat) (n : nat)
    (nodes : list (Emit.Node I)) : Prop :=
  Forall (fun fn =>
            exists index : nat,
              symbol_map !! Stage.text (Emit.name fn) = Some index
              /\ (index < n)%nat)
         (functions nodes).

(** No function that is not extern has the symbol [index]. *)
Definition unused {I} (symbol_map : gmap string nat) (index : nat)
    (nodes : list (Emit.Node I)) : Prop :=
  Forall (fun fn =>
            Emit.has_attr fn "extern" = false ->
            symbol_map !! Stage.text (Emit.name fn) <> Some index)
         (functions nodes).

(** The fields of a symbol that hold neither its address nor its size. *)
Definition identity (sym : Emit.Elf64_Sym) : Z * Z * Z * Z :=
  (Emit.st_name sym, Emit.st_info sym, Emit.st_other sym, Emit.st_shndx sym).

(** Where the entries of a symbol table end up after the functions of
    [nodes] were emitted from the word [ip] on. *)
Fixpoint symbols {I} (symbol_map : gmap string nat)
    (nodes : list (Emit.Node I)) (ip : nat) (table : list Emit.Elf64_Sym)
  : list Emit.Elf64_Sym :=
  match nodes with
  | [] => table
  | Emit.Label _ :: rest => symbols symbol_map rest ip table
  | Emit.Fn fn :: rest =>
      match symbol_map !! Stage.text (Emit.name fn) with
      | Some index =>
          symbols symbol_map rest (ip + length (Emit.instructions fn))
            (alter (Emit.save_address fn ip) index table)
      | None => table
      end
  end.
End Layout.

(** A module for the emission stage: a function [helper], a label, the
    function [main], and an extern function [print] without a body. *)
Definition sample_emit (x : Codec.instruction)
  : result Stage.Error Arch.instruction_type :=
  Ok (Codec.encode x).

Definition sample_helper : Emit.Fn_def Codec.instruction :=
  Emit.mkFn_def (Stage.mkFn_def [] (Stage.mkLexeme "helper" 10))
    [Codec.Fmt_N (Arch.ops.N.mk Arch.ops.EBREAK)].

Definition sample_main : Emit.Fn_def Codec.instruction :=
  Emit.mkFn_def (Stage.mkFn_def [] (Stage.mkLexeme "main" 90))
    [sample_T; Codec.Fmt_N (Arch.ops.N.mk Arch.ops.HALT)].

Definition sample_print : Emit.Fn_def Codec.instruction :=
  Emit.mkFn_def
    (Stage.mkFn_def [(Stage.mkLexeme "extern" 130, None)]
                    (Stage.mkLexeme "print" 150))
    [].

Definition sample_label : Stage.Label_def :=
  Stage.mkLabel_def [] (Stage.mkLexeme "msg" 60) (Stage.mkLexeme "string" 50) [].

Definition sample_module : list (Emit.Node Codec.instruction) :=
  [ Emit.Fn sample_helper; Emit.Label sample_label ]
  ++ Emit.Fn sample_main :: [ Emit.Fn sample_print ].

Definition sample_symbol_map : gmap string nat :=
  {[ "helper" := 1%nat; "main" := 2%nat; "print" := 3%nat ]}.

(** The null symbol and the three function symbols, as the label stages
    leave them, and a text that is still empty. *)
Definition sample_buffers : Emit.buffers :=
  Emit.mkBuffers []
    [ Emit.mkSym 0 0 0 0 0 0; Emit.mkSym 1 18 0 0 0 0;
      Emit.mkSym 8 18 0 0 0 0; Emit.mkSym 13 18 0 0 0 0 ].

(** ** What stopping the dispatch loop means *)

Module Stop.
Import Arch Arch.ops.

(** A state with lines added at the end of its trace. *)
Definition printed (s : Vm.machine) (lines : list Vm.line) : Vm.machine :=
  Vm.mkMachine (Vm.registers s) (Vm.cerr s ++ lines).

(** The dispatch loop stops at the word [raw], for which it prints [line].
    Let [raw] be anywhere in a text, after the words [pre] and the greedy
    words [gs] of its own bundle, if any, and let the words of [gs] execute
    normally and lead to the state [s1]. Then a pass of the [for] loop of
    [run] that starts at the first word of the bundle prints [line] and
    ends with [ip == ip_end], whatever the counter [i] is; and [run],
    started there, prints [line] and "halted" and returns: no word of
    [post] is executed. This is not a function of the source: it says what
    stopping means. *)
Definition stops_loop (raw : instruction_type) (line : Vm.line) : Prop :=
  forall (pre gs post : list instruction_type) (s s1 : Vm.machine) (p : nat),
    Forall (fun w => is_greedy w = true) gs ->
    let text := pre ++ gs ++ raw :: post in
    let ip := length pre in
    let mark (i : nat) :=
      if is_greedy (hd raw gs) then Vm.Line_bundle i else Vm.Line_single i in
    (forall i left,
       (i < Vm.PREEMPTION_THRESHOLD)%nat ->
       Trace.execute_all gs ip (printed s [mark i]) = (s1, Ok (Some p)) ->
       Vm.run_cycle (S left) text (length text) i ip s
       = (printed s1 [line], Ok (length text)))
    /\ (Trace.execute_all gs ip
          (printed s [Vm.Line_cycle (Z.of_nat ip * sizeof_instruction_type);
                      mark 0%nat])
        = (s1, Ok (Some p)) ->
        Vm.run text ip s = (printed s1 [line; Vm.Line_halted], Ok true)).
End Stop.

(** A DIV by zero followed by an instruction that would load 5 into
    register 1, and the same after a greedy DELETE of register 4. *)
Definition sample_after_DIV : list Arch.instruction_type :=
  [ DIV_word;
    Arch.ops.R.encode
      (Arch.ops.R.mk Arch.ops.ADDIU (Arch.Register_access.make_local 1)
         Arch.Register_access.make_void 5) ].

Definition sample_DIV_in_bundle : list Arch.instruction_type :=
  Arch.ops.S.encode
    (Arch.ops.S.mk (Z.lor Arch.ops.GREEDY Arch.ops.DELETE)
       (Arch.Register_access.make_local 4))
  :: sample_after_DIV.

(** Programs in which a label definition carries the attribute
    [entry_point], before and after the one function that carries it. *)
Definition sample_entry_label : Stage.Node :=
  Stage.Label (Stage.mkLabel_def
    [(Stage.mkLexeme "entry_point" 42, None)]
    (Stage.mkLexeme "msg" 60) (Stage.mkLexeme "string" 50) []).

Definition sample_entry_main : Stage.Node :=
  Stage.Fn (Stage.mkFn_def
    [(Stage.mkLexeme "entry_point" 12, None)] (Stage.mkLexeme "main" 27)).

Definition sample_label_first : list Stage.Node :=
  [sample_entry_label; sample_entry_main].

Definition sample_label_second : list Stage.Node :=
  [sample_entry_main; sample_entry_label].

(** Two functions that carry the attribute [entry_point], with a label
    between them. *)
Definition sample_duplicate : list Stage.Node :=
  [ sample_entry_main;
    Stage.Label (Stage.mkLabel_def
       [] (Stage.mkLexeme "msg" 60) (Stage.mkLexeme "string" 50) []);
    Stage.Fn (Stage.mkFn_def
       [(Stage.mkLexeme "entry_point" 80, None)] (Stage.mkLexeme "helper" 95)) ].

(** * Properties *)

(** ** Bit fields of the instruction word *)

Ltac unmask :=
  change 0xffff with (Z.ones 16) in *;
  change 0xff with (Z.ones 8) in *;
  change 0x0600 with (Z.shiftl (Z.ones 2) 9) in *;
  change 0x8000 with (Z.shiftl (Z.ones 1) 15) in *;
  change 0xffff0000 with (Z.shiftl (Z.ones 16) 16) in *;
  change 0x0fff0000 with (Z.shiftl (Z.ones 12) 16) in *;
  change 0x0000ffff00000000 with (Z.shiftl (Z.ones 16) 32) in *;
  change 0x00000fff00000000 with (Z.shiftl (Z.ones 12) 32) in *;
  change 0xffff000000000000 with (Z.shiftl (Z.ones 16) 48) in *;
  change 0xffffffff00000000 with (Z.shiftl (Z.ones 32) 32) in *;
  change 0xfffffffff0000000 with (Z.shiftl (Z.ones 36) 28) in *;
  change 0x0000f00000000000 with (Z.shiftl (Z.ones 4) 44) in *;
  change 0x00000000f0000000 with (Z.shiftl (Z.ones 4) 28) in *;
  change 0x0f0000 with (Z.shiftl (Z.ones 4) 16) in *;
  change 0xf00000 with (Z.shiftl (Z.ones 4) 20) in *.

Ltac fields := intros; unmask; prove_Zeq_bitwise.

Lemma S_word_opcode o a :
  0 <= o < 2 ^ 16 -> 0 <= a < 2 ^ 11 ->
  Z.land (Z.lor o (Z.shiftl a 16)) 0xffff = o.
Proof. fields. Qed.

Lemma S_word_out o a :
  0 <= o < 2 ^ 16 -> 0 <= a < 2 ^ 11 ->
  Z.shiftr (Z.land (Z.lor o (Z.shiftl a 16)) 0xffff0000) 16 = a.
Proof. fields. Qed.

Lemma D_word_opcode o a b :
  0 <= o < 2 ^ 16 -> 0 <= a < 2 ^ 11 -> 0 <= b < 2 ^ 11 ->
  Z.land (Z.lor (Z.lor o (Z.shiftl a 16)) (Z.shiftl b 32)) 0xffff = o.
Proof. fields. Qed.

Lemma D_word_out o a b :
  0 <= o < 2 ^ 16 -> 0 <= a < 2 ^ 11 -> 0 <= b < 2 ^ 11 ->
  Z.shiftr (Z.land (Z.lor (Z.lor o (Z.shiftl a 16)) (Z.shiftl b 32)) 0xffff0000) 16 = a.
Proof. fields. Qed.

Lemma D_word_in o a b :
  0 <= o < 2 ^ 16 -> 0 <= a < 2 ^ 11 -> 0 <= b < 2 ^ 11 ->
  Z.shiftr (Z.land (Z.lor (Z.lor o (Z.shiftl a 16)) (Z.shiftl b 32)) 0x0000ffff00000000) 32 = b.
Proof. fields. Qed.

Lemma T_word_opcode o a b c :
  0 <= o < 2 ^ 16 -> 0 <= a < 2 ^ 11 -> 0 <= b < 2 ^ 11 -> 0 <= c < 2 ^ 11 ->
  Z.land (Z.lor (Z.lor (Z.lor o (Z.shiftl a 16)) (Z.shiftl b 32)) (Z.shiftl c 48)) 0xffff = o.
Proof. fields. Qed.

Lemma T_word_out o a b c :
  0 <= o < 2 ^ 16 -> 0 <= a < 2 ^ 11 -> 0 <= b < 2 ^ 11 -> 0 <= c < 2 ^ 11 ->
  Z.shiftr (Z.land (Z.lor (Z.lor (Z.lor o (Z.shiftl a 16)) (Z.shiftl b 32)) (Z.shiftl c 48)) 0xffff0000) 16 = a.
Proof. fields. Qed.

Lemma T_word_lhs o a b c :
  0 <= o < 2 ^ 16 -> 0 <= a < 2 ^ 11 -> 0 <= b < 2 ^ 11 -> 0 <= c < 2 ^ 11 ->
  Z.shiftr (Z.land (Z.lor (Z.lor (Z.lor o (Z.shiftl a 16)) (Z.shiftl b 32)) (Z.shiftl c 48)) 0x0000ffff00000000) 32 = b.
Proof. fields. Qed.

Lemma T_word_rhs o a b c :
  0 <= o < 2 ^ 16 -> 0 <= a < 2 ^ 11 -> 0 <= b < 2 ^ 11 -> 0 <= c < 2 ^ 11 ->
  Z.shiftr (Z.land (Z.lor (Z.lor (Z.lor o (Z.shiftl a 16)) (Z.shiftl b 32)) (Z.shiftl c 48)) 0xffff000000000000) 48 = c.
Proof. fields. Qed.

Lemma F_word_opcode o a imm :
  0 <= o < 2 ^ 16 -> 0 <= a < 2 ^ 11 -> 0 <= imm < 2 ^ 32 ->
  Z.land (Z.lor (Z.lor o (Z.shiftl a 16)) (Z.shiftl imm 32)) 0xffff = o.
Proof. fields. Qed.

Lemma F_word_out o a imm :
  0 <= o < 2 ^ 16 -> 0 <= a < 2 ^ 11 -> 0 <= imm < 2 ^ 32 ->
  Z.shiftr (Z.land (Z.lor (Z.lor o (Z.shiftl a 16)) (Z.shiftl imm 32)) 0xffff0000) 16 = a.
Proof. fields. Qed.

Lemma F_word_immediate o a imm :
  0 <= o < 2 ^ 16 -> 0 <= a < 2 ^ 11 -> 0 <= imm < 2 ^ 32 ->
  Z.shiftr (Z.land (Z.lor (Z.lor o (Z.shiftl a 16)) (Z.shiftl imm 32)) 0xffffffff00000000) 32 = imm.
Proof. fields. Qed.

Lemma E_word_opcode o a imm :
  0 <= o < 2 ^ 16 -> 0 <= a < 2 ^ 11 -> 0 <= imm < 2 ^ 36 ->
  Z.land (Z.lor (Z.lor o (Z.shiftl a 16)) (Z.shiftl imm 28)) 0xffff = o.
Proof. fields. Qed.

Lemma E_word_out o a imm :
  0 <= o < 2 ^ 16 -> 0 <= a < 2 ^ 11 -> 0 <= imm < 2 ^ 36 ->
  Z.shiftr (Z.land (Z.lor (Z.lor o (Z.shiftl a 16)) (Z.shiftl imm 28)) 0x0fff0000) 16 = a.
Proof. fields. Qed.

Lemma E_word_immediate o a imm :
  0 <= o < 2 ^ 16 -> 0 <= a < 2 ^ 11 -> 0 <= imm < 2 ^ 36 ->
  Z.shiftr (Z.land (Z.lor (Z.lor o (Z.shiftl a 16)) (Z.shiftl imm 28)) 0xfffffffff0000000) 28 = imm.
Proof. fields. Qed.

Lemma R_word_opcode o a b imm :
  0 <= o < 2 ^ 16 -> 0 <= a < 2 ^ 11 -> 0 <= b < 2 ^ 11 -> 0 <= imm < 2 ^ 24 ->
  Z.land (Z.lor (Z.lor (Z.lor (Z.lor (Z.lor o (Z.shiftl a 16)) (Z.shiftl b 32))
                      (Z.shiftl (Z.land imm 0x00ffff) 48))
               (Z.shiftl (Z.land imm 0x0f0000) 28))
        (Z.shiftl (Z.land imm 0xf00000) 8)) 0xffff = o.
Proof. fields. Qed.

Lemma R_word_out o a b imm :
  0 <= o < 2 ^ 16 -> 0 <= a < 2 ^ 11 -> 0 <= b < 2 ^ 11 -> 0 <= imm < 2 ^ 24 ->
  Z.shiftr (Z.land (Z.lor (Z.lor (Z.lor (Z.lor (Z.lor o (Z.shiftl a 16)) (Z.shiftl b 32))
                      (Z.shiftl (Z.land imm 0x00ffff) 48))
               (Z.shiftl (Z.land imm 0x0f0000) 28))
        (Z.shiftl (Z.land imm 0xf00000) 8)) 0x0fff0000) 16 = a.
Proof. fields. Qed.

Lemma R_word_in o a b imm :
  0 <= o < 2 ^ 16 -> 0 <= a < 2 ^ 11 -> 0 <= b < 2 ^ 11 -> 0 <= imm < 2 ^ 24 ->
  Z.shiftr (Z.land (Z.lor (Z.lor (Z.lor (Z.lor (Z.lor o (Z.shiftl a 16)) (Z.shiftl b 32))
                      (Z.shiftl (Z.land imm 0x00ffff) 48))
               (Z.shiftl (Z.land imm 0x0f0000) 28))
        (Z.shiftl (Z.land imm 0xf00000) 8)) 0x00000fff00000000) 32 = b.
Proof. fields. Qed.

Lemma R_word_immediate o a b imm :
  0 <= o < 2 ^ 16 -> 0 <= a < 2 ^ 11 -> 0 <= b < 2 ^ 11 -> 0 <= imm < 2 ^ 24 ->
  Z.lor (Z.lor (Z.shiftr (Z.land (Z.lor (Z.lor (Z.lor (Z.lor (Z.lor o (Z.shiftl a 16)) (Z.shiftl b 32))
                      (Z.shiftl (Z.land imm 0x00ffff) 48))
               (Z.shiftl (Z.land imm 0x0f0000) 28))
        (Z.shiftl (Z.land imm 0xf00000) 8)) 0xffff000000000000) 48)
               (Z.shiftr (Z.land (Z.lor (Z.lor (Z.lor (Z.lor (Z.lor o (Z.shiftl a 16)) (Z.shiftl b 32))
                      (Z.shiftl (Z.land imm 0x00ffff) 48))
               (Z.shiftl (Z.land imm 0x0f0000) 28))
        (Z.shiftl (Z.land imm 0xf00000) 8)) 0x0000f00000000000) 28))
        (Z.shiftr (Z.land (Z.lor (Z.lor (Z.lor (Z.lor (Z.lor o (Z.shiftl a 16)) (Z.shiftl b 32))
                      (Z.shiftl (Z.land imm 0x00ffff) 48))
               (Z.shiftl (Z.land imm 0x0f0000) 28))
        (Z.shiftl (Z.land imm 0xf00000) 8)) 0x00000000f0000000) 8) = imm.
Proof. fields. Qed.

(** ** Register accesses *)

Lemma access_index i b c :
  0 <= i < 2 ^ 8 -> 0 <= b < 2 ^ 1 -> 0 <= c < 2 ^ 2 ->
  Z.land (Z.lor (Z.lor i (Z.shiftl b 8)) (Z.shiftl c 9)) 0xff = i.
Proof. fields. Qed.

Lemma access_set i b c :
  0 <= i < 2 ^ 8 -> 0 <= b < 2 ^ 1 -> 0 <= c < 2 ^ 2 ->
  Z.shiftr (Z.land (Z.lor (Z.lor i (Z.shiftl b 8)) (Z.shiftl c 9)) 0x0600) 9 = c.
Proof. fields. Qed.

Lemma access_direct i (b : bool) c :
  0 <= i < 2 ^ 8 -> 0 <= c < 2 ^ 2 ->
  Z.testbit (Z.lor (Z.lor i (Z.shiftl (Z.b2z b) 8)) (Z.shiftl c 9)) 8 = b.
Proof.
  intros. rewrite !Z.lor_spec, !Z.shiftl_spec by lia.
  rewrite (testbit_above (p := 8)) by lia.
  rewrite (Z.testbit_neg_r c) by lia.
  change (8 - 8) with 0. rewrite Z.b2z_bit0. destruct b; reflexivity.
Qed.

Lemma access_small i b c :
  0 <= i < 2 ^ 8 -> 0 <= b < 2 ^ 1 -> 0 <= c < 2 ^ 2 ->
  0 <= Z.lor (Z.lor i (Z.shiftl b 8)) (Z.shiftl c 9) < 2 ^ 11.
Proof.
  intros.
  assert (E : Z.land (Z.lor (Z.lor i (Z.shiftl b 8)) (Z.shiftl c 9)) (Z.ones 11)
              = Z.lor (Z.lor i (Z.shiftl b 8)) (Z.shiftl c 9))
    by prove_Zeq_bitwise.
  rewrite Z.land_ones in E by lia. rewrite <- E.
  apply Z.mod_pos_bound. lia.
Qed.

Lemma REGISTER_SET_code_range s : 0 <= Arch.REGISTER_SET_code s < 2 ^ 2.
Proof. destruct s; simpl; lia. Qed.

Lemma REGISTER_SET_of_code s :
  Arch.REGISTER_SET_of (Arch.REGISTER_SET_code s) = s.
Proof. destruct s; reflexivity. Qed.

Lemma b2z_range (b : bool) : 0 <= Z.b2z b < 2 ^ 1.
Proof. destruct b; simpl; lia. Qed.

Lemma Register_access_encode_range r :
  Arch.Register_access.wf r -> 0 <= Arch.Register_access.encode r < 2 ^ 11.
Proof.
  intros H. apply access_small;
    auto using REGISTER_SET_code_range, b2z_range.
Qed.

Lemma Register_access_round_trip r :
  Arch.Register_access.wf r ->
  Arch.Register_access.decode (Arch.Register_access.encode r) = r.
Proof.
  intros H. destruct r as [s d i]. unfold Arch.Register_access.wf in H.
  cbn [Arch.Register_access.index] in H.
  unfold Arch.Register_access.decode, Arch.Register_access.encode.
  cbn [Arch.Register_access.index Arch.Register_access.set
       Arch.Register_access.direct].
  rewrite access_set, access_direct, access_index
    by auto using REGISTER_SET_code_range, b2z_range.
  now rewrite REGISTER_SET_of_code.
Qed.

(** ** The codec *)

Lemma greedy_bit_of_opcode raw o :
  Z.land raw 0xffff = o -> Z.land raw Arch.ops.GREEDY = Z.land o Arch.ops.GREEDY.
Proof.
  intros <-. rewrite <- Z.land_assoc. reflexivity.
Qed.

Ltac codec_fields :=
  unfold Arch.ops.decode_opcode, Arch.ops.decode_out, Arch.ops.decode_second,
    Arch.ops.decode_third;
  repeat match goal with
         | H : Arch.Register_access.wf ?r |- _ =>
             pose proof (Register_access_encode_range r H);
             pose proof (Register_access_round_trip r H);
             clear H
         end.

Lemma N_round_trip i :
  0 <= Arch.ops.N.opcode i < 2 ^ 16 ->
  Arch.ops.N.decode (Arch.ops.N.encode i) = i.
Proof.
  destruct i as [o]. cbn. intros H.
  unfold Arch.ops.N.decode, Arch.ops.N.encode, Arch.ops.decode_opcode. cbn.
  f_equal. change 0xffff with (Z.ones 16). rewrite Z.land_ones by lia.
  apply Z.mod_small. lia.
Qed.

Lemma S_round_trip i :
  0 <= Arch.ops.S.opcode i < 2 ^ 16 -> Arch.Register_access.wf (Arch.ops.S.out i) ->
  Arch.ops.S.decode (Arch.ops.S.encode i) = i.
Proof.
  destruct i as [o out]. cbn. intros Ho Hout.
  unfold Arch.ops.S.decode, Arch.ops.S.encode. cbn. codec_fields.
  rewrite S_word_opcode, S_word_out by assumption. congruence.
Qed.

Lemma D_round_trip i :
  0 <= Arch.ops.D.opcode i < 2 ^ 16 ->
  Arch.Register_access.wf (Arch.ops.D.out i) ->
  Arch.Register_access.wf (Arch.ops.D.in_ i) ->
  Arch.ops.D.decode (Arch.ops.D.encode i) = i.
Proof.
  destruct i as [o out in_]. cbn. intros Ho Hout Hin.
  unfold Arch.ops.D.decode, Arch.ops.D.encode. cbn. codec_fields.
  rewrite D_word_opcode, D_word_out, D_word_in by assumption. congruence.
Qed.

Lemma T_round_trip i :
  0 <= Arch.ops.T.opcode i < 2 ^ 16 ->
  Arch.Register_access.wf (Arch.ops.T.out i) ->
  Arch.Register_access.wf (Arch.ops.T.lhs i) ->
  Arch.Register_access.wf (Arch.ops.T.rhs i) ->
  Arch.ops.T.decode (Arch.ops.T.encode i) = i.
Proof.
  destruct i as [o out lhs rhs]. cbn. intros Ho Hout Hlhs Hrhs.
  unfold Arch.ops.T.decode, Arch.ops.T.encode. cbn. codec_fields.
  rewrite T_word_opcode, T_word_out, T_word_lhs, T_word_rhs by assumption.
  congruence.
Qed.

Lemma F_round_trip i :
  0 <= Arch.ops.F.opcode i < 2 ^ 16 ->
  Arch.Register_access.wf (Arch.ops.F.out i) ->
  0 <= Arch.ops.F.immediate i < 2 ^ 32 ->
  Arch.ops.F.decode (Arch.ops.F.encode i) = i.
Proof.
  destruct i as [o out imm]. cbn. intros Ho Hout Himm.
  unfold Arch.ops.F.decode, Arch.ops.F.encode. cbn. codec_fields.
  rewrite F_word_opcode, F_word_out, F_word_immediate by assumption.
  congruence.
Qed.

Lemma E_round_trip i :
  0 <= Arch.ops.E.opcode i < 2 ^ 16 ->
  Arch.Register_access.wf (Arch.ops.E.out i) ->
  0 <= Arch.ops.E.immediate i < 2 ^ 36 ->
  Arch.ops.E.decode (Arch.ops.E.encode i) = i.
Proof.
  destruct i as [o out imm]. cbn. intros Ho Hout Himm.
  unfold Arch.ops.E.decode, Arch.ops.E.encode. cbn. codec_fields.
  rewrite E_word_opcode, E_word_out, E_word_immediate by assumption.
  congruence.
Qed.

Lemma R_round_trip i :
  0 <= Arch.ops.R.opcode i < 2 ^ 16 ->
  Arch.Register_access.wf (Arch.ops.R.out i) ->
  Arch.Register_access.wf (Arch.ops.R.in_ i) ->
  0 <= Arch.ops.R.immediate i < 2 ^ 24 ->
  Arch.ops.R.decode (Arch.ops.R.encode i) = i.
Proof.
  destruct i as [o out in_ imm]. cbn. intros Ho Hout Hin Himm.
  unfold Arch.ops.R.decode, Arch.ops.R.encode. cbn. codec_fields.
  rewrite R_word_opcode, R_word_out, R_word_in, R_word_immediate by assumption.
  congruence.
Qed.

Lemma opcode_of_decode f raw :
  Codec.opcode_of (Codec.decode f raw) = Z.land raw 0xffff.
Proof. destruct f; reflexivity. Qed.

(** C3. For each of the formats N, S, D, T, E, R and F, decoding the word
    that encodes a well-formed operand tuple (a 16-bit opcode, greedy overlay
    included, 8-bit register indexes, an immediate within the width of the
    format) gives the tuple back; and the greedy bit of the word is the
    greedy bit of the opcode that was encoded. *)
Theorem codec_round_trip (x : Codec.instruction) :
  Codec.wf x ->
  Codec.decode (Codec.format_of x) (Codec.encode x) = x
  /\ Z.land (Codec.encode x) Arch.ops.GREEDY
     = Z.land (Codec.opcode_of x) Arch.ops.GREEDY.
Proof.
  intros [Ho Hx].
  assert (E : Codec.decode (Codec.format_of x) (Codec.encode x) = x).
  { destruct x; cbn in *; f_equal.
    - now apply N_round_trip.
    - now apply S_round_trip.
    - now apply D_round_trip.
    - now apply T_round_trip.
    - now apply F_round_trip.
    - now apply E_round_trip.
    - now apply R_round_trip. }
  split; [exact E|].
  apply greedy_bit_of_opcode.
  rewrite <- (opcode_of_decode (Codec.format_of x)). now rewrite E.
Qed.

Lemma sample_T_wf : Codec.wf sample_T.
Proof.
  unfold Codec.wf, sample_T, Arch.Register_access.wf; cbn. lia.
Defined.

Lemma codec_round_trip_witness :
  Codec.wf sample_T
  /\ Codec.decode (Codec.format_of sample_T) (Codec.encode sample_T) = sample_T
  /\ Z.land (Codec.encode sample_T) Arch.ops.GREEDY
     = Z.land (Codec.opcode_of sample_T) Arch.ops.GREEDY.
Proof.
  split; [exact sample_T_wf | apply (codec_round_trip sample_T), sample_T_wf].
Defined.

(** ** The decomposition of a 64-bit value *)

Lemma low_part_mod v :
  0 <= v ->
  uint32_t (Z.land v (Asm.not64 Asm.HIGH_36)) = v mod 2 ^ 28.
Proof.
  intros Hv. change (Asm.not64 Asm.HIGH_36) with (Z.ones 28).
  rewrite Z.land_ones by lia. unfold uint32_t.
  apply Z.mod_small.
  pose proof (Z.mod_pos_bound v (2 ^ 28)). lia.
Qed.

Lemma high_low_recombine v :
  0 <= v < 2 ^ 64 ->
  Z.lor (Z.shiftl (Z.shiftr (Z.land v Asm.HIGH_36) 28) 28) (v mod 2 ^ 28) = v.
Proof.
  intros Hv. rewrite <- Z.land_ones by lia.
  change Asm.HIGH_36 with (Z.shiftl (Z.ones 36) 28).
  prove_Zeq_bitwise.
Qed.

Lemma base_remainder low :
  0 <= low < 2 ^ 28 ->
  uint32_t (low - low mod 16) / 16 * 16 + low mod 16 = low.
Proof.
  intros H. unfold uint32_t.
  assert (0 <= low / 16) by (apply Z.div_pos; lia).
  pose proof (Z.mod_pos_bound low 16 ltac:(lia)).
  pose proof (Z.div_mod low 16 ltac:(lia)).
  rewrite (Z.mod_small (low - low mod 16)) by lia.
  replace (low - low mod 16) with (low / 16 * 16) by lia.
  rewrite Z.div_mul by lia. lia.
Qed.

(** C2. For every 64-bit value [v], the parts
    [(high_part, ((base, multiplier), remainder))] that
    [to_loading_parts_unsigned] computes give [v] back:
    [(high_part << 28) | (base * multiplier + remainder)] when the multiplier
    is not zero, and [(high_part << 28) | base] when it is. *)
Theorem to_loading_parts_unsigned_recombines (v : Z) :
  0 <= v < 2 ^ 64 ->
  let parts := Asm.to_loading_parts_unsigned v in
  let high_part := parts.1 in
  let base := parts.2.1.1 in
  let multiplier := parts.2.1.2 in
  let remainder := parts.2.2 in
  (multiplier <> 0 ->
   Z.lor (Z.shiftl high_part 28) (base * multiplier + remainder) = v)
  /\ (multiplier = 0 -> Z.lor (Z.shiftl high_part 28) base = v).
Proof.
  intros Hv. unfold Asm.to_loading_parts_unsigned.
  rewrite low_part_mod by lia.
  pose proof (Z.mod_pos_bound v (2 ^ 28)) as Hlow.
  destruct (Z.land (v mod 2 ^ 28) Asm.LOW_24 =? v mod 2 ^ 28) eqn:E; cbn.
  - split; [congruence|]. intros _. now apply high_low_recombine.
  - split; [|discriminate]. intros _.
    rewrite base_remainder by lia. now apply high_low_recombine.
Qed.

Lemma to_loading_parts_unsigned_recombines_witness :
  0 <= 0xdeadbeefdeadbeef < 2 ^ 64
  /\ let parts := Asm.to_loading_parts_unsigned 0xdeadbeefdeadbeef in
     (parts.2.1.2 <> 0 ->
      Z.lor (Z.shiftl parts.1 28) (parts.2.1.1 * parts.2.1.2 + parts.2.2)
      = 0xdeadbeefdeadbeef)
     /\ (parts.2.1.2 = 0 ->
         Z.lor (Z.shiftl parts.1 28) parts.2.1.1 = 0xdeadbeefdeadbeef).
Proof.
  split; [lia|].
  apply (to_loading_parts_unsigned_recombines 0xdeadbeefdeadbeef). lia.
Defined.

(** ** Reasoning about calls *)

Lemma bind_Ok {S A B} (c : M S A) (k : A -> M S B) s s' a :
  c s = (s', Ok a) -> bind c k s = k a s'.
Proof. unfold bind. now intros ->. Qed.

Lemma bind_Throw {S A B} (c : M S A) (k : A -> M S B) s s' e :
  c s = (s', Throw e) -> bind c k s = (s', Throw e).
Proof. unfold bind. now intros ->. Qed.

Lemma bind_Undefined {S A B} (c : M S A) (k : A -> M S B) s s' :
  c s = (s', Undefined) -> bind c k s = (s', Undefined).
Proof. unfold bind. now intros ->. Qed.

Lemma at_in_range i s :
  (Z.to_nat i < length (Vm.registers s))%nat ->
  Vm.at_ i s = (s, Ok (Z.to_nat i)).
Proof.
  intros H. unfold Vm.at_.
  destruct (Nat.ltb_spec (Z.to_nat i) (length (Vm.registers s))); [done|lia].
Qed.

Lemma at_out_of_range i s :
  (length (Vm.registers s) <= Z.to_nat i)%nat ->
  Vm.at_ i s = (s, Throw out_of_range).
Proof.
  intros H. unfold Vm.at_.
  destruct (Nat.ltb_spec (Z.to_nat i) (length (Vm.registers s))); [lia|done].
Qed.

Lemma read_slot ref s v :
  Vm.registers s !! ref = Some v -> Vm.read ref s = (s, Ok v).
Proof. unfold Vm.read. now intros ->. Qed.

(** Writing the tag and then the payload of a slot is one assignment. *)
Lemma write_both (l : list Vm.Value) ref t x :
  (ref < length l)%nat ->
  alter (fun v => Vm.mkValue (Vm.type_of_unboxed v) x) ref
        (alter (fun v => Vm.mkValue t (Vm.value v)) ref l)
  = <[ref := Vm.mkValue t x]> l.
Proof.
  intros H. apply list_eq. intros j.
  destruct (decide (j = ref)) as [->|Hne].
  - rewrite list_lookup_insert_eq by done.
    rewrite !list_lookup_alter_eq.
    destruct (lookup_lt_is_Some_2 l ref H) as [v ->]. reflexivity.
  - rewrite list_lookup_insert_ne by done.
    now rewrite !list_lookup_alter_ne by done.
Qed.

(** ** ADDI and ADDIU *)

Lemma execute_ADDI_as_spec tag (op : Arch.ops.R.t) (s : Vm.machine) (base : Z) :
  (Z.to_nat (Arch.Register_access.index (Arch.ops.R.out op))
   < length (Vm.registers s))%nat ->
  (if Arch.Register_access.is_void (Arch.ops.R.in_ op) then base = 0
   else exists t,
     Vm.registers s !! Z.to_nat (Arch.Register_access.index (Arch.ops.R.in_ op))
     = Some (Vm.mkValue t (Vm.holds_uint64 base))) ->
  Vm.execute_ADDI_as tag op s
  = (Vm.mkMachine
       (<[Z.to_nat (Arch.Register_access.index (Arch.ops.R.out op)) :=
            Vm.mkValue tag
              (Vm.holds_uint64 (uint64_t (base + Arch.ops.R.immediate op)))]>
          (Vm.registers s))
       (Vm.cerr s
        ++ [Vm.Line_R (Arch.ops.R.opcode op)
              (Arch.Register_access.index (Arch.ops.R.out op))
              (Arch.ops.R.immediate op)]),
     Ok tt).
Proof.
  intros Hout Hin. unfold Vm.execute_ADDI_as.
  rewrite (bind_Ok _ _ _ _ _ (at_in_range _ _ Hout)).
  assert (Hbase :
    (if Arch.Register_access.is_void (Arch.ops.R.in_ op)
     then ret 0
     else
       let* in_ := Vm.at_ (Arch.Register_access.index (Arch.ops.R.in_ op)) in
       let* v := Vm.read in_ in Vm.get_uint64 (Vm.value v)) s
    = (s, Ok base)).
  { destruct (Arch.Register_access.is_void (Arch.ops.R.in_ op)).
    - now subst base.
    - destruct Hin as [t Hin].
      rewrite (bind_Ok _ _ _ _ _
                 (at_in_range _ _ (lookup_lt_Some _ _ _ Hin))).
      now rewrite (bind_Ok _ _ _ _ _ (read_slot _ _ _ Hin)). }
  rewrite (bind_Ok _ _ _ _ _ Hbase).
  unfold bind, Vm.write_type, Vm.write_value, Vm.print, modify. cbn.
  now rewrite write_both.
Qed.

(** C6. An ADDI or ADDIU instruction writes, into the register that [out]
    names, the sum (in [uint64_t]) of its immediate and of zero when the
    access [in] is void, of the 64-bit payload of the register that [in]
    names otherwise; the tag written is Signed for ADDI and Unsigned for
    ADDIU; no other register changes. *)
Theorem execute_ADDI_ADDIU_spec (op : Arch.ops.R.t) (s : Vm.machine) (base : Z) :
  (Z.to_nat (Arch.Register_access.index (Arch.ops.R.out op))
   < length (Vm.registers s))%nat ->
  (if Arch.Register_access.is_void (Arch.ops.R.in_ op) then base = 0
   else exists t,
     Vm.registers s !! Z.to_nat (Arch.Register_access.index (Arch.ops.R.in_ op))
     = Some (Vm.mkValue t (Vm.holds_uint64 base))) ->
  let out := Z.to_nat (Arch.Register_access.index (Arch.ops.R.out op)) in
  let sum := Vm.holds_uint64 (uint64_t (base + Arch.ops.R.immediate op)) in
  exists si su,
    Vm.execute_ADDI op s = (si, Ok tt)
    /\ Vm.execute_ADDIU op s = (su, Ok tt)
    /\ Vm.registers si !! out = Some (Vm.mkValue Vm.Integer_signed sum)
    /\ Vm.registers su !! out = Some (Vm.mkValue Vm.Integer_unsigned sum)
    /\ forall j : nat, j <> out ->
         Vm.registers si !! j = Vm.registers s !! j
         /\ Vm.registers su !! j = Vm.registers s !! j.
Proof.
  intros Hout Hin out sum.
  eexists _, _. unfold Vm.execute_ADDI, Vm.execute_ADDIU.
  rewrite !(execute_ADDI_as_spec _ op s base Hout Hin). cbn.
  repeat split; try (now apply list_lookup_insert_eq);
    now apply list_lookup_insert_ne.
Qed.

Lemma execute_ADDI_ADDIU_spec_witness :
  let op := Arch.ops.R.mk Arch.ops.ADDIU (Arch.Register_access.make_local 1)
              (Arch.Register_access.make_local 2) 5 in
  let s := Vm.mkMachine
             (<[2%nat := Vm.mkValue Vm.Byte (Vm.holds_uint64 37)]>
                (Vm.registers Vm.clean)) [] in
  exists si su,
    Vm.execute_ADDI op s = (si, Ok tt)
    /\ Vm.execute_ADDIU op s = (su, Ok tt)
    /\ Vm.registers si !! 1%nat
       = Some (Vm.mkValue Vm.Integer_signed (Vm.holds_uint64 (uint64_t (37 + 5))))
    /\ Vm.registers su !! 1%nat
       = Some (Vm.mkValue Vm.Integer_unsigned (Vm.holds_uint64 (uint64_t (37 + 5))))
    /\ forall j : nat, j <> 1%nat ->
         Vm.registers si !! j = Vm.registers s !! j
         /\ Vm.registers su !! j = Vm.registers s !! j.
Proof.
  intros op s.
  apply (execute_ADDI_ADDIU_spec op s 37).
  - vm_compute. lia.
  - cbn. exists Vm.Byte. reflexivity.
Defined.

(** ** EBREAK *)

Lemma dump_slot_prints i each s :
  exists out,
    Vm.dump_slot i each s
    = (Vm.mkMachine (Vm.registers s) (Vm.cerr s ++ out), Ok tt).
Proof.
  unfold Vm.dump_slot, Vm.is_boxed.
  destruct each as [t [v|p]]; [destruct t|];
    cbv [bind Vm.print modify Vm.get_uint64 ret Vm.value Vm.type_of_unboxed];
    cbn [Vm.registers Vm.cerr];
    rewrite <- ?app_assoc; eexists; reflexivity.
Qed.

Lemma dump_loop_prints (indexes : list nat) s :
  Forall (fun i => (i < length (Vm.registers s))%nat) indexes ->
  exists out,
    foldr (fun i rest =>
             (let* ref := Vm.at_ (Z.of_nat i) in
              let* each := Vm.read ref in
              if Vm.is_void each then ret tt else Vm.dump_slot i each) ;;; rest)
          (ret tt) indexes s
    = (Vm.mkMachine (Vm.registers s) (Vm.cerr s ++ out), Ok tt).
Proof.
  revert s. induction indexes as [|i indexes IH]; intros s Hall.
  - exists []. destruct s. cbn. now rewrite app_nil_r.
  - inversion Hall as [|? ? Hi Hrest]; subst.
    destruct (lookup_lt_is_Some_2 _ _ Hi) as [each Heach].
    assert (Hbody : exists out,
      (let* ref := Vm.at_ (Z.of_nat i) in
       let* each := Vm.read ref in
       if Vm.is_void each then ret tt else Vm.dump_slot i each) s
      = (Vm.mkMachine (Vm.registers s) (Vm.cerr s ++ out), Ok tt)).
    { rewrite (bind_Ok _ _ s s i) by (rewrite at_in_range; f_equal; [f_equal|]; lia).
      rewrite (bind_Ok _ _ _ _ _ (read_slot _ _ _ Heach)).
      destruct (Vm.is_void each).
      - exists []. destruct s. cbn. now rewrite app_nil_r.
      - apply dump_slot_prints. }
    destruct Hbody as [out1 Hbody].
    cbn [foldr]. rewrite (bind_Ok _ _ _ _ _ Hbody).
    destruct (IH (Vm.mkMachine (Vm.registers s) (Vm.cerr s ++ out1)) Hrest)
      as [out2 ->].
    exists (out1 ++ out2). cbn. now rewrite app_assoc.
Qed.

(** C10. EBREAK leaves the register file as it was: it returns normally,
    every slot keeps its tag and its payload, and all it does is add lines
    to the trace. *)
Theorem execute_EBREAK_keeps_registers (op : Arch.ops.N.t) (s : Vm.machine) :
  exists out,
    Vm.execute_EBREAK op s
    = (Vm.mkMachine (Vm.registers s) (Vm.cerr s ++ out), Ok tt).
Proof.
  unfold Vm.execute_EBREAK, for_range, gets. unfold bind at 1.
  apply dump_loop_prints.
  apply Forall_forall. intros i Hi. apply list_elem_of_In, in_seq in Hi. lia.
Qed.

(** ** DIV *)

(** ** The loop at a word for which the dispatcher returns [nullptr] *)

Lemma printed_printed (s : Vm.machine) (l k : list Vm.line) :
  Stop.printed (Stop.printed s l) k = Stop.printed s (l ++ k).
Proof. unfold Stop.printed. cbn. now rewrite app_assoc. Qed.

Lemma run_instruction_from_stop raw line gs post :
  (forall ip s, Vm.execute_raw raw ip s = (Stop.printed s [line], Ok None)) ->
  Forall (fun w => Arch.ops.is_greedy w = true) gs ->
  forall ip s s1 p,
  Trace.execute_all gs ip s = (s1, Ok (Some p)) ->
  Vm.run_instruction_from (gs ++ raw :: post) ip s
  = (Stop.printed s1 [line], Ok None).
Proof.
  intros Hraw Hgs. induction Hgs as [|w gs Hw _ IH]; intros ip s s1 p Hall.
  - injection Hall as <- _. cbn [app Vm.run_instruction_from].
    now rewrite (bind_Ok _ _ _ _ _ (Hraw ip s)).
  - cbn [app Vm.run_instruction_from]. cbn [Trace.execute_all] in Hall.
    unfold bind in Hall |- *.
    destruct (Vm.execute_raw w ip s) as [s' [[ip'|]|e|]]; try discriminate.
    rewrite Hw. now apply (IH ip' s' s1 p).
Qed.

Lemma lookup_bundle_head {A} (pre gs post : list A) (raw : A) :
  (pre ++ gs ++ raw :: post) !! length pre = Some (hd raw gs).
Proof.
  rewrite lookup_app_r by lia. rewrite Nat.sub_diag. now destruct gs.
Qed.

Lemma run_cycle_stop raw line pre gs post s s1 p i left :
  (forall ip s, Vm.execute_raw raw ip s = (Stop.printed s [line], Ok None)) ->
  Forall (fun w => Arch.ops.is_greedy w = true) gs ->
  (i < Vm.PREEMPTION_THRESHOLD)%nat ->
  Trace.execute_all gs (length pre)
    (Stop.printed s
       [if Arch.ops.is_greedy (hd raw gs)
        then Vm.Line_bundle i else Vm.Line_single i])
  = (s1, Ok (Some p)) ->
  Vm.run_cycle (S left) (pre ++ gs ++ raw :: post)
    (length (pre ++ gs ++ raw :: post)) i (length pre) s
  = (Stop.printed s1 [line], Ok (length (pre ++ gs ++ raw :: post))).
Proof.
  intros Hraw Hgs Hi Hall.
  set (text := pre ++ gs ++ raw :: post).
  assert (Hlt : (length pre < length text)%nat).
  { subst text. rewrite !length_app. cbn. lia. }
  cbn [Vm.run_cycle].
  replace ((i <? Vm.PREEMPTION_THRESHOLD)%nat
           && negb (length pre =? length text)%nat) with true.
  2: { symmetry. apply andb_true_iff. split.
       - now apply Nat.ltb_lt.
       - apply negb_true_iff, Nat.eqb_neq. lia. }
  assert (Hfetch : Vm.fetch text (length pre) s = (s, Ok (hd raw gs))).
  { unfold Vm.fetch. subst text. now rewrite lookup_bundle_head. }
  rewrite (bind_Ok _ _ _ _ _ Hfetch).
  rewrite (bind_Ok _ _ s _ tt) by reflexivity.
  assert (Hrun : Vm.run_instruction text (length pre)
                   (Stop.printed s
                      [if Arch.ops.is_greedy (hd raw gs)
                       then Vm.Line_bundle i else Vm.Line_single i])
                 = (Stop.printed s1 [line], Ok None)).
  { unfold Vm.run_instruction. subst text. rewrite drop_app_length.
    now apply (run_instruction_from_stop raw line gs post Hraw Hgs _ _ s1 p). }
  unfold Stop.printed at 1 in Hrun. unfold Vm.print, modify.
  rewrite (bind_Ok _ _ _ _ _ Hrun).
  rewrite Nat.eqb_refl, andb_false_r.
  destruct left as [|left]; [reflexivity|].
  cbn [Vm.run_cycle]. now rewrite Nat.eqb_refl, andb_false_r.
Qed.

Lemma run_stop raw line pre gs post s s1 p :
  (forall ip s, Vm.execute_raw raw ip s = (Stop.printed s [line], Ok None)) ->
  Forall (fun w => Arch.ops.is_greedy w = true) gs ->
  Trace.execute_all gs (length pre)
    (Stop.printed s
       [Vm.Line_cycle (Z.of_nat (length pre) * sizeof_instruction_type);
        if Arch.ops.is_greedy (hd raw gs)
        then Vm.Line_bundle 0 else Vm.Line_single 0])
  = (s1, Ok (Some p)) ->
  Vm.run (pre ++ gs ++ raw :: post) (length pre) s
  = (Stop.printed s1 [line; Vm.Line_halted], Ok true).
Proof.
  intros Hraw Hgs Hall.
  set (text := pre ++ gs ++ raw :: post).
  assert (Hlt : (length pre < length text)%nat).
  { subst text. rewrite !length_app. cbn. lia. }
  unfold Vm.run.
  assert (Hfuel : exists n, length text = S n)
    by (exists (pred (length text)); lia).
  destruct Hfuel as [n Hn]. rewrite Hn at 1. cbn [Vm.run_loop].
  replace (length pre =? length text)%nat with false
    by (symmetry; apply Nat.eqb_neq; lia).
  rewrite (bind_Ok _ _ s
             (Stop.printed s
                [Vm.Line_cycle (Z.of_nat (length pre) * sizeof_instruction_type)])
             tt) by reflexivity.
  assert (Hcycle :
    Vm.run_cycle Vm.PREEMPTION_THRESHOLD text (length text) 0 (length pre)
      (Stop.printed s
         [Vm.Line_cycle (Z.of_nat (length pre) * sizeof_instruction_type)])
    = (Stop.printed s1 [line], Ok (length text))).
  { apply (run_cycle_stop raw line pre gs post _ s1 p 0 1 Hraw Hgs).
    - unfold Vm.PREEMPTION_THRESHOLD. lia.
    - now rewrite printed_printed. }
  rewrite (bind_Ok _ _ _ _ _ Hcycle), Nat.eqb_refl.
  rewrite (bind_Ok _ _ _ (Stop.printed (Stop.printed s1 [line]) [Vm.Line_halted])
             tt) by reflexivity.
  now rewrite printed_printed.
Qed.

Lemma nullptr_stops_loop raw line :
  (forall ip s, Vm.execute_raw raw ip s = (Stop.printed s [line], Ok None)) ->
  Stop.stops_loop raw line.
Proof.
  intros Hraw pre gs post s s1 p Hgs text ip mark. split.
  - intros i left Hi Hall. now apply (run_cycle_stop raw line pre gs post s s1 p).
  - intros Hall. now apply (run_stop raw line pre gs post s s1 p).
Qed.

Lemma execute_raw_DIV raw ip s :
  Z.land raw Arch.ops.OPCODE_MASK = Arch.ops.DIV ->
  Vm.execute_raw raw ip s
  = (Vm.mkMachine (Vm.registers s) (Vm.cerr s ++ [Vm.Line_unimplemented_T]),
     Ok None).
Proof. intros H. unfold Vm.execute_raw. rewrite H. reflexivity. Qed.

Lemma execute_raw_HALT raw ip s :
  Z.land raw Arch.ops.OPCODE_MASK = Arch.ops.HALT ->
  Vm.execute_raw raw ip s
  = (Vm.mkMachine (Vm.registers s) (Vm.cerr s ++ [Vm.Line_N Arch.ops.HALT]),
     Ok None).
Proof. intros H. unfold Vm.execute_raw. rewrite H. reflexivity. Qed.

(** C5, as the code has it. A DIV instruction is not dispatched, whatever
    its operand registers hold: the dispatcher reports an unimplemented
    T-format instruction, leaves the register file as it was and returns
    [nullptr]; and on that the dispatch loop stops, as it does on HALT:
    wherever the DIV is in the text, alone or after greedy words of its
    bundle, the pass of the [for] loop ends at the end of the text, [run]
    prints "halted" and returns, and no word after the DIV is executed. *)
Theorem DIV_is_not_dispatched (raw : Arch.instruction_type) :
  Z.land raw Arch.ops.OPCODE_MASK = Arch.ops.DIV ->
  (forall (ip : nat) (s : Vm.machine),
     Vm.execute_raw raw ip s
     = (Vm.mkMachine (Vm.registers s)
          (Vm.cerr s ++ [Vm.Line_unimplemented_T]),
        Ok None))
  /\ Stop.stops_loop raw Vm.Line_unimplemented_T
  /\ (forall halt,
        Z.land halt Arch.ops.OPCODE_MASK = Arch.ops.HALT ->
        Stop.stops_loop halt (Vm.Line_N Arch.ops.HALT)).
Proof.
  intros H. split; [|split].
  - intros ip s. now apply execute_raw_DIV.
  - apply nullptr_stops_loop. intros ip s. now apply execute_raw_DIV.
  - intros halt Hhalt. apply nullptr_stops_loop. intros ip s.
    now apply execute_raw_HALT.
Qed.

Lemma DIV_is_not_dispatched_witness :
  Z.land DIV_word Arch.ops.OPCODE_MASK = Arch.ops.DIV
  /\ Vm.execute_raw DIV_word 0 zero_divisor
     = (Vm.mkMachine (Vm.registers zero_divisor)
          (Vm.cerr zero_divisor ++ [Vm.Line_unimplemented_T]),
        Ok None)
  /\ Vm.run sample_after_DIV 0 zero_divisor
     = (Vm.mkMachine (Vm.registers zero_divisor)
          [Vm.Line_cycle 0; Vm.Line_single 0; Vm.Line_unimplemented_T;
           Vm.Line_halted],
        Ok true)
  /\ Vm.run sample_DIV_in_bundle 0 zero_divisor
     = (Vm.mkMachine (Vm.registers zero_divisor)
          [Vm.Line_cycle 0; Vm.Line_bundle 0;
           Vm.Line_S (Z.lor Arch.ops.GREEDY Arch.ops.DELETE) 4;
           Vm.Line_unimplemented_T; Vm.Line_halted],
        Ok true).
Proof.
  pose proof (DIV_is_not_dispatched DIV_word eq_refl) as (Hraw & Hstop & _).
  split; [reflexivity|]. split; [apply Hraw|]. split.
  - refine (proj2 (Hstop [] [] (drop 1 sample_after_DIV) zero_divisor _ 0%nat
                     ltac:(constructor)) eq_refl).
  - refine (proj2 (Hstop [] (take 1 sample_DIV_in_bundle)
                     (drop 2 sample_DIV_in_bundle) zero_divisor
                     (Vm.mkMachine (Vm.registers zero_divisor)
                        [Vm.Line_cycle 0; Vm.Line_bundle 0;
                         Vm.Line_S (Z.lor Arch.ops.GREEDY Arch.ops.DELETE) 4])
                     1%nat _) _).
    + repeat constructor.
    + vm_compute. reflexivity.
Defined.

(** C5, as stated, fails: with zero in the right-hand operand register, the
    DIV instruction ends the run the way HALT does, with the trace line
    "halted", no exception, and the registers untouched. *)
Lemma DIV_by_zero_completes_normally :
  Vm.registers zero_divisor !! 3%nat
  = Some (Vm.mkValue Vm.Integer_unsigned (Vm.holds_uint64 0))
  /\ Arch.ops.T.decode DIV_word
     = Arch.ops.T.mk Arch.ops.DIV (Arch.Register_access.make_local 1)
         (Arch.Register_access.make_local 2) (Arch.Register_access.make_local 3)
  /\ Vm.execute [DIV_word] 0 zero_divisor
     = (Vm.mkMachine (Vm.registers zero_divisor) [Vm.Line_unimplemented_T],
        Ok None)
  /\ Vm.run [DIV_word] 0 zero_divisor
     = (Vm.mkMachine (Vm.registers zero_divisor)
          [Vm.Line_cycle 0; Vm.Line_single 0; Vm.Line_unimplemented_T;
           Vm.Line_halted],
        Ok true).
Proof. repeat split; vm_compute; reflexivity. Qed.

(** ** [li], executed *)

(** C1 at two inputs. When the high part is not zero and the low 28 bits fit
    in 24, the closing ADDIU takes its input from void and overwrites what
    LUIU has loaded: register 1 ends with the low part only. When the high
    part is zero and the low part does not fit, the closing ADD copies the
    tag of the untouched register 1: the value is right and the tag is
    Void. *)
Theorem op_li_failing_inputs :
  Vm.registers (Vm.run (Asm.op_li 0xdeadbeefd0adbeef) 0 Vm.clean).1 !! 1%nat
  = Some (Vm.mkValue Vm.Integer_unsigned (Vm.holds_uint64 0x0adbeef))
  /\ Vm.registers (Vm.run (Asm.op_li_signed 0x10000000) 0 Vm.clean).1 !! 1%nat
     = Some (Vm.mkValue Vm.Integer_signed (Vm.holds_uint64 0))
  /\ Vm.registers (Vm.run (Asm.op_li 0x0fffffff) 0 Vm.clean).1 !! 1%nat
     = Some (Vm.mkValue Vm.Void (Vm.holds_uint64 0x0fffffff))
  /\ Vm.registers (Vm.run (Asm.op_li_signed 0x0fffffff) 0 Vm.clean).1 !! 1%nat
     = Some (Vm.mkValue Vm.Void (Vm.holds_uint64 0x0fffffff)).
Proof. repeat split; vm_compute; reflexivity. Qed.

(** ** Preemption points *)

Lemma quiet_ret {A} (a : A) : quiet (ret a).
Proof. intros s s' r [= <- _]. reflexivity. Qed.

Lemma quiet_throw {A} e : quiet (throw (A := A) e).
Proof. intros s s' r [= <- _]. reflexivity. Qed.

Lemma quiet_undefined {A} : quiet (undefined (A := A)).
Proof. intros s s' r [= <- _]. reflexivity. Qed.

Lemma quiet_gets {A} (f : Vm.machine -> A) : quiet (gets f).
Proof. intros s s' r [= <- _]. reflexivity. Qed.

Lemma quiet_bind {A B} (c : M Vm.machine A) (k : A -> M Vm.machine B) :
  quiet c -> (forall a, quiet (k a)) -> quiet (bind c k).
Proof.
  intros Hc Hk s s' r. unfold bind.
  destruct (c s) as [s1 [a|e|]] eqn:E.
  - intros H. rewrite (Hk _ _ _ _ H). eauto.
  - intros [= <- _]. eauto.
  - intros [= <- _]. eauto.
Qed.

Lemma quiet_at i : quiet (Vm.at_ i).
Proof.
  intros s s' r. unfold Vm.at_.
  destruct (_ <? _)%nat; intros [= <- _]; reflexivity.
Qed.

Lemma quiet_read ref : quiet (Vm.read ref).
Proof.
  intros s s' r. unfold Vm.read.
  destruct (_ !! _); intros [= <- _]; reflexivity.
Qed.

Lemma quiet_write_type ref t : quiet (Vm.write_type ref t).
Proof. intros s s' r [= <- _]. reflexivity. Qed.

Lemma quiet_write_value ref x : quiet (Vm.write_value ref x).
Proof. intros s s' r [= <- _]. reflexivity. Qed.

Lemma quiet_get_uint64 x : quiet (Vm.get_uint64 x).
Proof. destruct x; [apply quiet_ret | apply quiet_throw]. Qed.

Lemma cycles_app l1 l2 :
  Trace.cycles (l1 ++ l2) = Trace.cycles l1 ++ Trace.cycles l2.
Proof. apply omap_app. Qed.

Lemma quiet_print l :
  Trace.cycles [l] = [] -> quiet (Vm.print l).
Proof.
  intros H s s' r [= <- _]. cbn [Vm.cerr].
  now rewrite cycles_app, H, app_nil_r.
Qed.

Lemma quiet_fetch text ip : quiet (Vm.fetch text ip).
Proof.
  unfold Vm.fetch. destruct (_ !! _); [apply quiet_ret | apply quiet_undefined].
Qed.

Lemma quiet_for_range n (body : nat -> M Vm.machine unit) :
  (forall i, quiet (body i)) -> quiet (for_range n body).
Proof.
  intros Hbody. unfold for_range.
  induction (seq 0 n) as [|i l IH]; cbn [foldr].
  - apply quiet_ret.
  - apply quiet_bind; [apply Hbody | intros _; exact IH].
Qed.

Ltac quiet_step :=
  match goal with
  | |- quiet (bind _ _) => apply quiet_bind; [|intro]
  | |- quiet (ret _) => apply quiet_ret
  | |- quiet (throw _) => apply quiet_throw
  | |- quiet undefined => apply quiet_undefined
  | |- quiet (gets _) => apply quiet_gets
  | |- quiet (Vm.at_ _) => apply quiet_at
  | |- quiet (Vm.read _) => apply quiet_read
  | |- quiet (Vm.write_type _ _) => apply quiet_write_type
  | |- quiet (Vm.write_value _ _) => apply quiet_write_value
  | |- quiet (Vm.get_uint64 _) => apply quiet_get_uint64
  | |- quiet (Vm.fetch _ _) => apply quiet_fetch
  | |- quiet (Vm.print (if ?b then _ else _)) => destruct b
  | |- quiet (Vm.print _) => apply quiet_print; reflexivity
  | |- quiet (for_range _ _) => apply quiet_for_range; intro
  | |- quiet (if ?b then _ else _) => destruct b
  | |- quiet (match ?x with _ => _ end) => destruct x
  end.

Ltac quiet_all := repeat quiet_step.

Lemma quiet_execute_arith f op :
  (forall a b, quiet (f a b)) -> quiet (Vm.execute_arith f op).
Proof. intros Hf. unfold Vm.execute_arith. quiet_all. apply Hf. Qed.

Lemma quiet_execute_raw raw ip : quiet (Vm.execute_raw raw ip).
Proof.
  unfold Vm.execute_raw, Vm.execute_ADD, Vm.execute_MUL, Vm.execute_DELETE,
    Vm.execute_LUI, Vm.execute_LUIU, Vm.execute_LUI_as, Vm.execute_ADDI,
    Vm.execute_ADDIU, Vm.execute_ADDI_as, Vm.execute_EBREAK, Vm.dump_slot.
  destruct (Arch.ops.FORMAT_of _) as [[]|]; quiet_all;
    try (apply quiet_execute_arith; intros; apply quiet_ret).
Qed.

(** The dispatcher moves to the next word or returns [nullptr]. *)
Lemma bind_ret_inv {S A B} (c : M S A) (x y : B) s s' :
  bind c (fun _ => ret x) s = (s', Ok y) -> y = x.
Proof.
  unfold bind, ret. destruct (c s) as [s1 [a|e|]]; congruence.
Qed.

Lemma execute_raw_next raw ip s s' p :
  Vm.execute_raw raw ip s = (s', Ok (Some p)) -> p = S ip.
Proof.
  unfold Vm.execute_raw.
  destruct (Arch.ops.FORMAT_of _) as [[]|];
    repeat match goal with
           | |- (if ?b then _ else _) _ = _ -> _ => destruct b
           | |- bind (Vm.print _) (fun _ => if ?b then _ else _) _ = _ -> _ =>
               destruct b
           end;
    intros H;
    try (apply bind_ret_inv in H; congruence);
    try (unfold ret in H; congruence).
  all: unfold bind at 1 in H; cbn in H;
    try (apply bind_ret_inv in H; congruence);
    try (unfold ret in H; congruence).
Qed.

Lemma run_instruction_from_result rest ip s s' r :
  Vm.run_instruction_from rest ip s = (s', r) ->
  Trace.cycles (Vm.cerr s') = Trace.cycles (Vm.cerr s)
  /\ forall p, r = Ok (Some p) ->
       exists k w, rest !! k = Some w /\ Arch.ops.is_greedy w = false
                   /\ p = S (ip + k).
Proof.
  revert ip s. induction rest as [|w rest IH]; intros ip s; cbn.
  - intros [= <- <-]. split; [reflexivity|discriminate].
  - unfold bind at 1.
    destruct (Vm.execute_raw w ip s) as [s1 [[p1|]|e|]] eqn:E;
      pose proof (quiet_execute_raw _ _ _ _ _ E) as Hq.
    + apply execute_raw_next in E. subst p1.
      destruct (Arch.ops.is_greedy w) eqn:G.
      * intros H. destruct (IH _ _ H) as [Hc Hp]. split; [congruence|].
        intros p Hr. destruct (Hp p Hr) as (k & w' & Hk & Hw & ->).
        exists (S k), w'. repeat split; [done..|lia].
      * intros [= <- <-]. split; [done|]. intros p [= <-].
        exists 0%nat, w. repeat split; [done|lia].
    + intros [= <- <-]. split; [done|discriminate].
    + intros [= <- <-]. split; [done|discriminate].
    + intros [= <- <-]. split; [done|discriminate].
Qed.

Lemma run_instruction_result text ip s s' r :
  Vm.run_instruction text ip s = (s', r) ->
  Trace.cycles (Vm.cerr s') = Trace.cycles (Vm.cerr s)
  /\ forall p, r = Ok (Some p) ->
       after_plain text p /\ (ip < p <= length text)%nat.
Proof.
  unfold Vm.run_instruction. intros H.
  destruct (run_instruction_from_result _ _ _ _ _ H) as [Hc Hp].
  split; [done|]. intros p Hr.
  destruct (Hp p Hr) as (k & w & Hk & Hw & ->).
  rewrite lookup_drop in Hk.
  split; [now exists (ip + k)%nat, w|].
  apply lookup_lt_Some in Hk. lia.
Qed.

Lemma run_cycle_result left text i ip s s' r :
  Vm.run_cycle left text (length text) i ip s = (s', r) ->
  Trace.cycles (Vm.cerr s') = Trace.cycles (Vm.cerr s)
  /\ forall p, r = Ok p ->
       p = ip \/ p = length text \/ after_plain text p.
Proof.
  revert i ip s. induction left as [|left IH]; intros i ip s; cbn [Vm.run_cycle].
  - intros [= <- <-]. split; [done|]. intros p [= <-]. now left.
  - destruct ((i <? Vm.PREEMPTION_THRESHOLD)%nat && negb (ip =? length text)%nat).
    2:{ intros [= <- <-]. split; [done|]. intros p [= <-]. now left. }
    unfold bind at 1.
    destruct (Vm.fetch text ip s) as [s1 [word|e|]] eqn:Ef;
      pose proof (quiet_fetch _ _ _ _ _ Ef) as Hf;
      [|intros [= <- <-]; split; [done|discriminate]..].
    set (l := if Arch.ops.is_greedy word then Vm.Line_bundle i
              else Vm.Line_single i).
    assert (Hl : Trace.cycles [l] = [])
      by (subst l; now destruct (Arch.ops.is_greedy word)).
    rewrite (bind_Ok _ _ s1
               (Vm.mkMachine (Vm.registers s1) (Vm.cerr s1 ++ [l])) tt)
      by reflexivity.
    unfold bind at 1.
    destruct (Vm.run_instruction text ip _) as [s3 [next|e|]] eqn:Er;
      destruct (run_instruction_result _ _ _ _ _ Er) as [Hr Hnext];
      cbn [Vm.cerr] in Hr; rewrite cycles_app, Hl, app_nil_r in Hr;
      [|intros [= <- <-]; split; [congruence|discriminate]..].
    intros H. destruct (IH _ _ _ H) as [Hc Hpos].
    split; [congruence|].
    intros p Hp. destruct (Hpos p Hp) as [->|[->|Ha]];
      [|now right; left|now right; right].
    destruct next as [p1|]; [|now right; left].
    right; right. now apply (Hnext p1).
Qed.

(** The for loop moves the instruction pointer forward and not past the end
    of the text. *)
Lemma run_cycle_progress left text i ip s s' p :
  (ip <= length text)%nat ->
  Vm.run_cycle left text (length text) i ip s = (s', Ok p) ->
  (ip <= p <= length text)%nat
  /\ (left <> 0%nat -> (i < Vm.PREEMPTION_THRESHOLD)%nat -> ip <> length text ->
      (ip < p)%nat).
Proof.
  revert i ip s. induction left as [|left IH]; intros i ip s Hip;
    cbn [Vm.run_cycle].
  - intros [= <- <-]. split; [lia|done].
  - destruct (Nat.ltb_spec i Vm.PREEMPTION_THRESHOLD);
      destruct (Nat.eqb_spec ip (length text)); cbn [andb negb];
      try (intros [= <- <-]; split; [lia|intros; lia]).
    unfold bind at 1.
    destruct (Vm.fetch text ip s) as [s1 [word|e|]] eqn:Ef; [|discriminate..].
    rewrite (bind_Ok _ _ s1
               (Vm.mkMachine (Vm.registers s1)
                  (Vm.cerr s1 ++ [if Arch.ops.is_greedy word
                                  then Vm.Line_bundle i else Vm.Line_single i]))
               tt) by reflexivity.
    unfold bind at 1.
    destruct (Vm.run_instruction text ip _) as [s3 [next|e|]] eqn:Er;
      [|discriminate..].
    destruct (run_instruction_result _ _ _ _ _ Er) as [_ Hnext].
    intros Hrun. apply IH in Hrun.
    + destruct next as [p1|]; [destruct (Hnext p1 eq_refl) as [_ ?]|]; lia.
    + destruct next as [p1|]; [destruct (Hnext p1 eq_refl) as [_ ?]|]; lia.
Qed.

Lemma run_loop_cycles fuel text ip s s' r :
  Vm.run_loop fuel text ip s = (s', r) ->
  good_start text ip ->
  forall off, In off (Trace.cycles (Vm.cerr s')) ->
    In off (Trace.cycles (Vm.cerr s))
    \/ exists p, off = Z.of_nat p * 8 /\ good_start text p.
Proof.
  revert ip s. induction fuel as [|fuel IH]; intros ip s; cbn [Vm.run_loop];
    destruct (ip =? length text)%nat eqn:Eend;
    try (intros [= <- <-] _ off Hoff; now left).
  rewrite (bind_Ok _ _ s
             (Vm.mkMachine (Vm.registers s)
                (Vm.cerr s ++ [Vm.Line_cycle (Z.of_nat ip * sizeof_instruction_type)]))
             tt) by reflexivity.
  intros H Hgood off Hoff.
  assert (Hhere : forall s1,
    Trace.cycles (Vm.cerr s1)
    = Trace.cycles (Vm.cerr s ++ [Vm.Line_cycle (Z.of_nat ip * sizeof_instruction_type)]) ->
    In off (Trace.cycles (Vm.cerr s1)) ->
    In off (Trace.cycles (Vm.cerr s))
    \/ exists p, off = Z.of_nat p * 8 /\ good_start text p).
  { intros s1 -> Hin. rewrite cycles_app in Hin.
    apply in_app_or in Hin as [Hin|Hin]; [now left|].
    right. exists ip. destruct Hin as [<-|[]]. now split. }
  unfold bind at 1 in H.
  destruct (Vm.run_cycle _ _ _ _ _ _) as [s1 [p|e|]] eqn:Ec;
    destruct (run_cycle_result _ _ _ _ _ _ _ Ec) as [Hc Hpos];
    cbn [Vm.cerr] in Hc;
    [|injection H as <- <-; now apply (Hhere s1)..].
  destruct (p =? length text)%nat eqn:Ep.
  - cbv [bind Vm.print modify ret] in H. injection H as <- <-.
    cbn [Vm.cerr] in Hoff. rewrite cycles_app, app_nil_r in Hoff.
    now apply (Hhere s1).
  - rewrite (bind_Ok _ _ s1
               (Vm.mkMachine (Vm.registers s1)
                  (Vm.cerr s1 ++ [Vm.Line_preempted (Z.of_nat p - Z.of_nat ip)]))
               tt) in H by reflexivity.
    assert (Hgp : good_start text p).
    { destruct (Hpos p eq_refl) as [->|[->|Ha]]; [done| |now right].
      now rewrite Nat.eqb_refl in Ep. }
    destruct (IH _ _ H Hgp off Hoff) as [Hin|Hin]; [|now right].
    cbn [Vm.cerr] in Hin. rewrite cycles_app, app_nil_r in Hin.
    now apply (Hhere s1).
Qed.

Lemma In_cycles off l : In (Vm.Line_cycle off) l <-> In off (Trace.cycles l).
Proof.
  unfold Trace.cycles. rewrite <- !list_elem_of_In, list_elem_of_omap. split.
  - intros H. now exists (Vm.Line_cycle off).
  - intros (x & Hx & Hoff). destruct x; try discriminate. now injection Hoff as ->.
Qed.

(** One pass of the while loop per word is enough: [run] never stops for
    lack of fuel. *)
Lemma run_loop_finishes fuel text ip s :
  (ip <= length text)%nat -> (length text - ip <= fuel)%nat ->
  (Vm.run_loop fuel text ip s).2 <> Ok false.
Proof.
  revert ip s. induction fuel as [|fuel IH]; intros ip s Hip Hfuel;
    cbn [Vm.run_loop]; destruct (Nat.eqb_spec ip (length text)); try done;
    try lia.
  rewrite (bind_Ok _ _ s
             (Vm.mkMachine (Vm.registers s)
                (Vm.cerr s ++ [Vm.Line_cycle (Z.of_nat ip * sizeof_instruction_type)]))
             tt) by reflexivity.
  unfold bind at 1.
  destruct (Vm.run_cycle _ _ _ _ _ _) as [s1 [p|e|]] eqn:Ec; try done.
  destruct (run_cycle_progress _ _ _ _ _ _ _ Hip Ec) as [Hle Hlt].
  destruct (Nat.eqb_spec p (length text)); [done|].
  rewrite (bind_Ok _ _ s1
             (Vm.mkMachine (Vm.registers s1)
                (Vm.cerr s1 ++ [Vm.Line_preempted (Z.of_nat p - Z.of_nat ip)]))
             tt) by reflexivity.
  apply IH; [lia|].
  assert (ip < p)%nat by (apply Hlt; unfold Vm.PREEMPTION_THRESHOLD; lia). lia.
Qed.

Lemma run_finishes text s : (Vm.run text 0 s).2 <> Ok false.
Proof. apply run_loop_finishes; lia. Qed.

Lemma bind_ext {S A B} (c : M S A) (k1 k2 : A -> M S B) s :
  (forall a s1, k1 a s1 = k2 a s1) -> bind c k1 s = bind c k2 s.
Proof.
  intros H. unfold bind. destruct (c s) as [s1 [a|e|]]; auto.
Qed.

Lemma run_instruction_from_bundle gs last post ip s :
  Forall (fun w => Arch.ops.is_greedy w = true) gs ->
  Arch.ops.is_greedy last = false ->
  Vm.run_instruction_from (gs ++ last :: post) ip s
  = Trace.execute_all (gs ++ [last]) ip s.
Proof.
  intros Hgs Hlast. revert ip s.
  induction Hgs as [|w gs Hw _ IH]; intros ip s;
    cbn [Vm.run_instruction_from Trace.execute_all app];
    apply bind_ext; intros [p|] s1; try reflexivity.
  - now rewrite Hlast.
  - rewrite Hw. apply IH.
Qed.

(** C4. Let a bundle be a run [gs] of words with the greedy bit followed by
    a word [last] without it, anywhere in a text. A call of
    [run_instruction] at the first word of the bundle executes the words of
    the bundle one after the other and returns only then (or at the first
    word for which the dispatcher returns [nullptr]); and no "cycle at" line
    of the trace of [run], that is, no preemption point, names a word of the
    bundle other than its first, however many words the bundle has. *)
Theorem greedy_bundle_is_not_preempted
    (pre gs : list Arch.instruction_type) (last : Arch.instruction_type)
    (post : list Arch.instruction_type) :
  Forall (fun w => Arch.ops.is_greedy w = true) gs ->
  Arch.ops.is_greedy last = false ->
  let text := pre ++ gs ++ last :: post in
  (forall s,
     Vm.run_instruction text (length pre) s
     = Trace.execute_all (gs ++ [last]) (length pre) s)
  /\ (forall registers (p : nat),
        In (Vm.Line_cycle (Z.of_nat p * 8))
           (Vm.cerr (Vm.run text 0 (Vm.mkMachine registers [])).1) ->
        ~ (length pre < p <= length pre + length gs)%nat).
Proof.
  intros Hgs Hlast text. split.
  - intros s. unfold Vm.run_instruction. subst text.
    rewrite drop_app_length. now apply run_instruction_from_bundle.
  - intros registers p Hin Hp.
    destruct (Vm.run text 0 _) as [s' r] eqn:E. cbn [fst] in Hin.
    apply In_cycles in Hin.
    destruct (run_loop_cycles _ _ _ _ _ _ E (or_introl eq_refl) _ Hin)
      as [[]|(q & Hq & Hgood)].
    assert (q = p) as -> by lia.
    destruct Hgood as [->|(i & w & -> & Hi & Hw)]; [lia|].
    subst text. rewrite lookup_app_r in Hi by lia.
    rewrite lookup_app_l in Hi by lia.
    rewrite Forall_forall in Hgs.
    rewrite (Hgs w) in Hw; [discriminate|].
    apply list_elem_of_lookup. eauto.
Qed.

Lemma greedy_bundle_is_not_preempted_witness :
  Forall (fun w => Arch.ops.is_greedy w = true) sample_gs
  /\ Arch.ops.is_greedy sample_last = false
  /\ let text := [] ++ sample_gs ++ sample_last :: sample_post in
     (forall s,
        Vm.run_instruction text 0 s
        = Trace.execute_all (sample_gs ++ [sample_last]) 0 s)
     /\ (forall registers (p : nat),
           In (Vm.Line_cycle (Z.of_nat p * 8))
              (Vm.cerr (Vm.run text 0 (Vm.mkMachine registers [])).1) ->
           ~ (0 < p <= 0 + length sample_gs)%nat).
Proof.
  assert (Hgs : Forall (fun w => Arch.ops.is_greedy w = true) sample_gs)
    by (vm_compute; repeat constructor).
  assert (Hlast : Arch.ops.is_greedy sample_last = false) by reflexivity.
  split; [exact Hgs|]. split; [exact Hlast|].
  exact (greedy_bundle_is_not_preempted [] sample_gs sample_last sample_post
           Hgs Hlast).
Defined.

(** ** AA *)

(** C9. When what [fetch_proxy] returns for the input register holds no
    unsigned 64-bit integer, AA throws "invalid operand type" with the stack
    exactly as it was: the stack break of the process, its pointer list, the
    saved stack break of the frame and every register, the output register
    among them, are unchanged. *)
Theorem AA_abort_mutates_nothing {Register_file Proxy : Type}
    (fetch_proxy : Aa.Stack Register_file -> Arch.Register_access.t -> nat
                   -> result exception Proxy)
    (get : Proxy -> option Z)
    (save : Arch.Register_access.t -> nat -> Z -> M (Aa.Stack Register_file) unit)
    (op : Aa.AA) (ip : nat) (stack : Aa.Stack Register_file) (proxy : Proxy) :
  fetch_proxy stack (Aa.in_ op) ip = Ok proxy ->
  get proxy = None ->
  Aa.execute fetch_proxy get save op ip stack
  = (stack, Throw (abort_execution ip "invalid operand type for aa instruction")).
Proof.
  intros Hfetch Hget. unfold Aa.execute, bind. now rewrite Hfetch, Hget.
Qed.

Lemma AA_abort_mutates_nothing_witness :
  Aa.fetch_slot sample_stack (Aa.in_ sample_AA) 7
  = Ok (Vm.mkValue Vm.Integer_signed (Vm.holds_uint64 16))
  /\ Aa.get_unsigned (Vm.mkValue Vm.Integer_signed (Vm.holds_uint64 16)) = None
  /\ Aa.execute Aa.fetch_slot Aa.get_unsigned Aa.save_slot sample_AA 7 sample_stack
     = (sample_stack,
        Throw (abort_execution 7 "invalid operand type for aa instruction")).
Proof.
  split; [reflexivity|]. split; [reflexivity|].
  apply (AA_abort_mutates_nothing Aa.fetch_slot Aa.get_unsigned Aa.save_slot
           sample_AA 7 sample_stack
           (Vm.mkValue Vm.Integer_signed (Vm.holds_uint64 16)));
    reflexivity.
Defined.

(** ** Entry-point detection *)

Lemma has_attr_attr n key :
  Stage.has_attr n key = true -> exists a, Stage.attr n key = Some a.
Proof.
  unfold Stage.has_attr, Stage.attr.
  induction (Stage.attributes n) as [|x l IH]; cbn; [discriminate|].
  destruct (String.eqb (Stage.text x.1) key); cbn; eauto.
Qed.

Lemma entry_point_functions_cons n rest :
  Expected.entry_point_functions (n :: rest)
  = match n with
    | Stage.Fn fn =>
        if Stage.has_attr n "entry_point"
        then fn :: Expected.entry_point_functions rest
        else Expected.entry_point_functions rest
    | Stage.Label _ => Expected.entry_point_functions rest
    end.
Proof.
  unfold Expected.entry_point_functions. cbn.
  destruct n as [fn|ct]; [|reflexivity].
  now destruct (Stage.has_attr (Stage.Fn fn) "entry_point").
Qed.

Lemma find_entry_point_from_spec nodes acc :
  (forall ct, Stage.Label ct ∈ nodes ->
     Stage.has_attr (Stage.Label ct) "entry_point" = false) ->
  Stage.find_entry_point_from nodes acc
  = match acc, Expected.entry_point_functions nodes with
    | _, [] => Ok acc
    | None, [fn] => Ok (Some (Stage.fn_name fn))
    | None, first :: dup :: _ =>
        match Stage.attr (Stage.Fn dup) "entry_point" with
        | Some a =>
            Throw (Stage.display_error_and_exit
                     (Expected.duplicated dup (Stage.fn_name first) a))
        | None => Throw Stage.bad_optional_access
        end
    | Some first, dup :: _ =>
        match Stage.attr (Stage.Fn dup) "entry_point" with
        | Some a =>
            Throw (Stage.display_error_and_exit (Expected.duplicated dup first a))
        | None => Throw Stage.bad_optional_access
        end
    end.
Proof.
  revert acc. induction nodes as [|each rest IH]; intros acc Hlabels.
  - now destruct acc.
  - assert (Hrest : forall ct, Stage.Label ct ∈ rest ->
               Stage.has_attr (Stage.Label ct) "entry_point" = false)
      by (intros ct Hin; apply Hlabels, elem_of_cons; now right).
    rewrite entry_point_functions_cons. cbn [Stage.find_entry_point_from].
    destruct each as [fn|ct].
    + destruct (Stage.has_attr (Stage.Fn fn) "entry_point") eqn:E.
      * destruct acc as [first|]; cbn [Stage.static_cast_Fn_def].
        -- reflexivity.
        -- rewrite (IH _ Hrest).
           now destruct (Expected.entry_point_functions rest).
      * rewrite (IH _ Hrest). reflexivity.
    + rewrite (Hlabels ct) by (apply elem_of_cons; now left).
      rewrite (IH _ Hrest). reflexivity.
Qed.

Lemma entry_point_functions_attr nodes fn :
  fn ∈ Expected.entry_point_functions nodes ->
  exists a, Stage.attr (Stage.Fn fn) "entry_point" = Some a.
Proof.
  unfold Expected.entry_point_functions. rewrite list_elem_of_omap.
  intros (n & _ & Hn). destruct n as [f|]; [|discriminate].
  destruct (Stage.has_attr (Stage.Fn f) "entry_point") eqn:E; [|discriminate].
  injection Hn as ->. now apply has_attr_attr.
Qed.

(** X18. In a program whose attribute [entry_point] sits on function
    definitions only: when two or more functions carry it, detection ends
    assembly with the error Duplicated_entry_point, raised for the second of
    them and noting the first; when at most one carries it, detection
    returns the name of that function, or nothing. *)
Theorem find_entry_point_spec (nodes : list Stage.Node) :
  (forall ct, Stage.Label ct ∈ nodes ->
     Stage.has_attr (Stage.Label ct) "entry_point" = false) ->
  let fns := Expected.entry_point_functions nodes in
  ((2 <= length fns)%nat ->
   exists first dup a,
     fns !! 0%nat = Some first /\ fns !! 1%nat = Some dup
     /\ Stage.cause (Expected.duplicated dup (Stage.fn_name first) a)
        = Stage.Duplicated_entry_point
     /\ Stage.find_entry_point nodes
        = Throw (Stage.display_error_and_exit
                   (Expected.duplicated dup (Stage.fn_name first) a)))
  /\ ((length fns <= 1)%nat ->
      Stage.find_entry_point nodes = Ok (Stage.fn_name <$> head fns)).
Proof.
  intros Hlabels fns. unfold Stage.find_entry_point.
  rewrite (find_entry_point_from_spec _ _ Hlabels). fold fns.
  pose proof (entry_point_functions_attr nodes) as Hattr. fold fns in Hattr.
  destruct fns as [|first [|dup fns]]; cbn [length]; split; intros Hlen;
    try lia; try reflexivity.
  destruct (Hattr dup) as [a Ha]; [rewrite !elem_of_cons; auto|].
  exists first, dup, a. rewrite Ha. auto.
Qed.

Lemma find_entry_point_spec_witness :
  ((forall ct, Stage.Label ct ∈ sample_nodes ->
      Stage.has_attr (Stage.Label ct) "entry_point" = false)
   /\ Stage.find_entry_point sample_nodes
      = Ok (Some (Stage.mkLexeme "main" 27)))
  /\ ((forall ct, Stage.Label ct ∈ sample_duplicate ->
         Stage.has_attr (Stage.Label ct) "entry_point" = false)
      /\ exists e,
           Stage.find_entry_point sample_duplicate
           = Throw (Stage.display_error_and_exit e)
           /\ Stage.cause e = Stage.Duplicated_entry_point
           /\ Stage.main_lexeme e = Stage.mkLexeme "helper" 95
           /\ Stage.notes e = ["first entry point was: main"]).
Proof.
  split.
  - assert (H : forall ct, Stage.Label ct ∈ sample_nodes ->
                  Stage.has_attr (Stage.Label ct) "entry_point" = false).
    { intros ct Hin. unfold sample_nodes in Hin.
      apply list_elem_of_In in Hin. cbn in Hin.
      destruct Hin as [Hin|[Hin|[Hin|[]]]]; try discriminate.
      injection Hin as <-. reflexivity. }
    split; [exact H|].
    apply (proj2 (find_entry_point_spec sample_nodes H)). vm_compute. lia.
  - assert (H : forall ct, Stage.Label ct ∈ sample_duplicate ->
                  Stage.has_attr (Stage.Label ct) "entry_point" = false).
    { intros ct Hin. unfold sample_duplicate in Hin.
      apply list_elem_of_In in Hin. cbn in Hin.
      destruct Hin as [Hin|[Hin|[Hin|[]]]]; try discriminate.
      injection Hin as <-. reflexivity. }
    split; [exact H|].
    destruct (proj1 (find_entry_point_spec sample_duplicate H))
      as (first & dup & a & Hfirst & Hdup & Hcause & Hrun).
    { vm_compute. lia. }
    vm_compute in Hfirst, Hdup. injection Hfirst as <-. injection Hdup as <-.
    eexists. split; [exact Hrun|]. split; [exact Hcause|].
    split; reflexivity.
Defined.

(** ** Entry-point detection, where it fails *)

(** C8 at two programs. In each exactly one function definition carries
    the attribute [entry_point], and so does a label definition, before the
    function in the first program and after it in the second. Detection
    neither returns the name of the function nor reports an error: it casts
    the label node to a function definition, which has no defined
    behaviour. *)
Theorem entry_point_on_label_is_undefined :
  (Expected.entry_point_functions sample_label_first
   = Expected.entry_point_functions [sample_entry_main]
   /\ Stage.find_entry_point [sample_entry_main]
      = Ok (Some (Stage.mkLexeme "main" 27))
   /\ Stage.find_entry_point sample_label_first = Undefined)
  /\ (Expected.entry_point_functions sample_label_second
      = Expected.entry_point_functions [sample_entry_main]
      /\ Stage.find_entry_point sample_label_second = Undefined).
Proof. repeat split; vm_compute; reflexivity. Qed.

(** ** The relocation scan *)

Lemma F_immediate_range w :
  0 <= Arch.ops.F.immediate (Arch.ops.F.decode w) < 2 ^ 32.
Proof.
  cbn. change 0xffffffff00000000 with (Z.shiftl (Z.ones 32) 32).
  assert (E : Z.shiftr (Z.land w (Z.shiftl (Z.ones 32) 32)) 32
              = Z.land (Z.shiftr w 32) (Z.ones 32)) by prove_Zeq_bitwise.
  rewrite E, Z.land_ones by lia. apply Z.mod_pos_bound. lia.
Qed.

(** The cast to [uint32_t] keeps the lower half only. *)
Lemma symtab_entry_index_is_lower hi lo :
  0 <= hi < 2 ^ 32 -> 0 <= lo < 2 ^ 32 ->
  uint32_t (Z.lor (uint64_t (Z.shiftl hi 32)) lo) = lo.
Proof.
  intros Hhi Hlo. unfold uint32_t, uint64_t.
  rewrite <- !Z.land_ones by lia. prove_Zeq_bitwise.
Qed.

Lemma R_INFO_plain sym type :
  0 <= sym < 2 ^ 32 -> 0 <= type < 2 ^ 8 ->
  Stage.ELF64_R_INFO sym (uint8_t type) = sym * 2 ^ 32 + type.
Proof.
  intros Hs Ht. unfold Stage.ELF64_R_INFO, uint64_t, uint8_t.
  rewrite (Z.mod_small sym), (Z.mod_small type) by lia.
  rewrite Z.shiftl_mul_pow2 by lia. apply Z.mod_small. lia.
Qed.

Lemma R_SYM_of_info sym type :
  0 <= sym -> 0 <= type < 2 ^ 32 ->
  Stage.ELF64_R_SYM (sym * 2 ^ 32 + type) = sym.
Proof.
  intros Hs Ht. unfold Stage.ELF64_R_SYM.
  rewrite Z.shiftr_div_pow2 by lia.
  rewrite Z.div_add_l by lia. rewrite Z.div_small by lia. lia.
Qed.

Lemma R_TYPE_of_info sym type :
  0 <= sym -> 0 <= type < 2 ^ 32 ->
  Stage.ELF64_R_TYPE (sym * 2 ^ 32 + type) = type.
Proof.
  intros Hs Ht. unfold Stage.ELF64_R_TYPE.
  change 0xffffffff with (Z.ones 32). rewrite Z.land_ones by lia.
  rewrite Z.add_comm, Z.mod_add by lia. apply Z.mod_small. lia.
Qed.

Lemma R_VIUA_code_range k : 0 <= Stage.R_VIUA_code k < 2 ^ 8.
Proof. destruct k; cbn; lia. Qed.

Lemma text_at_in_range {S} (text : list Arch.instruction_type) (i : nat) each
    (s : S) :
  Z.of_nat (length text) < 2 ^ 61 ->
  text !! i = Some each ->
  Stage.text_at text (Z.of_nat i) s = (s, Ok each).
Proof.
  intros Hlen Hi. unfold Stage.text_at, uint64_t.
  apply lookup_lt_Some in Hi as Hlt.
  rewrite Z.mod_small by lia. now rewrite Nat2Z.id, Hi.
Qed.

Lemma push_reloc_spec text (i : nat) each kind upper lower table :
  Z.of_nat (length text) < 2 ^ 61 ->
  (2 <= i)%nat ->
  text !! i = Some each ->
  text !! (i - 2)%nat = Some upper ->
  text !! (i - 1)%nat = Some lower ->
  Stage.push_reloc text (Z.of_nat i) kind table
  = (table
     ++ [Stage.mkRel (8 * (Z.of_nat i - 2))
           (Arch.ops.F.immediate (Arch.ops.F.decode lower) * 2 ^ 32
            + Stage.R_VIUA_code kind)],
     Ok tt).
Proof.
  intros Hlen Hi Heach Hupper Hlower. unfold Stage.push_reloc.
  apply lookup_lt_Some in Heach as Hlt.
  replace (Z.of_nat i - 2) with (Z.of_nat (i - 2)) by lia.
  rewrite (bind_Ok _ _ _ _ _ (text_at_in_range _ _ _ _ Hlen Hupper)).
  replace (Z.of_nat i - 1) with (Z.of_nat (i - 1)) by lia.
  rewrite (bind_Ok _ _ _ _ _ (text_at_in_range _ _ _ _ Hlen Hlower)).
  unfold modify. do 3 f_equal.
  pose proof (F_immediate_range upper). pose proof (F_immediate_range lower).
  rewrite symtab_entry_index_is_lower by assumption.
  rewrite R_INFO_plain by auto using R_VIUA_code_range.
  f_equal. unfold uint64_t, sizeof_instruction_type.
  rewrite (Z.mod_small (Z.of_nat (i - 2))) by lia.
  rewrite Z.mod_small by lia. lia.
Qed.

Lemma reloc_scan_spec text (indexes : list nat) table :
  Z.of_nat (length text) < 2 ^ 61 ->
  (forall i each kind,
     text !! i = Some each -> Expected.reloc_kind each = Some kind -> (2 <= i)%nat) ->
  Forall (fun i => (i < length text)%nat) indexes ->
  foldr (fun i rest =>
           (let* each := Stage.text_at text (Z.of_nat i) in
            let op := Z.land each Arch.ops.OPCODE_MASK in
            if op =? Arch.ops.CALL
            then Stage.push_reloc text (Z.of_nat i) Stage.R_VIUA_JUMP_SLOT
            else if op =? Arch.ops.ATOM
                 then Stage.push_reloc text (Z.of_nat i) Stage.R_VIUA_OBJECT
                 else ret tt) ;;; rest)
        (ret tt) indexes table
  = (table ++ omap (Expected.reloc_for text) indexes, Ok tt).
Proof.
  intros Hlen Hcalls Hall. revert table.
  induction Hall as [|i indexes Hi _ IH]; intros table.
  - cbn. now rewrite app_nil_r.
  - destruct (lookup_lt_is_Some_2 _ _ Hi) as [each Heach].
    cbn [foldr omap list_omap].
    assert (Hbody :
      (let* each := Stage.text_at text (Z.of_nat i) in
       let op := Z.land each Arch.ops.OPCODE_MASK in
       if op =? Arch.ops.CALL
       then Stage.push_reloc text (Z.of_nat i) Stage.R_VIUA_JUMP_SLOT
       else if op =? Arch.ops.ATOM
            then Stage.push_reloc text (Z.of_nat i) Stage.R_VIUA_OBJECT
            else ret tt) table
      = (table ++ option_list (Expected.reloc_for text i), Ok tt)).
    { rewrite (bind_Ok _ _ _ _ _ (text_at_in_range _ _ _ _ Hlen Heach)).
      unfold Expected.reloc_for. rewrite Heach. cbn [mbind option_bind].
      specialize (Hcalls i each). unfold Expected.reloc_kind in *.
      destruct (Z.land each Arch.ops.OPCODE_MASK =? Arch.ops.CALL);
        [|destruct (Z.land each Arch.ops.OPCODE_MASK =? Arch.ops.ATOM)];
        cbn [mbind option_bind];
        try (cbn; now rewrite app_nil_r).
      all: specialize (Hcalls _ Heach eq_refl);
        destruct (lookup_lt_is_Some_2 text (i - 2)%nat ltac:(lia)) as [upper Hu];
        destruct (lookup_lt_is_Some_2 text (i - 1)%nat ltac:(lia)) as [lower Hl];
        rewrite Hl; cbn [mbind option_bind option_list];
        now apply (push_reloc_spec text i each _ upper lower). }
    rewrite (bind_Ok _ _ _ _ _ Hbody), IH.
    destruct (Expected.reloc_for text i); cbn [option_list];
      now rewrite <- app_assoc.
Qed.

(** C7, as the code has it. For a text in which every CALL and every ATOM
    has two words before it, the relocation table has one entry per CALL or
    ATOM, in the order of the text. The entry for the word at index [i] has
    the offset of the word at [i - 2] in bytes, a multiple of 8; its symbol
    is the immediate of the word at [i - 1] alone, that is, the lower 32
    bits of the index the two words carry; its type is JUMP_SLOT for CALL
    and OBJECT for ATOM. *)
Theorem make_reloc_table_spec (text : list Arch.instruction_type) :
  Z.of_nat (length text) < 2 ^ 61 ->
  (forall i each kind,
     text !! i = Some each -> Expected.reloc_kind each = Some kind -> (2 <= i)%nat) ->
  Stage.make_reloc_table text = Ok (Expected.reloc_table text)
  /\ forall i rel,
       Expected.reloc_for text i = Some rel ->
       exists each kind lower,
         text !! i = Some each /\ Expected.reloc_kind each = Some kind
         /\ text !! (i - 1)%nat = Some lower
         /\ Stage.r_offset rel = 8 * (Z.of_nat i - 2)
         /\ Stage.r_offset rel mod 8 = 0
         /\ Stage.ELF64_R_SYM (Stage.r_info rel)
            = Arch.ops.F.immediate (Arch.ops.F.decode lower)
         /\ Stage.ELF64_R_TYPE (Stage.r_info rel) = Stage.R_VIUA_code kind.
Proof.
  intros Hlen Hcalls. split.
  - unfold Stage.make_reloc_table, for_range.
    rewrite (reloc_scan_spec text _ [] Hlen Hcalls); [reflexivity|].
    apply Forall_forall. intros i Hi. apply list_elem_of_In, in_seq in Hi. lia.
  - intros i rel. unfold Expected.reloc_for.
    destruct (text !! i) as [each|] eqn:Ei; [|discriminate].
    cbn [mbind option_bind].
    destruct (Expected.reloc_kind each) as [kind|] eqn:Ek; [|discriminate].
    cbn [mbind option_bind].
    destruct (text !! (i - 1)%nat) as [lower|] eqn:El; [|discriminate].
    cbn [mbind option_bind]. intros [= <-].
    exists each, kind, lower. cbn [Stage.r_offset Stage.r_info].
    pose proof (F_immediate_range lower) as H.
    pose proof (R_VIUA_code_range kind) as H0.
    split; [reflexivity|]. split; [exact Ek|]. split; [reflexivity|].
    split; [reflexivity|]. split; [|split].
    + rewrite Z.mul_comm. apply Z.mod_mul. lia.
    + apply R_SYM_of_info; [tauto | clear - H0; lia].
    + apply R_TYPE_of_info; [tauto | clear - H0; lia].
Qed.

Lemma sample_call_shape :
  forall i each kind,
    sample_call !! i = Some each -> Expected.reloc_kind each = Some kind ->
    (2 <= i)%nat.
Proof.
  intros i each kind Hi Hk.
  destruct i as [|[|i]]; [exfalso..|lia];
    injection Hi as <-; vm_compute in Hk; discriminate.
Defined.

Lemma make_reloc_table_spec_witness :
  Z.of_nat (length sample_call) < 2 ^ 61
  /\ Stage.make_reloc_table sample_call = Ok (Expected.reloc_table sample_call).
Proof.
  assert (H : Z.of_nat (length sample_call) < 2 ^ 61) by (cbn; lia).
  split; [exact H|].
  exact (proj1 (make_reloc_table_spec sample_call H sample_call_shape)).
Defined.

(** C7, as stated, fails: with the halves 1 and 5 before a CALL, the symbol
    of the relocation is 5 and not the 64-bit index 0x100000005. *)
Lemma reloc_symbol_is_truncated :
  exists rel,
    Stage.make_reloc_table sample_call = Ok [rel]
    /\ Stage.ELF64_R_SYM (Stage.r_info rel) = 5
    /\ Expected.symbol_index_as_claimed sample_call 2 = Some 0x100000005
    /\ Some (Stage.ELF64_R_SYM (Stage.r_info rel))
       <> Expected.symbol_index_as_claimed sample_call 2.
Proof.
  eexists. split; [vm_compute; reflexivity|].
  repeat split; vm_compute; congruence.
Qed.

(** ** The executors, one by one *)

Lemma read_after_write_type (l : list Vm.Value) out t ref v :
  l !! ref = Some v ->
  exists t',
    alter (fun v => Vm.mkValue t (Vm.value v)) out l !! ref
    = Some (Vm.mkValue t' (Vm.value v))
    /\ (ref = out -> t' = t) /\ (ref <> out -> t' = Vm.type_of_unboxed v).
Proof.
  intros H. destruct (decide (ref = out)) as [->|Hne].
  - exists t. rewrite list_lookup_alter_eq, H. cbn. tauto.
  - exists (Vm.type_of_unboxed v). rewrite list_lookup_alter_ne by done.
    rewrite H. destruct v. cbn. tauto.
Qed.

Lemma execute_arith_spec (f : Z -> Z -> M Vm.machine Z) (op : Arch.ops.T.t)
    (s : Vm.machine) tl tr a b x :
  let out := Z.to_nat (Arch.Register_access.index (Arch.ops.T.out op)) in
  let lhs := Z.to_nat (Arch.Register_access.index (Arch.ops.T.lhs op)) in
  let rhs := Z.to_nat (Arch.Register_access.index (Arch.ops.T.rhs op)) in
  (out < length (Vm.registers s))%nat ->
  Vm.registers s !! lhs = Some (Vm.mkValue tl (Vm.holds_uint64 a)) ->
  Vm.registers s !! rhs = Some (Vm.mkValue tr (Vm.holds_uint64 b)) ->
  (forall s', f a b s' = (s', Ok x)) ->
  Vm.execute_arith f op s
  = (Vm.mkMachine
       (<[out := Vm.mkValue tl (Vm.holds_uint64 x)]> (Vm.registers s))
       (Vm.cerr s ++ [Vm.Line_of_T op]),
     Ok tt).
Proof.
  intros out lhs rhs Hout Hl Hr Hf. unfold Vm.execute_arith.
  rewrite (bind_Ok _ _ _ _ _ (at_in_range _ _ Hout)).
  rewrite (bind_Ok _ _ _ _ _ (at_in_range _ _ (lookup_lt_Some _ _ _ Hl))).
  rewrite (bind_Ok _ _ _ _ _ (at_in_range _ _ (lookup_lt_Some _ _ _ Hr))).
  fold out lhs rhs.
  rewrite (bind_Ok _ _ _ _ _ (read_slot _ _ _ Hl)). cbn [Vm.type_of_unboxed].
  destruct (read_after_write_type (Vm.registers s) out tl lhs _ Hl)
    as (tl' & Hl' & _).
  destruct (read_after_write_type (Vm.registers s) out tl rhs _ Hr)
    as (tr' & Hr' & _).
  set (s1 := Vm.mkMachine
               (alter (fun v => Vm.mkValue tl (Vm.value v)) out (Vm.registers s))
               (Vm.cerr s)).
  rewrite (bind_Ok _ _ s s1 tt) by reflexivity.
  rewrite (bind_Ok _ _ s1 s1 _ (read_slot lhs s1 _ Hl')).
  cbn [Vm.value Vm.get_uint64]. rewrite (bind_Ok _ _ s1 s1 a) by reflexivity.
  rewrite (bind_Ok _ _ s1 s1 _ (read_slot rhs s1 _ Hr')).
  cbn [Vm.value Vm.get_uint64]. rewrite (bind_Ok _ _ s1 s1 b) by reflexivity.
  rewrite (bind_Ok _ _ s1 s1 x (Hf s1)).
  cbv [bind Vm.write_value Vm.print modify]. subst s1.
  cbn [Vm.registers Vm.cerr]. now rewrite write_both.
Qed.

Lemma execute_LUI_as_spec tag (op : Arch.ops.E.t) (s : Vm.machine) :
  let out := Z.to_nat (Arch.Register_access.index (Arch.ops.E.out op)) in
  (out < length (Vm.registers s))%nat ->
  Vm.execute_LUI_as tag op s
  = (Vm.mkMachine
       (<[out := Vm.mkValue tag
                   (Vm.holds_uint64 (uint64_t (Z.shiftl (Arch.ops.E.immediate op) 28)))]>
          (Vm.registers s))
       (Vm.cerr s
        ++ [Vm.Line_E (Arch.ops.E.opcode op)
              (Arch.Register_access.index (Arch.ops.E.out op))
              (Arch.ops.E.immediate op)]),
     Ok tt).
Proof.
  intros out Hout. unfold Vm.execute_LUI_as.
  rewrite (bind_Ok _ _ _ _ _ (at_in_range _ _ Hout)).
  cbv [bind Vm.write_type Vm.write_value Vm.print modify].
  cbn [Vm.registers Vm.cerr]. now rewrite write_both.
Qed.

Lemma execute_DELETE_spec (op : Arch.ops.S.t) (s : Vm.machine) :
  let out := Z.to_nat (Arch.Register_access.index (Arch.ops.S.out op)) in
  (out < length (Vm.registers s))%nat ->
  Vm.execute_DELETE op s
  = (Vm.mkMachine (<[out := Vm.Value_init]> (Vm.registers s))
       (Vm.cerr s
        ++ [Vm.Line_S (Arch.ops.S.opcode op)
              (Arch.Register_access.index (Arch.ops.S.out op))]),
     Ok tt).
Proof.
  intros out Hout. unfold Vm.execute_DELETE.
  rewrite (bind_Ok _ _ _ _ _ (at_in_range _ _ Hout)).
  cbv [bind Vm.write_type Vm.write_value Vm.print modify].
  cbn [Vm.registers Vm.cerr]. now rewrite write_both.
Qed.

(** X1. ADD, SUB, MUL and DIV, on registers that hold 64-bit payloads [a]
    and [b]: the output register receives the tag of the left-hand register
    and the result computed in [uint64_t] (for DIV, with a divisor that is
    not zero, the quotient); this holds whichever of the three registers
    coincide, and no other register changes. *)
Theorem arithmetic_executors_spec (op : Arch.ops.T.t) (s : Vm.machine)
    (tl tr : Vm.Unboxed_type) (a b : Z) :
  let out := Z.to_nat (Arch.Register_access.index (Arch.ops.T.out op)) in
  let lhs := Z.to_nat (Arch.Register_access.index (Arch.ops.T.lhs op)) in
  let rhs := Z.to_nat (Arch.Register_access.index (Arch.ops.T.rhs op)) in
  let after x :=
    (Vm.mkMachine
       (<[out := Vm.mkValue tl (Vm.holds_uint64 x)]> (Vm.registers s))
       (Vm.cerr s ++ [Vm.Line_of_T op]),
     Ok tt) in
  (out < length (Vm.registers s))%nat ->
  Vm.registers s !! lhs = Some (Vm.mkValue tl (Vm.holds_uint64 a)) ->
  Vm.registers s !! rhs = Some (Vm.mkValue tr (Vm.holds_uint64 b)) ->
  Vm.execute_ADD op s = after (uint64_t (a + b))
  /\ Vm.execute_SUB op s = after (uint64_t (a - b))
  /\ Vm.execute_MUL op s = after (uint64_t (a * b))
  /\ (b <> 0 -> Vm.execute_DIV op s = after (a / b)).
Proof.
  intros out lhs rhs after Hout Hl Hr.
  repeat split; try intros Hb;
    apply (execute_arith_spec _ op s tl tr a b); try assumption;
    try reflexivity.
  intros s'. destruct (Z.eqb_spec b 0); [contradiction|reflexivity].
Qed.

Lemma arithmetic_executors_spec_witness :
  let op := Arch.ops.T.mk Arch.ops.MUL (Arch.Register_access.make_local 2)
              (Arch.Register_access.make_local 2)
              (Arch.Register_access.make_local 3) in
  Vm.execute_MUL op zero_divisor
  = (Vm.mkMachine
       (<[2%nat := Vm.mkValue Vm.Integer_unsigned
                     (Vm.holds_uint64 (uint64_t (10 * 0)))]>
          (Vm.registers zero_divisor))
       (Vm.cerr zero_divisor ++ [Vm.Line_of_T op]),
     Ok tt).
Proof.
  intros op.
  refine (proj1 (proj2 (proj2
    (arithmetic_executors_spec op zero_divisor Vm.Integer_unsigned
       Vm.Integer_unsigned 10 0 _ _ _)))).
  - vm_compute. lia.
  - reflexivity.
  - reflexivity.
Defined.

(** X2. The arithmetic executors are not exception safe: when the left-hand
    register holds a pointer, [std::get] throws after the tag of the output
    register has been overwritten with the tag of the left-hand register;
    the payload of the output register and every other register are
    unchanged. *)
Theorem arithmetic_executor_throws_after_tag_write
    (f : Z -> Z -> M Vm.machine Z) (op : Arch.ops.T.t) (s : Vm.machine)
    (tl : Vm.Unboxed_type) (p : Z) :
  let out := Z.to_nat (Arch.Register_access.index (Arch.ops.T.out op)) in
  let lhs := Z.to_nat (Arch.Register_access.index (Arch.ops.T.lhs op)) in
  let rhs := Z.to_nat (Arch.Register_access.index (Arch.ops.T.rhs op)) in
  (out < length (Vm.registers s))%nat ->
  (rhs < length (Vm.registers s))%nat ->
  Vm.registers s !! lhs = Some (Vm.mkValue tl (Vm.holds_pointer p)) ->
  Vm.execute_arith f op s
  = (Vm.mkMachine
       (alter (fun v => Vm.mkValue tl (Vm.value v)) out (Vm.registers s))
       (Vm.cerr s),
     Throw bad_variant_access).
Proof.
  intros out lhs rhs Hout Hrhs Hl. unfold Vm.execute_arith.
  rewrite (bind_Ok _ _ _ _ _ (at_in_range _ _ Hout)).
  rewrite (bind_Ok _ _ _ _ _ (at_in_range _ _ (lookup_lt_Some _ _ _ Hl))).
  rewrite (bind_Ok _ _ _ _ _ (at_in_range _ _ Hrhs)).
  fold out lhs rhs.
  rewrite (bind_Ok _ _ _ _ _ (read_slot _ _ _ Hl)). cbn [Vm.type_of_unboxed].
  destruct (read_after_write_type (Vm.registers s) out tl lhs _ Hl)
    as (tl' & Hl' & _).
  set (s1 := Vm.mkMachine
               (alter (fun v => Vm.mkValue tl (Vm.value v)) out (Vm.registers s))
               (Vm.cerr s)).
  rewrite (bind_Ok _ _ s s1 tt) by reflexivity.
  rewrite (bind_Ok _ _ s1 s1 _ (read_slot lhs s1 _ Hl')).
  reflexivity.
Qed.

Lemma arithmetic_executor_throws_after_tag_write_witness :
  let op := Arch.ops.T.mk Arch.ops.ADD (Arch.Register_access.make_local 1)
              (Arch.Register_access.make_local 2)
              (Arch.Register_access.make_local 3) in
  let s := Vm.mkMachine
             (<[2%nat := Vm.mkValue Vm.Byte (Vm.holds_pointer 64)]>
                (Vm.registers Vm.clean)) [] in
  Vm.execute_ADD op s
  = (Vm.mkMachine
       (alter (fun v => Vm.mkValue Vm.Byte (Vm.value v)) 1%nat (Vm.registers s))
       (Vm.cerr s),
     Throw bad_variant_access).
Proof.
  intros op s.
  apply (arithmetic_executor_throws_after_tag_write _ op s Vm.Byte 64).
  - vm_compute. lia.
  - vm_compute. lia.
  - reflexivity.
Defined.

(** X3. LUI and LUIU write [immediate << 28], computed in [uint64_t], into
    the register that [out] names, tagged Signed by LUI and Unsigned by
    LUIU; DELETE resets the register that [out] names to a void slot with a
    zero payload; neither changes another register. *)
Theorem LUI_LUIU_DELETE_spec (s : Vm.machine) :
  (forall op : Arch.ops.E.t,
     let out := Z.to_nat (Arch.Register_access.index (Arch.ops.E.out op)) in
     let word := Vm.holds_uint64 (uint64_t (Z.shiftl (Arch.ops.E.immediate op) 28)) in
     let line := Vm.Line_E (Arch.ops.E.opcode op)
                   (Arch.Register_access.index (Arch.ops.E.out op))
                   (Arch.ops.E.immediate op) in
     (out < length (Vm.registers s))%nat ->
     Vm.execute_LUI op s
     = (Vm.mkMachine
          (<[out := Vm.mkValue Vm.Integer_signed word]> (Vm.registers s))
          (Vm.cerr s ++ [line]), Ok tt)
     /\ Vm.execute_LUIU op s
        = (Vm.mkMachine
             (<[out := Vm.mkValue Vm.Integer_unsigned word]> (Vm.registers s))
             (Vm.cerr s ++ [line]), Ok tt))
  /\ (forall op : Arch.ops.S.t,
        let out := Z.to_nat (Arch.Register_access.index (Arch.ops.S.out op)) in
        (out < length (Vm.registers s))%nat ->
        Vm.execute_DELETE op s
        = (Vm.mkMachine
             (<[out := Vm.mkValue Vm.Void (Vm.holds_uint64 0)]> (Vm.registers s))
             (Vm.cerr s
              ++ [Vm.Line_S (Arch.ops.S.opcode op)
                    (Arch.Register_access.index (Arch.ops.S.out op))]),
           Ok tt)).
Proof.
  split.
  - intros op out word line Hout.
    split; now apply execute_LUI_as_spec.
  - intros op out Hout. now apply execute_DELETE_spec.
Qed.

Lemma LUI_LUIU_DELETE_spec_witness :
  let op := Arch.ops.S.mk Arch.ops.DELETE (Arch.Register_access.make_local 2) in
  Vm.execute_DELETE op zero_divisor
  = (Vm.mkMachine
       (<[2%nat := Vm.mkValue Vm.Void (Vm.holds_uint64 0)]>
          (Vm.registers zero_divisor))
       (Vm.cerr zero_divisor ++ [Vm.Line_S Arch.ops.DELETE 2]),
     Ok tt).
Proof.
  intros op.
  apply (proj2 (LUI_LUIU_DELETE_spec zero_divisor) op).
  vm_compute. lia.
Defined.

(** ** From the encoded word to the executor *)

Lemma opcode_masked raw o :
  Z.land raw 0xffff = o ->
  Z.land raw Arch.ops.OPCODE_MASK = Z.land o Arch.ops.OPCODE_MASK.
Proof. intros <-. rewrite <- Z.land_assoc. reflexivity. Qed.

Lemma decode_encode x :
  Codec.wf x -> Codec.decode (Codec.format_of x) (Codec.encode x) = x.
Proof.
  intros [Ho Hx]. destruct x; cbn in *; f_equal.
  - now apply N_round_trip.
  - now apply S_round_trip.
  - now apply D_round_trip.
  - now apply T_round_trip.
  - now apply F_round_trip.
  - now apply E_round_trip.
  - now apply R_round_trip.
Qed.

Lemma encode_opcode_masked x :
  Codec.wf x ->
  Z.land (Codec.encode x) Arch.ops.OPCODE_MASK
  = Z.land (Codec.opcode_of x) Arch.ops.OPCODE_MASK.
Proof.
  intros Hwf. apply opcode_masked.
  rewrite <- (opcode_of_decode (Codec.format_of x)).
  now rewrite decode_encode.
Qed.

Lemma execute_raw_encoded (x : Codec.instruction) (c : M Vm.machine unit)
    (ip : nat) (s : Vm.machine) :
  Codec.wf x ->
  Dispatch.executor_of x = Some c ->
  Vm.execute_raw (Codec.encode x) ip s = (c ;;; ret (Some (S ip))) s.
Proof.
  intros Hwf Hc. unfold Vm.execute_raw.
  rewrite (encode_opcode_masked x Hwf).
  pose proof (decode_encode x Hwf) as Hrt.
  unfold Dispatch.executor_of in Hc.
  destruct x as [i|i|i|i|i|i|i]; try discriminate;
    cbn [Codec.opcode_of Codec.encode Codec.format_of Codec.decode] in *;
    injection Hrt as Hrt;
    repeat match type of Hc with
           | (if ?b then _ else _) = _ =>
               let E := fresh "E" in
               destruct b eqn:E;
               [apply Z.eqb_eq in E; rewrite E; injection Hc as <-|]
           end;
    try discriminate;
    cbn; now rewrite Hrt.
Qed.

(** X4. An encoded ADD, MUL, DELETE, LUI, LUIU, ADDI or ADDIU instruction,
    with or without the greedy bit, reaches its executor with the operands
    that were encoded, and the dispatcher then returns the next word. *)
Theorem dispatch_encoded (x : Codec.instruction) (c : M Vm.machine unit)
    (ip : nat) (s : Vm.machine) :
  Codec.wf x ->
  Dispatch.executor_of x = Some c ->
  Vm.execute_raw (Codec.encode x) ip s = (c ;;; ret (Some (S ip))) s.
Proof. apply execute_raw_encoded. Qed.

Lemma dispatch_encoded_witness :
  Vm.execute_raw sample_last 6 zero_divisor
  = (Vm.execute_ADD
       (Arch.ops.T.mk Arch.ops.ADD (Arch.Register_access.make_local 1)
          (Arch.Register_access.make_local 1) (Arch.Register_access.make_local 2))
     ;;; ret (Some 7%nat)) zero_divisor.
Proof.
  apply (dispatch_encoded
           (Codec.Fmt_T
              (Arch.ops.T.mk Arch.ops.ADD (Arch.Register_access.make_local 1)
                 (Arch.Register_access.make_local 1)
                 (Arch.Register_access.make_local 2)))).
  - unfold Codec.wf, Arch.Register_access.wf; cbn -[Z.pow].
    change Arch.ops.ADD with 4097. lia.
  - reflexivity.
Defined.

(** ** The parts of a value, in closed form *)

Lemma high_part_div v :
  0 <= v < 2 ^ 64 -> Z.shiftr (Z.land v Asm.HIGH_36) 28 = v / 2 ^ 28.
Proof.
  intros Hv. rewrite <- Z.shiftr_div_pow2 by lia.
  change Asm.HIGH_36 with (Z.shiftl (Z.ones 36) 28). prove_Zeq_bitwise.
Qed.

Lemma fits_LOW_24 low :
  0 <= low < 2 ^ 28 -> (Z.land low Asm.LOW_24 =? low) = (low <? 2 ^ 24).
Proof.
  intros H. change Asm.LOW_24 with (Z.ones 24). rewrite Z.land_ones by lia.
  destruct (Z.ltb_spec low (2 ^ 24)).
  - apply Z.eqb_eq, Z.mod_small. lia.
  - apply Z.eqb_neq. pose proof (Z.mod_pos_bound low (2 ^ 24)). lia.
Qed.

Lemma to_loading_parts_unsigned_closed v :
  0 <= v < 2 ^ 64 ->
  Asm.to_loading_parts_unsigned v
  = if v mod 2 ^ 28 <? 2 ^ 24
    then (v / 2 ^ 28, ((v mod 2 ^ 28, 0), 0))
    else (v / 2 ^ 28, ((v mod 2 ^ 28 / 16, 16), v mod 16)).
Proof.
  intros Hv. unfold Asm.to_loading_parts_unsigned.
  rewrite low_part_mod, high_part_div by lia.
  pose proof (Z.mod_pos_bound v (2 ^ 28) ltac:(lia)) as Hlow.
  rewrite fits_LOW_24 by lia.
  destruct (v mod 2 ^ 28 <? 2 ^ 24); [reflexivity|].
  f_equal. f_equal; [f_equal|].
  - unfold uint32_t.
    pose proof (Z.mod_pos_bound (v mod 2 ^ 28) 16 ltac:(lia)).
    assert (0 <= v mod 2 ^ 28 / 16) by (apply Z.div_pos; lia).
    pose proof (Z.div_mod (v mod 2 ^ 28) 16 ltac:(lia)).
    rewrite Z.mod_small by lia.
    replace (v mod 2 ^ 28 - v mod 2 ^ 28 mod 16)
      with (v mod 2 ^ 28 / 16 * 16) by lia.
    apply Z.div_mul. lia.
  - change (2 ^ 28) with (16 * 2 ^ 24).
    rewrite Z.rem_mul_r by lia.
    rewrite Z.mul_comm, Z.mod_add by lia. apply Z.mod_mod. lia.
Qed.

(** X5. The parts of a 64-bit value [v] are [v / 2^28] and, of the low 28
    bits [l] of [v], either [l] itself with multiplier and remainder zero
    (when [l] fits in 24 bits) or [l / 16], 16 and [v mod 16]. Each part
    fits the immediate of the instruction that [op_li] puts it in: 36 bits
    for the high part, 24 bits for the base, the multiplier and the
    remainder. *)
Theorem to_loading_parts_unsigned_fit (v : Z) :
  0 <= v < 2 ^ 64 ->
  let parts := Asm.to_loading_parts_unsigned v in
  parts = (if v mod 2 ^ 28 <? 2 ^ 24
           then (v / 2 ^ 28, ((v mod 2 ^ 28, 0), 0))
           else (v / 2 ^ 28, ((v mod 2 ^ 28 / 16, 16), v mod 16)))
  /\ 0 <= parts.1 < 2 ^ 36
  /\ 0 <= parts.2.1.1 < 2 ^ 24
  /\ 0 <= parts.2.1.2 < 2 ^ 24
  /\ 0 <= parts.2.2 < 2 ^ 24.
Proof.
  intros Hv parts. subst parts.
  rewrite to_loading_parts_unsigned_closed by assumption.
  split; [reflexivity|].
  pose proof (Z.mod_pos_bound v (2 ^ 28) ltac:(lia)) as Hlow.
  pose proof (Z.mod_pos_bound v 16 ltac:(lia)) as Hrem.
  assert (0 <= v / 2 ^ 28 < 2 ^ 36).
  { split; [apply Z.div_pos; lia|].
    apply Z.div_lt_upper_bound; lia. }
  assert (0 <= v mod 2 ^ 28 / 16 < 2 ^ 24).
  { split; [apply Z.div_pos; lia|].
    apply Z.div_lt_upper_bound; lia. }
  destruct (Z.ltb_spec (v mod 2 ^ 28) (2 ^ 24)); cbn [fst snd]; lia.
Qed.

Lemma to_loading_parts_unsigned_fit_witness :
  let parts := Asm.to_loading_parts_unsigned 0xdeadbeefdeadbeef in
  parts = (0xdeadbeefd, ((0xeadbee, 16), 0xf))
  /\ 0 <= parts.1 < 2 ^ 36
  /\ 0 <= parts.2.1.1 < 2 ^ 24
  /\ 0 <= parts.2.1.2 < 2 ^ 24
  /\ 0 <= parts.2.2 < 2 ^ 24.
Proof.
  apply (to_loading_parts_unsigned_fit 0xdeadbeefdeadbeef). lia.
Defined.

(** ** A text that is one bundle *)

Lemma run_single_bundle text s s2 w :
  text !! 0%nat = Some w ->
  Vm.run_instruction text 0
    (Vm.mkMachine (Vm.registers s)
       ((Vm.cerr s ++ [Vm.Line_cycle 0])
        ++ [if Arch.ops.is_greedy w then Vm.Line_bundle 0 else Vm.Line_single 0]))
  = (s2, Ok (Some (length text))) ->
  Vm.run text 0 s
  = (Vm.mkMachine (Vm.registers s2) (Vm.cerr s2 ++ [Vm.Line_halted]), Ok true).
Proof.
  intros Hw Hrun. unfold Vm.run.
  destruct text as [|w' text]; [discriminate|]. injection Hw as ->.
  cbn [length] in *. cbn [Vm.run_loop].
  change (length (w :: text)) with (S (length text)). cbn [Nat.eqb].
  set (s1 := Vm.mkMachine (Vm.registers s) (Vm.cerr s ++ [Vm.Line_cycle 0])).
  rewrite (bind_Ok _ _ s s1 tt) by reflexivity.
  assert (Hcycle :
    Vm.run_cycle Vm.PREEMPTION_THRESHOLD (w :: text) (S (length text)) 0 0 s1
    = (s2, Ok (S (length text)))).
  { unfold Vm.PREEMPTION_THRESHOLD. cbn [Vm.run_cycle].
    change ((0 <? Vm.PREEMPTION_THRESHOLD)%nat
            && negb (0 =? S (length text))%nat) with true.
    cbv iota.
    rewrite (bind_Ok _ _ s1 s1 w) by reflexivity.
    rewrite (bind_Ok _ _ s1 _ tt) by reflexivity.
    rewrite (bind_Ok _ _ _ _ _ Hrun).
    rewrite Nat.eqb_refl, !andb_false_r. reflexivity. }
  rewrite (bind_Ok _ _ _ _ _ Hcycle). rewrite Nat.eqb_refl. reflexivity.
Qed.

Lemma execute_all_step x c ws ip s s' :
  Codec.wf x ->
  Dispatch.executor_of x = Some c ->
  c s = (s', Ok tt) ->
  Trace.execute_all (Codec.encode x :: ws) ip s
  = Trace.execute_all ws (S ip) s'.
Proof.
  intros Hwf Hx Hc. cbn [Trace.execute_all].
  unfold bind at 1. rewrite (execute_raw_encoded x c ip s Hwf Hx).
  unfold bind. now rewrite Hc.
Qed.

(** ** [li], where it is right *)

Lemma is_greedy_encode x :
  Codec.wf x ->
  Arch.ops.is_greedy (Codec.encode x) = Arch.ops.is_greedy (Codec.opcode_of x).
Proof.
  intros Hwf. unfold Arch.ops.is_greedy. f_equal. f_equal.
  apply greedy_bit_of_opcode.
  rewrite <- (opcode_of_decode (Codec.format_of x)). now rewrite decode_encode.
Qed.

Lemma li_sum v :
  0 <= v < 2 ^ 64 ->
  uint64_t
    (uint64_t (Z.shiftl (v / 2 ^ 28) 28)
     + uint64_t
         (uint64_t (uint64_t (0 + v mod 2 ^ 28 / 16) * uint64_t (0 + 16))
          + uint64_t (0 + v mod 16)))
  = v.
Proof.
  intros Hv. unfold uint64_t. rewrite Z.shiftl_mul_pow2 by lia.
  pose proof (Z.mod_pos_bound v (2 ^ 28) ltac:(lia)) as Hlow.
  pose proof (Z.mod_pos_bound v 16 ltac:(lia)) as Hrem.
  pose proof (Z.div_mod v (2 ^ 28) ltac:(lia)) as Hv28.
  pose proof (Z.div_mod (v mod 2 ^ 28) 16 ltac:(lia)) as Hl16.
  assert (Hmm : v mod 2 ^ 28 mod 16 = v mod 16).
  { change (2 ^ 28) with (16 * 2 ^ 24). rewrite Z.rem_mul_r by lia.
    rewrite Z.mul_comm, Z.mod_add by lia. apply Z.mod_mod. lia. }
  assert (0 <= v / 2 ^ 28) by (apply Z.div_pos; lia).
  assert (0 <= v mod 2 ^ 28 / 16) by (apply Z.div_pos; lia).
  rewrite Hmm in Hl16.
  rewrite !Z.add_0_l.
  rewrite (Z.mod_small (v / 2 ^ 28 * 2 ^ 28)) by lia.
  rewrite (Z.mod_small (v mod 2 ^ 28 / 16)) by lia.
  rewrite (Z.mod_small 16) by lia.
  rewrite (Z.mod_small (v mod 16)) by lia.
  rewrite (Z.mod_small (v mod 2 ^ 28 / 16 * 16)) by lia.
  rewrite (Z.mod_small (v mod 2 ^ 28 / 16 * 16 + v mod 16)) by lia.
  rewrite Z.mod_small by lia. lia.
Qed.

Ltac operands :=
  repeat match goal with i := _ |- _ => subst i end;
  cbn [Vm.registers Vm.cerr
       Arch.ops.T.opcode Arch.ops.T.out Arch.ops.T.lhs Arch.ops.T.rhs
       Arch.ops.E.opcode Arch.ops.E.out Arch.ops.E.immediate
       Arch.ops.R.opcode Arch.ops.R.out Arch.ops.R.in_ Arch.ops.R.immediate
       Arch.Register_access.make_local Arch.Register_access.index];
  change (Z.to_nat 1) with 1%nat; change (Z.to_nat 2) with 2%nat;
  change (Z.to_nat 3) with 3%nat.

Ltac regs_len :=
  operands; rewrite ?length_insert; unfold Vm.clean;
  cbn [Vm.registers]; rewrite ?length_replicate; lia.

Ltac regs_lookup :=
  operands;
  repeat first [ rewrite list_lookup_insert_eq by regs_len
               | rewrite list_lookup_insert_ne by lia ];
  first [ reflexivity
        | unfold Vm.clean; cbn [Vm.registers];
          rewrite lookup_replicate_2 by lia; reflexivity ].

Ltac wf_operands :=
  unfold Codec.wf, Arch.Register_access.wf, Arch.Register_access.make_local,
    Arch.Register_access.make_void;
  cbn [Codec.opcode_of Arch.ops.T.opcode Arch.ops.T.out Arch.ops.T.lhs
       Arch.ops.T.rhs Arch.ops.E.opcode Arch.ops.E.out Arch.ops.E.immediate
       Arch.ops.R.opcode Arch.ops.R.out Arch.ops.R.in_ Arch.ops.R.immediate
       Arch.Register_access.index];
  repeat split; try lia;
  try (match goal with s : bool |- _ => destruct s end; vm_compute; congruence).

Lemma op_li_with_small (signed : bool) v :
  0 <= v < 2 ^ 24 ->
  let lui := if signed then Arch.ops.LUI else Arch.ops.LUIU in
  let addi := if signed then Arch.ops.ADDI else Arch.ops.ADDIU in
  let tag := if signed then Vm.Integer_signed else Vm.Integer_unsigned in
  exists s',
    Vm.run (Asm.op_li_with lui addi v) 0 Vm.clean = (s', Ok true)
    /\ Vm.registers s' !! 1%nat = Some (Vm.mkValue tag (Vm.holds_uint64 v)).
Proof.
  intros Hv lui addi tag. unfold Asm.op_li_with.
  rewrite to_loading_parts_unsigned_closed by lia.
  rewrite (Z.mod_small v (2 ^ 28)) by lia.
  destruct (Z.ltb_spec v (2 ^ 24)); [|lia].
  rewrite (Z.div_small v (2 ^ 28)) by lia.
  cbn [fst snd Z.eqb negb app].
  set (i := Arch.ops.R.mk addi (Arch.Register_access.make_local 1)
              Arch.Register_access.make_void v).
  change (Arch.ops.R.encode i) with (Codec.encode (Codec.Fmt_R i)).
  assert (Hwf : Codec.wf (Codec.Fmt_R i)) by (subst i addi; wf_operands).
  assert (Hplain : Arch.ops.is_greedy (Codec.encode (Codec.Fmt_R i)) = false)
    by (rewrite is_greedy_encode by exact Hwf; subst i addi; now destruct signed).
  assert (Hx : Dispatch.executor_of (Codec.Fmt_R i)
               = Some (Vm.execute_ADDI_as tag i))
    by (subst i addi tag; now destruct signed).
  eexists. split.
  - eapply (run_single_bundle [Codec.encode (Codec.Fmt_R i)] Vm.clean _ _ eq_refl).
    unfold Vm.run_instruction. cbn [drop Vm.run_instruction_from].
    rewrite Hplain.
    erewrite bind_Ok.
    2: { rewrite (execute_raw_encoded _ _ 0 _ Hwf Hx).
         erewrite bind_Ok.
         2: { apply (execute_ADDI_as_spec tag _ _ 0); [regs_len|reflexivity]. }
         reflexivity. }
    reflexivity.
  - cbn [Vm.registers Arch.ops.R.out Arch.ops.R.immediate
         Arch.Register_access.make_local Arch.Register_access.index].
    subst i. cbn [Arch.ops.R.out Arch.ops.R.immediate
         Arch.Register_access.make_local Arch.Register_access.index].
    change (Z.to_nat 1) with 1%nat.
    rewrite list_lookup_insert_eq by regs_len.
    unfold uint64_t. rewrite Z.add_0_l, Z.mod_small by lia. reflexivity.
Qed.

Lemma op_li_with_full (signed : bool) v :
  0 <= v < 2 ^ 64 -> 2 ^ 28 <= v -> 2 ^ 24 <= v mod 2 ^ 28 ->
  let lui := if signed then Arch.ops.LUI else Arch.ops.LUIU in
  let addi := if signed then Arch.ops.ADDI else Arch.ops.ADDIU in
  let tag := if signed then Vm.Integer_signed else Vm.Integer_unsigned in
  exists s',
    Vm.run (Asm.op_li_with lui addi v) 0 Vm.clean = (s', Ok true)
    /\ Vm.registers s' !! 1%nat = Some (Vm.mkValue tag (Vm.holds_uint64 v)).
Proof.
  intros Hv Hhigh Hlow lui addi tag. unfold Asm.op_li_with.
  pose proof (to_loading_parts_unsigned_closed v Hv) as Hparts.
  destruct (Z.ltb_spec (v mod 2 ^ 28) (2 ^ 24)); [lia|].
  rewrite Hparts. cbn [fst snd].
  assert (Hh : 0 < v / 2 ^ 28 < 2 ^ 36).
  { split; [apply Z.div_str_pos; lia | apply Z.div_lt_upper_bound; lia]. }
  pose proof (Z.mod_pos_bound v (2 ^ 28) ltac:(lia)) as Hl.
  pose proof (Z.mod_pos_bound v 16 ltac:(lia)) as Hr.
  assert (Hb : 0 <= v mod 2 ^ 28 / 16 < 2 ^ 24).
  { split; [apply Z.div_pos; lia | apply Z.div_lt_upper_bound; lia]. }
  destruct (Z.eqb_spec (v / 2 ^ 28) 0); [lia|].
  cbn [Z.eqb negb app].
  set (r1 := Arch.Register_access.make_local 1).
  set (r2 := Arch.Register_access.make_local 2).
  set (r3 := Arch.Register_access.make_local 3).
  set (i1 := Arch.ops.E.mk (Z.lor Arch.ops.GREEDY lui) r1 (v / 2 ^ 28)).
  set (i2 := Arch.ops.R.mk (Z.lor Arch.ops.GREEDY addi) r2
               Arch.Register_access.make_void (v mod 2 ^ 28 / 16)).
  set (i3 := Arch.ops.R.mk (Z.lor Arch.ops.GREEDY addi) r3
               Arch.Register_access.make_void 16).
  set (i4 := Arch.ops.T.mk (Z.lor Arch.ops.GREEDY Arch.ops.MUL) r2 r2 r3).
  set (i5 := Arch.ops.R.mk (Z.lor Arch.ops.GREEDY addi) r3
               Arch.Register_access.make_void (v mod 16)).
  set (i6 := Arch.ops.T.mk (Z.lor Arch.ops.GREEDY Arch.ops.ADD) r2 r2 r3).
  set (i7 := Arch.ops.T.mk Arch.ops.ADD r1 r1 r2).
  change (Arch.ops.E.encode i1) with (Codec.encode (Codec.Fmt_E i1)).
  change (Arch.ops.R.encode i2) with (Codec.encode (Codec.Fmt_R i2)).
  change (Arch.ops.R.encode i3) with (Codec.encode (Codec.Fmt_R i3)).
  change (Arch.ops.T.encode i4) with (Codec.encode (Codec.Fmt_T i4)).
  change (Arch.ops.R.encode i5) with (Codec.encode (Codec.Fmt_R i5)).
  change (Arch.ops.T.encode i6) with (Codec.encode (Codec.Fmt_T i6)).
  change (Arch.ops.T.encode i7) with (Codec.encode (Codec.Fmt_T i7)).
  assert (W1 : Codec.wf (Codec.Fmt_E i1)) by (subst i1 r1 lui; wf_operands).
  assert (W2 : Codec.wf (Codec.Fmt_R i2)) by (subst i2 r2 addi; wf_operands).
  assert (W3 : Codec.wf (Codec.Fmt_R i3)) by (subst i3 r3 addi; wf_operands).
  assert (W4 : Codec.wf (Codec.Fmt_T i4)) by (subst i4 r2 r3; wf_operands).
  assert (W5 : Codec.wf (Codec.Fmt_R i5)) by (subst i5 r3 addi; wf_operands).
  assert (W6 : Codec.wf (Codec.Fmt_T i6)) by (subst i6 r2 r3; wf_operands).
  assert (W7 : Codec.wf (Codec.Fmt_T i7)) by (subst i7 r1 r2; wf_operands).
  assert (X1 : Dispatch.executor_of (Codec.Fmt_E i1)
               = Some (Vm.execute_LUI_as tag i1))
    by (subst i1 lui tag; now destruct signed).
  assert (X2 : Dispatch.executor_of (Codec.Fmt_R i2)
               = Some (Vm.execute_ADDI_as tag i2))
    by (subst i2 addi tag; now destruct signed).
  assert (X3 : Dispatch.executor_of (Codec.Fmt_R i3)
               = Some (Vm.execute_ADDI_as tag i3))
    by (subst i3 addi tag; now destruct signed).
  assert (X4 : Dispatch.executor_of (Codec.Fmt_T i4) = Some (Vm.execute_MUL i4))
    by reflexivity.
  assert (X5 : Dispatch.executor_of (Codec.Fmt_R i5)
               = Some (Vm.execute_ADDI_as tag i5))
    by (subst i5 addi tag; now destruct signed).
  assert (X6 : Dispatch.executor_of (Codec.Fmt_T i6) = Some (Vm.execute_ADD i6))
    by reflexivity.
  assert (X7 : Dispatch.executor_of (Codec.Fmt_T i7) = Some (Vm.execute_ADD i7))
    by reflexivity.
  set (gs := [Codec.encode (Codec.Fmt_E i1); Codec.encode (Codec.Fmt_R i2);
              Codec.encode (Codec.Fmt_R i3); Codec.encode (Codec.Fmt_T i4);
              Codec.encode (Codec.Fmt_R i5); Codec.encode (Codec.Fmt_T i6)]).
  assert (Hgs : Forall (fun w => Arch.ops.is_greedy w = true) gs).
  { subst gs. repeat constructor;
      rewrite is_greedy_encode by assumption;
      subst i1 i2 i3 i4 i5 i6 lui addi; destruct signed; reflexivity. }
  assert (Hlast : Arch.ops.is_greedy (Codec.encode (Codec.Fmt_T i7)) = false)
    by (rewrite is_greedy_encode by assumption; reflexivity).
  eexists. split.
  - eapply (run_single_bundle (gs ++ [Codec.encode (Codec.Fmt_T i7)])
              Vm.clean _ _ eq_refl).
    unfold Vm.run_instruction. rewrite drop_0.
    rewrite (run_instruction_from_bundle gs _ [] 0 _ Hgs Hlast).
    subst gs. cbn [app].
    erewrite (execute_all_step _ _ _ _ _ _ W1 X1).
    2: { apply execute_LUI_as_spec. regs_len. }
    erewrite (execute_all_step _ _ _ _ _ _ W2 X2).
    2: { apply (execute_ADDI_as_spec tag _ _ 0); [regs_len|reflexivity]. }
    erewrite (execute_all_step _ _ _ _ _ _ W3 X3).
    2: { apply (execute_ADDI_as_spec tag _ _ 0); [regs_len|reflexivity]. }
    erewrite (execute_all_step _ _ _ _ _ _ W4 X4).
    2: { eapply execute_arith_spec; [regs_len|regs_lookup|regs_lookup|reflexivity]. }
    erewrite (execute_all_step _ _ _ _ _ _ W5 X5).
    2: { apply (execute_ADDI_as_spec tag _ _ 0); [regs_len|reflexivity]. }
    erewrite (execute_all_step _ _ _ _ _ _ W6 X6).
    2: { eapply execute_arith_spec; [regs_len|regs_lookup|regs_lookup|reflexivity]. }
    erewrite (execute_all_step _ _ _ _ _ _ W7 X7).
    2: { eapply execute_arith_spec; [regs_len|regs_lookup|regs_lookup|reflexivity]. }
    reflexivity.
  - operands. rewrite list_lookup_insert_eq by regs_len.
    now rewrite li_sum.
Qed.

Lemma op_li_with_high_only (signed : bool) v :
  0 <= v < 2 ^ 64 -> 2 ^ 28 <= v -> v mod 2 ^ 28 < 2 ^ 24 ->
  let lui := if signed then Arch.ops.LUI else Arch.ops.LUIU in
  let addi := if signed then Arch.ops.ADDI else Arch.ops.ADDIU in
  let tag := if signed then Vm.Integer_signed else Vm.Integer_unsigned in
  exists s',
    Vm.run (Asm.op_li_with lui addi v) 0 Vm.clean = (s', Ok true)
    /\ Vm.registers s' !! 1%nat
       = Some (Vm.mkValue tag (Vm.holds_uint64 (v mod 2 ^ 28))).
Proof.
  intros Hv Hhigh Hlow lui addi tag. unfold Asm.op_li_with.
  pose proof (to_loading_parts_unsigned_closed v Hv) as Hparts.
  destruct (Z.ltb_spec (v mod 2 ^ 28) (2 ^ 24)); [|lia].
  rewrite Hparts. cbn [fst snd].
  assert (Hh : 0 < v / 2 ^ 28 < 2 ^ 36).
  { split; [apply Z.div_str_pos; lia | apply Z.div_lt_upper_bound; lia]. }
  pose proof (Z.mod_pos_bound v (2 ^ 28) ltac:(lia)) as Hl.
  destruct (Z.eqb_spec (v / 2 ^ 28) 0); [lia|].
  cbn [Z.eqb negb app].
  set (r1 := Arch.Register_access.make_local 1).
  set (i1 := Arch.ops.E.mk (Z.lor Arch.ops.GREEDY lui) r1 (v / 2 ^ 28)).
  set (i2 := Arch.ops.R.mk addi r1 Arch.Register_access.make_void (v mod 2 ^ 28)).
  change (Arch.ops.E.encode i1) with (Codec.encode (Codec.Fmt_E i1)).
  change (Arch.ops.R.encode i2) with (Codec.encode (Codec.Fmt_R i2)).
  assert (W1 : Codec.wf (Codec.Fmt_E i1)) by (subst i1 r1 lui; wf_operands).
  assert (W2 : Codec.wf (Codec.Fmt_R i2)) by (subst i2 r1 addi; wf_operands).
  assert (X1 : Dispatch.executor_of (Codec.Fmt_E i1)
               = Some (Vm.execute_LUI_as tag i1))
    by (subst i1 lui tag; now destruct signed).
  assert (X2 : Dispatch.executor_of (Codec.Fmt_R i2)
               = Some (Vm.execute_ADDI_as tag i2))
    by (subst i2 addi tag; now destruct signed).
  assert (Hgs : Forall (fun w => Arch.ops.is_greedy w = true)
                  [Codec.encode (Codec.Fmt_E i1)]).
  { repeat constructor. rewrite is_greedy_encode by assumption.
    subst i1 lui; destruct signed; reflexivity. }
  assert (Hlast : Arch.ops.is_greedy (Codec.encode (Codec.Fmt_R i2)) = false)
    by (rewrite is_greedy_encode by assumption;
        subst i2 addi; destruct signed; reflexivity).
  eexists. split.
  - eapply (run_single_bundle
              ([Codec.encode (Codec.Fmt_E i1)] ++ [Codec.encode (Codec.Fmt_R i2)])
              Vm.clean _ _ eq_refl).
    unfold Vm.run_instruction. rewrite drop_0.
    rewrite (run_instruction_from_bundle _ _ [] 0 _ Hgs Hlast).
    cbn [app].
    erewrite (execute_all_step _ _ _ _ _ _ W1 X1).
    2: { apply execute_LUI_as_spec. regs_len. }
    erewrite (execute_all_step _ _ _ _ _ _ W2 X2).
    2: { apply (execute_ADDI_as_spec tag _ _ 0); [regs_len|reflexivity]. }
    reflexivity.
  - operands. rewrite list_lookup_insert_eq by regs_len.
    unfold uint64_t. rewrite Z.add_0_l, (Z.mod_small (v mod 2 ^ 28)) by lia.
    reflexivity.
Qed.

Lemma op_li_with_low_only (signed : bool) v :
  2 ^ 24 <= v < 2 ^ 28 ->
  let lui := if signed then Arch.ops.LUI else Arch.ops.LUIU in
  let addi := if signed then Arch.ops.ADDI else Arch.ops.ADDIU in
  exists s',
    Vm.run (Asm.op_li_with lui addi v) 0 Vm.clean = (s', Ok true)
    /\ Vm.registers s' !! 1%nat = Some (Vm.mkValue Vm.Void (Vm.holds_uint64 v)).
Proof.
  intros Hv lui addi.
  set (tag := if signed then Vm.Integer_signed else Vm.Integer_unsigned).
  unfold Asm.op_li_with.
  pose proof (to_loading_parts_unsigned_closed v ltac:(lia)) as Hparts.
  rewrite (Z.mod_small v (2 ^ 28)) in Hparts by lia.
  destruct (Z.ltb_spec v (2 ^ 24)); [lia|].
  rewrite (Z.div_small v (2 ^ 28)) in Hparts by lia.
  rewrite Hparts. cbn [fst snd Z.eqb negb app].
  pose proof (Z.mod_pos_bound v 16 ltac:(lia)) as Hr.
  assert (Hb : 0 <= v / 16 < 2 ^ 24).
  { split; [apply Z.div_pos; lia | apply Z.div_lt_upper_bound; lia]. }
  set (r1 := Arch.Register_access.make_local 1).
  set (r2 := Arch.Register_access.make_local 2).
  set (r3 := Arch.Register_access.make_local 3).
  set (i2 := Arch.ops.R.mk (Z.lor Arch.ops.GREEDY addi) r2
               Arch.Register_access.make_void (v / 16)).
  set (i3 := Arch.ops.R.mk (Z.lor Arch.ops.GREEDY addi) r3
               Arch.Register_access.make_void 16).
  set (i4 := Arch.ops.T.mk (Z.lor Arch.ops.GREEDY Arch.ops.MUL) r2 r2 r3).
  set (i5 := Arch.ops.R.mk (Z.lor Arch.ops.GREEDY addi) r3
               Arch.Register_access.make_void (v mod 16)).
  set (i6 := Arch.ops.T.mk (Z.lor Arch.ops.GREEDY Arch.ops.ADD) r2 r2 r3).
  set (i7 := Arch.ops.T.mk Arch.ops.ADD r1 r1 r2).
  change (Arch.ops.R.encode i2) with (Codec.encode (Codec.Fmt_R i2)).
  change (Arch.ops.R.encode i3) with (Codec.encode (Codec.Fmt_R i3)).
  change (Arch.ops.T.encode i4) with (Codec.encode (Codec.Fmt_T i4)).
  change (Arch.ops.R.encode i5) with (Codec.encode (Codec.Fmt_R i5)).
  change (Arch.ops.T.encode i6) with (Codec.encode (Codec.Fmt_T i6)).
  change (Arch.ops.T.encode i7) with (Codec.encode (Codec.Fmt_T i7)).
  assert (W2 : Codec.wf (Codec.Fmt_R i2)) by (subst i2 r2 addi; wf_operands).
  assert (W3 : Codec.wf (Codec.Fmt_R i3)) by (subst i3 r3 addi; wf_operands).
  assert (W4 : Codec.wf (Codec.Fmt_T i4)) by (subst i4 r2 r3; wf_operands).
  assert (W5 : Codec.wf (Codec.Fmt_R i5)) by (subst i5 r3 addi; wf_operands).
  assert (W6 : Codec.wf (Codec.Fmt_T i6)) by (subst i6 r2 r3; wf_operands).
  assert (W7 : Codec.wf (Codec.Fmt_T i7)) by (subst i7 r1 r2; wf_operands).
  assert (X2 : Dispatch.executor_of (Codec.Fmt_R i2)
               = Some (Vm.execute_ADDI_as tag i2))
    by (subst i2 addi tag; now destruct signed).
  assert (X3 : Dispatch.executor_of (Codec.Fmt_R i3)
               = Some (Vm.execute_ADDI_as tag i3))
    by (subst i3 addi tag; now destruct signed).
  assert (X4 : Dispatch.executor_of (Codec.Fmt_T i4) = Some (Vm.execute_MUL i4))
    by reflexivity.
  assert (X5 : Dispatch.executor_of (Codec.Fmt_R i5)
               = Some (Vm.execute_ADDI_as tag i5))
    by (subst i5 addi tag; now destruct signed).
  assert (X6 : Dispatch.executor_of (Codec.Fmt_T i6) = Some (Vm.execute_ADD i6))
    by reflexivity.
  assert (X7 : Dispatch.executor_of (Codec.Fmt_T i7) = Some (Vm.execute_ADD i7))
    by reflexivity.
  set (gs := [Codec.encode (Codec.Fmt_R i2);
              Codec.encode (Codec.Fmt_R i3); Codec.encode (Codec.Fmt_T i4);
              Codec.encode (Codec.Fmt_R i5); Codec.encode (Codec.Fmt_T i6)]).
  assert (Hgs : Forall (fun w => Arch.ops.is_greedy w = true) gs).
  { subst gs. repeat constructor;
      rewrite is_greedy_encode by assumption;
      subst i2 i3 i4 i5 i6 addi; destruct signed; reflexivity. }
  assert (Hlast : Arch.ops.is_greedy (Codec.encode (Codec.Fmt_T i7)) = false)
    by (rewrite is_greedy_encode by assumption; reflexivity).
  eexists. split.
  - eapply (run_single_bundle (gs ++ [Codec.encode (Codec.Fmt_T i7)])
              Vm.clean _ _ eq_refl).
    unfold Vm.run_instruction. rewrite drop_0.
    rewrite (run_instruction_from_bundle gs _ [] 0 _ Hgs Hlast).
    subst gs. cbn [app].
    erewrite (execute_all_step _ _ _ _ _ _ W2 X2).
    2: { apply (execute_ADDI_as_spec tag _ _ 0); [regs_len|reflexivity]. }
    erewrite (execute_all_step _ _ _ _ _ _ W3 X3).
    2: { apply (execute_ADDI_as_spec tag _ _ 0); [regs_len|reflexivity]. }
    erewrite (execute_all_step _ _ _ _ _ _ W4 X4).
    2: { eapply execute_arith_spec; [regs_len|regs_lookup|regs_lookup|reflexivity]. }
    erewrite (execute_all_step _ _ _ _ _ _ W5 X5).
    2: { apply (execute_ADDI_as_spec tag _ _ 0); [regs_len|reflexivity]. }
    erewrite (execute_all_step _ _ _ _ _ _ W6 X6).
    2: { eapply execute_arith_spec; [regs_len|regs_lookup|regs_lookup|reflexivity]. }
    erewrite (execute_all_step _ _ _ _ _ _ W7 X7).
    2: { eapply execute_arith_spec; [regs_len|regs_lookup|regs_lookup|reflexivity]. }
    reflexivity.
  - operands. rewrite list_lookup_insert_eq by regs_len.
    do 3 f_equal.
    pose proof (Z.div_mod v 16 ltac:(lia)).
    unfold uint64_t. rewrite !Z.add_0_l.
    rewrite (Z.mod_small (v / 16)), (Z.mod_small 16), (Z.mod_small (v mod 16))
      by lia.
    rewrite (Z.mod_small (v / 16 * 16)) by lia.
    rewrite (Z.mod_small (v / 16 * 16 + v mod 16)) by lia.
    rewrite Z.mod_small by lia. lia.
Qed.

(** X6. Where the load-immediate expansion is right. For a 64-bit value [v]
    below [2^24], or with high 36 bits that are not all zero and low 28 bits
    that do not fit in 24, running the words of [op_li] on a clean register
    file ends normally with register 1 holding [v], tagged Unsigned; the
    words of the signed overload, for an [int64_t] with the same 64 bits,
    leave [v] tagged Signed. *)
Theorem op_li_loads_value (v : Z) :
  0 <= v < 2 ^ 64 ->
  v < 2 ^ 24 \/ (2 ^ 28 <= v /\ 2 ^ 24 <= v mod 2 ^ 28) ->
  (exists s',
     Vm.run (Asm.op_li v) 0 Vm.clean = (s', Ok true)
     /\ Vm.registers s' !! 1%nat
        = Some (Vm.mkValue Vm.Integer_unsigned (Vm.holds_uint64 v)))
  /\ (forall x, uint64_t x = v ->
      exists s',
        Vm.run (Asm.op_li_signed x) 0 Vm.clean = (s', Ok true)
        /\ Vm.registers s' !! 1%nat
           = Some (Vm.mkValue Vm.Integer_signed (Vm.holds_uint64 v))).
Proof.
  intros Hv Hcase. split; [|intros x <-]; unfold Asm.op_li, Asm.op_li_signed.
  - destruct Hcase as [Hs|[Hh Hl]].
    + apply (op_li_with_small false); lia.
    + now apply (op_li_with_full false).
  - destruct Hcase as [Hs|[Hh Hl]].
    + apply (op_li_with_small true); lia.
    + now apply (op_li_with_full true).
Qed.

Lemma op_li_loads_value_witness :
  exists s',
    Vm.run (Asm.op_li 0xdeadbeefdeadbeef) 0 Vm.clean = (s', Ok true)
    /\ Vm.registers s' !! 1%nat
       = Some (Vm.mkValue Vm.Integer_unsigned (Vm.holds_uint64 0xdeadbeefdeadbeef)).
Proof.
  refine (proj1 (op_li_loads_value 0xdeadbeefdeadbeef _ _)).
  - lia.
  - right. vm_compute. split; discriminate.
Defined.

(** X7. Where the load-immediate expansion is wrong. When the high 36 bits
    of [v] are not all zero and its low 28 bits fit in 24, register 1 ends
    with the low 28 bits of [v] alone, under the tag of the overload; when
    [v] is below [2^28] and does not fit in 24 bits, register 1 ends with
    [v] under the tag Void, for both overloads. *)
Theorem op_li_mishandled_values (v : Z) :
  0 <= v < 2 ^ 64 ->
  (2 ^ 28 <= v -> v mod 2 ^ 28 < 2 ^ 24 ->
   (exists s',
      Vm.run (Asm.op_li v) 0 Vm.clean = (s', Ok true)
      /\ Vm.registers s' !! 1%nat
         = Some (Vm.mkValue Vm.Integer_unsigned (Vm.holds_uint64 (v mod 2 ^ 28))))
   /\ (forall x, uint64_t x = v ->
       exists s',
         Vm.run (Asm.op_li_signed x) 0 Vm.clean = (s', Ok true)
         /\ Vm.registers s' !! 1%nat
            = Some (Vm.mkValue Vm.Integer_signed (Vm.holds_uint64 (v mod 2 ^ 28)))))
  /\ (2 ^ 24 <= v < 2 ^ 28 ->
      (exists s',
         Vm.run (Asm.op_li v) 0 Vm.clean = (s', Ok true)
         /\ Vm.registers s' !! 1%nat
            = Some (Vm.mkValue Vm.Void (Vm.holds_uint64 v)))
      /\ (forall x, uint64_t x = v ->
          exists s',
            Vm.run (Asm.op_li_signed x) 0 Vm.clean = (s', Ok true)
            /\ Vm.registers s' !! 1%nat
               = Some (Vm.mkValue Vm.Void (Vm.holds_uint64 v)))).
Proof.
  intros Hv. split.
  - intros Hh Hl. split.
    + now apply (op_li_with_high_only false).
    + intros x <-. now apply (op_li_with_high_only true).
  - intros Hl. split.
    + now apply (op_li_with_low_only false).
    + intros x <-. now apply (op_li_with_low_only true).
Qed.

Lemma op_li_mishandled_values_witness :
  exists s',
    Vm.run (Asm.op_li 0xdeadbeefd0adbeef) 0 Vm.clean = (s', Ok true)
    /\ Vm.registers s' !! 1%nat
       = Some (Vm.mkValue Vm.Integer_unsigned
                 (Vm.holds_uint64 (0xdeadbeefd0adbeef mod 2 ^ 28))).
Proof.
  refine (proj1 (proj1 (op_li_mishandled_values 0xdeadbeefd0adbeef _) _ _)).
  - lia.
  - vm_compute. discriminate.
  - vm_compute. reflexivity.
Defined.

(** ** The shape of the expansion *)

Lemma is_greedy_E i :
  Codec.wf (Codec.Fmt_E i) ->
  Arch.ops.is_greedy (Arch.ops.E.encode i) = Arch.ops.is_greedy (Arch.ops.E.opcode i).
Proof. apply (is_greedy_encode (Codec.Fmt_E i)). Qed.

Lemma is_greedy_R i :
  Codec.wf (Codec.Fmt_R i) ->
  Arch.ops.is_greedy (Arch.ops.R.encode i) = Arch.ops.is_greedy (Arch.ops.R.opcode i).
Proof. apply (is_greedy_encode (Codec.Fmt_R i)). Qed.

Lemma is_greedy_T i :
  Codec.wf (Codec.Fmt_T i) ->
  Arch.ops.is_greedy (Arch.ops.T.encode i) = Arch.ops.is_greedy (Arch.ops.T.opcode i).
Proof. apply (is_greedy_encode (Codec.Fmt_T i)). Qed.

Ltac greedy_bit signed :=
  first [ rewrite is_greedy_E by wf_operands
        | rewrite is_greedy_R by wf_operands
        | rewrite is_greedy_T by wf_operands ];
  destruct signed; reflexivity.

Lemma op_li_with_shape (signed : bool) v :
  0 <= v < 2 ^ 64 ->
  let lui := if signed then Arch.ops.LUI else Arch.ops.LUIU in
  let addi := if signed then Arch.ops.ADDI else Arch.ops.ADDIU in
  exists gs last,
    Asm.op_li_with lui addi v = gs ++ [last]
    /\ Forall (fun w => Arch.ops.is_greedy w = true) gs
    /\ Arch.ops.is_greedy last = false
    /\ length gs
       = ((if (v <? 2 ^ 28)%Z then 0 else 1)
          + (if (v mod 2 ^ 28 <? 2 ^ 24)%Z then 0 else 5))%nat.
Proof.
  intros Hv lui addi. unfold Asm.op_li_with.
  rewrite (to_loading_parts_unsigned_closed v Hv).
  assert (Hh : 0 <= v / 2 ^ 28 < 2 ^ 36).
  { split; [apply Z.div_pos; lia | apply Z.div_lt_upper_bound; lia]. }
  pose proof (Z.mod_pos_bound v (2 ^ 28) ltac:(lia)) as Hl.
  pose proof (Z.mod_pos_bound v 16 ltac:(lia)) as Hr.
  assert (Hb : 0 <= v mod 2 ^ 28 / 16 < 2 ^ 24).
  { split; [apply Z.div_pos; lia | apply Z.div_lt_upper_bound; lia]. }
  assert (Hzero : (v / 2 ^ 28 =? 0) = (v <? 2 ^ 28)).
  { destruct (Z.ltb_spec v (2 ^ 28)).
    - apply Z.eqb_eq, Z.div_small. lia.
    - apply Z.eqb_neq.
      assert (0 < v / 2 ^ 28) by (apply Z.div_str_pos; lia). lia. }
  destruct (Z.ltb_spec (v mod 2 ^ 28) (2 ^ 24)); cbn [fst snd];
    rewrite Hzero; destruct (v <? 2 ^ 28); cbn [Z.eqb negb app];
    eexists _, _;
    (split; [apply (app_removelast_last 0); discriminate|]);
    cbn [removelast last List.last length Nat.add];
    (split; [repeat constructor; subst lui addi; greedy_bit signed|]);
    (split; [subst lui addi; greedy_bit signed | reflexivity]).
Qed.

(** X8. The words that [op_li] emits, for either overload and every 64-bit
    value, are one bundle: every word but the last carries the greedy bit
    and the last does not. There are one or six words, after one more (the
    LUI) when the value does not fit in 28 bits. *)
Theorem op_li_is_one_bundle (v : Z) :
  0 <= v < 2 ^ 64 ->
  let count :=
    ((if (v <? 2 ^ 28)%Z then 0 else 1)
     + (if (v mod 2 ^ 28 <? 2 ^ 24)%Z then 0 else 5))%nat in
  (exists gs last,
     Asm.op_li v = gs ++ [last]
     /\ Forall (fun w => Arch.ops.is_greedy w = true) gs
     /\ Arch.ops.is_greedy last = false
     /\ length gs = count)
  /\ (forall x, uint64_t x = v ->
      exists gs last,
        Asm.op_li_signed x = gs ++ [last]
        /\ Forall (fun w => Arch.ops.is_greedy w = true) gs
        /\ Arch.ops.is_greedy last = false
        /\ length gs = count).
Proof.
  intros Hv count. split.
  - now apply (op_li_with_shape false).
  - intros x <-. now apply (op_li_with_shape true).
Qed.

Lemma op_li_is_one_bundle_witness :
  exists gs last,
    Asm.op_li 0xdeadbeefdeadbeef = gs ++ [last]
    /\ Forall (fun w => Arch.ops.is_greedy w = true) gs
    /\ Arch.ops.is_greedy last = false
    /\ length gs = 6%nat.
Proof.
  refine (proj1 (op_li_is_one_bundle 0xdeadbeefdeadbeef _)). lia.
Defined.

(** ** What the dispatcher leaves alone *)

Lemma bind_None_inv {S A} (c : M S A) (x : nat) s s' :
  bind c (fun _ => ret (Some x)) s <> (s', Ok (@None nat)).
Proof.
  unfold bind, ret. destruct (c s) as [s1 [a|e|]]; congruence.
Qed.

Lemma execute_raw_nullptr raw ip s s' :
  Vm.execute_raw raw ip s = (s', Ok None) ->
  Vm.registers s' = Vm.registers s.
Proof.
  unfold Vm.execute_raw.
  destruct (Arch.ops.FORMAT_of _) as [[]|];
    repeat match goal with
           | |- (if ?b then _ else _) _ = _ -> _ => destruct b
           | |- bind (Vm.print _) (fun _ => if ?b then _ else _) _ = _ -> _ =>
               destruct b
           end;
    intros H;
    try (exfalso; exact (bind_None_inv _ _ _ _ H));
    try (unfold ret in H; congruence);
    try (cbv [bind Vm.print modify ret] in H; injection H as <-; reflexivity).
  all: unfold bind at 1 in H; cbn in H;
    try (exfalso; exact (bind_None_inv _ _ _ _ H));
    try (unfold ret in H; congruence).
Qed.

(** X9. The dispatcher is straight-line and stops without side effect on the
    registers: what it returns is the next word or [nullptr], never another
    address, and whenever it returns [nullptr] (HALT, a T- or S-format
    opcode without executor, any D- or F-format word) the register file is
    as it was. *)
Theorem execute_raw_next_or_stop (raw : Arch.instruction_type) (ip : nat)
    (s s' : Vm.machine) (next : option nat) :
  Vm.execute_raw raw ip s = (s', Ok next) ->
  (forall p, next = Some p -> p = S ip)
  /\ (next = None -> Vm.registers s' = Vm.registers s).
Proof.
  intros H. split.
  - intros p ->. now apply (execute_raw_next _ _ _ _ _ H).
  - intros ->. now apply (execute_raw_nullptr _ _ _ _ H).
Qed.

Lemma execute_raw_next_or_stop_witness :
  Vm.registers
    (Vm.mkMachine (Vm.registers zero_divisor)
       (Vm.cerr zero_divisor ++ [Vm.Line_N Arch.ops.HALT]))
  = Vm.registers zero_divisor.
Proof.
  refine (proj2 (execute_raw_next_or_stop Arch.ops.HALT 4 zero_divisor _ None _)
            eq_refl).
  reflexivity.
Defined.

(** ** Safety of the interpreter *)

Lemma returns_ret {A} (P : A -> Prop) a : P a -> Safe.returns P (ret a).
Proof. intros HP s Hs. now exists s, a. Qed.

Lemma returns_bind {A B} (P : A -> Prop) (Q : B -> Prop)
    (c : M Vm.machine A) (k : A -> M Vm.machine B) :
  Safe.returns P c -> (forall a, P a -> Safe.returns Q (k a)) ->
  Safe.returns Q (bind c k).
Proof.
  intros Hc Hk s Hs. destruct (Hc s Hs) as (s1 & a & E & Hs1 & Ha).
  destruct (Hk a Ha s1 Hs1) as (s2 & b & E2 & Hs2 & Hb).
  exists s2, b. now rewrite (bind_Ok _ _ _ _ _ E).
Qed.

Lemma returns_weaken {A} (P Q : A -> Prop) c :
  (forall a, P a -> Q a) -> Safe.returns P c -> Safe.returns Q c.
Proof.
  intros HPQ Hc s Hs. destruct (Hc s Hs) as (s1 & a & E & Hs1 & Ha). eauto 6.
Qed.

Lemma index_of_decoded raw :
  (Z.to_nat (Arch.Register_access.index (Arch.Register_access.decode raw))
   < 256)%nat.
Proof.
  cbn. change 255 with (Z.ones 8). rewrite Z.land_ones by lia.
  pose proof (Z.mod_pos_bound raw (2 ^ 8) ltac:(lia)). lia.
Qed.

Lemma returns_at i :
  (Z.to_nat i < 256)%nat ->
  Safe.returns (fun ref => (ref < 256)%nat) (Vm.at_ i).
Proof.
  intros Hi s [Hlen Hu]. exists s, (Z.to_nat i).
  rewrite at_in_range by lia. repeat split; assumption.
Qed.

Lemma returns_read ref :
  (ref < 256)%nat ->
  Safe.returns (fun v => Vm.is_boxed v = false) (Vm.read ref).
Proof.
  intros Href s [Hlen Hu].
  destruct (lookup_lt_is_Some_2 (Vm.registers s) ref ltac:(lia)) as [v Hv].
  exists s, v. rewrite (read_slot _ _ _ Hv). repeat split; try assumption.
  unfold Safe.unboxed in Hu. rewrite Forall_forall in Hu.
  apply Hu, list_elem_of_lookup. eauto.
Qed.

Lemma returns_get_uint64 v :
  Vm.is_boxed v = false ->
  Safe.returns (fun _ => True) (Vm.get_uint64 (Vm.value v)).
Proof.
  unfold Vm.is_boxed. destruct (Vm.value v); [|discriminate].
  intros _. now apply returns_ret.
Qed.

Lemma unboxed_alter (f : Vm.Value -> Vm.Value) ref l :
  (forall v, Vm.is_boxed v = false -> Vm.is_boxed (f v) = false) ->
  Safe.unboxed l -> Safe.unboxed (alter f ref l).
Proof.
  intros Hf Hl. unfold Safe.unboxed in *. rewrite Forall_forall in *.
  intros v Hv. apply list_elem_of_lookup in Hv as [j Hj].
  destruct (decide (j = ref)) as [->|Hne].
  - rewrite list_lookup_alter_eq in Hj.
    destruct (l !! ref) as [u|] eqn:E; [|discriminate].
    injection Hj as <-. apply Hf, Hl, list_elem_of_lookup. eauto.
  - rewrite list_lookup_alter_ne in Hj by done.
    apply Hl, list_elem_of_lookup. eauto.
Qed.

Lemma returns_write_type ref t :
  Safe.returns (fun _ => True) (Vm.write_type ref t).
Proof.
  intros s [Hlen Hu]. eexists _, tt. split; [reflexivity|].
  split; [|exact I]. split; cbn [Vm.registers].
  - now rewrite length_alter.
  - now apply unboxed_alter.
Qed.

Lemma returns_write_value ref x :
  Safe.returns (fun _ => True) (Vm.write_value ref (Vm.holds_uint64 x)).
Proof.
  intros s [Hlen Hu]. eexists _, tt. split; [reflexivity|].
  split; [|exact I]. split; cbn [Vm.registers].
  - now rewrite length_alter.
  - now apply unboxed_alter.
Qed.

Lemma returns_print l : Safe.returns (fun _ => True) (Vm.print l).
Proof.
  intros s Hs. eexists _, tt. split; [reflexivity|]. now split.
Qed.

Lemma returns_size :
  Safe.returns (fun n => n = 256%nat)
    (gets (fun s => length (Vm.registers s))).
Proof. intros s [Hlen Hu]. exists s, (length (Vm.registers s)). now repeat split. Qed.

Lemma returns_for_range n (body : nat -> M Vm.machine unit) :
  (forall i, (i < n)%nat -> Safe.returns (fun _ => True) (body i)) ->
  Safe.returns (fun _ => True) (for_range n body).
Proof.
  intros Hbody. unfold for_range.
  assert (Hall : Forall (fun i => (i < n)%nat) (seq 0 n)).
  { apply Forall_forall. intros i Hi. apply list_elem_of_In, in_seq in Hi. lia. }
  induction Hall as [|i l Hi _ IH]; cbn [foldr].
  - now apply returns_ret.
  - eapply returns_bind; [apply Hbody, Hi | intros _ _; exact IH].
Qed.

Ltac returns_step :=
  match goal with
  | |- Safe.returns _ (bind (Vm.at_ _) _) =>
      eapply returns_bind;
      [apply returns_at; first [apply index_of_decoded | lia] | intros ? ?]
  | |- Safe.returns _ (bind (Vm.read _) _) =>
      eapply returns_bind; [apply returns_read; assumption | intros ? ?]
  | |- Safe.returns _ (bind (Vm.get_uint64 _) _) =>
      eapply returns_bind; [apply returns_get_uint64; assumption | intros ? ?]
  | |- Safe.returns _ (bind (Vm.write_type _ _) _) =>
      eapply returns_bind; [apply returns_write_type | intros ? ?]
  | |- Safe.returns _ (bind (Vm.write_value _ _) _) =>
      eapply returns_bind; [apply returns_write_value | intros ? ?]
  | |- Safe.returns _ (bind (Vm.print _) _) =>
      eapply returns_bind; [apply returns_print | intros ? ?]
  | |- Safe.returns _ (bind (ret _) _) =>
      eapply returns_bind; [apply (returns_ret (fun _ => True)); exact I | intros ? ?]
  | |- Safe.returns _ (Vm.print _) =>
      eapply returns_weaken; [|apply returns_print]; intros; exact I
  | |- Safe.returns _ (ret _) => apply returns_ret; exact I
  | |- Safe.returns _ (if ?b then _ else _) => destruct b
  end.

Lemma returns_execute_arith g (op : Arch.ops.T.t) :
  (Z.to_nat (Arch.Register_access.index (Arch.ops.T.out op)) < 256)%nat ->
  (Z.to_nat (Arch.Register_access.index (Arch.ops.T.lhs op)) < 256)%nat ->
  (Z.to_nat (Arch.Register_access.index (Arch.ops.T.rhs op)) < 256)%nat ->
  Safe.returns (fun _ => True)
    (Vm.execute_arith (fun a b => ret (g a b)) op).
Proof.
  intros Ho Hl Hr. unfold Vm.execute_arith. repeat returns_step.
Qed.

Lemma returns_dump_slot i each :
  Vm.is_boxed each = false ->
  Safe.returns (fun _ => True) (Vm.dump_slot i each).
Proof.
  intros Hb. unfold Vm.dump_slot. rewrite Hb.
  returns_step. destruct (Vm.type_of_unboxed each); repeat returns_step.
Qed.

Lemma returns_execute_EBREAK op :
  Safe.returns (fun _ => True) (Vm.execute_EBREAK op).
Proof.
  unfold Vm.execute_EBREAK.
  eapply returns_bind; [apply returns_size|]. intros n ->.
  apply returns_for_range. intros i Hi.
  eapply returns_bind; [apply returns_at; lia | intros ref Href].
  eapply returns_bind; [apply returns_read; assumption | intros each Heach].
  destruct (Vm.is_void each); [now apply returns_ret|].
  now apply returns_dump_slot.
Qed.

Lemma returns_execute_raw raw ip :
  Safe.returns (fun _ => True) (Vm.execute_raw raw ip).
Proof.
  unfold Vm.execute_raw.
  destruct (Arch.ops.FORMAT_of _) as [[]|].
  - (* N *)
    eapply returns_bind; [apply returns_print|]. intros _ _.
    repeat match goal with
           | |- Safe.returns _ (if ?b then _ else _) => destruct b
           end; try (apply returns_ret; exact I).
    eapply returns_bind; [apply returns_execute_EBREAK|].
    intros; apply returns_ret; exact I.
  - (* T *)
    repeat match goal with
           | |- Safe.returns _ (if ?b then _ else _) => destruct b
           end.
    + eapply returns_bind;
        [apply returns_execute_arith; apply index_of_decoded|].
      intros; apply returns_ret; exact I.
    + eapply returns_bind;
        [apply returns_execute_arith; apply index_of_decoded|].
      intros; apply returns_ret; exact I.
    + repeat returns_step.
  - (* D *) repeat returns_step.
  - (* S *)
    destruct (_ =? _); [|repeat returns_step].
    unfold Vm.execute_DELETE. eapply returns_bind; [|intros; apply returns_ret; exact I].
    repeat returns_step.
  - (* F *) repeat returns_step.
  - (* E *)
    unfold Vm.execute_LUI, Vm.execute_LUIU, Vm.execute_LUI_as.
    repeat match goal with
           | |- Safe.returns _ (if ?b then _ else _) => destruct b
           end; try (apply returns_ret; exact I);
      (eapply returns_bind; [|intros; apply returns_ret; exact I]);
      repeat returns_step.
  - (* R *)
    unfold Vm.execute_ADDI, Vm.execute_ADDIU, Vm.execute_ADDI_as.
    repeat match goal with
           | |- Safe.returns _ (if ?b then _ else _) => destruct b
           end; try (apply returns_ret; exact I);
      (eapply returns_bind; [|intros; apply returns_ret; exact I]);
      returns_step;
      (eapply returns_bind;
       [ destruct (Arch.Register_access.is_void _);
         [apply (returns_ret (fun _ => True)); exact I
         | repeat returns_step;
           eapply returns_weaken; [|apply returns_get_uint64; assumption];
           intros; exact I ]
       | intros ? ? ]);
      repeat returns_step.
  - apply returns_ret; exact I.
Qed.

Lemma returns_run_instruction_from rest ip :
  (exists k w, rest !! k = Some w /\ Arch.ops.is_greedy w = false) ->
  Safe.returns
    (fun next => forall p, next = Some p -> (ip < p <= ip + length rest)%nat)
    (Vm.run_instruction_from rest ip).
Proof.
  revert ip. induction rest as [|w rest IH]; intros ip (k & w' & Hk & Hw') s Hs.
  - discriminate.
  - cbn [Vm.run_instruction_from length].
    destruct (returns_execute_raw w ip s Hs) as (s1 & next & E & Hs1 & _).
    rewrite (bind_Ok _ _ _ _ _ E).
    destruct next as [p|].
    2:{ exists s1, None. split; [reflexivity|]. split; [exact Hs1|].
        intros p [=]. }
    apply execute_raw_next in E as ->.
    destruct (Arch.ops.is_greedy w) eqn:G.
    + destruct k as [|k]; [cbn in Hk; congruence|].
      destruct (IH (S ip) (ex_intro _ k (ex_intro _ w' (conj Hk Hw'))) s1 Hs1)
        as (s2 & next & E2 & Hs2 & Hnext).
      exists s2, next. split; [exact E2|]. split; [exact Hs2|].
      intros p Hp. destruct (Hnext p Hp). lia.
    + exists s1, (Some (S ip)). split; [reflexivity|]. split; [exact Hs1|].
      intros p [= <-]. lia.
Qed.

Lemma last_word_in_drop (text : list Arch.instruction_type) ip :
  (forall w, last text = Some w -> Arch.ops.is_greedy w = false) ->
  (ip < length text)%nat ->
  exists k w, drop ip text !! k = Some w /\ Arch.ops.is_greedy w = false.
Proof.
  intros Hlast Hip.
  destruct (lookup_lt_is_Some_2 text (length text - 1)%nat ltac:(lia)) as [w Hw].
  exists (length text - 1 - ip)%nat, w. split.
  - rewrite lookup_drop. rewrite <- Hw. f_equal. lia.
  - apply Hlast. rewrite last_lookup. rewrite <- Hw. f_equal. lia.
Qed.

Lemma returns_run_cycle left text i ip :
  (forall w, last text = Some w -> Arch.ops.is_greedy w = false) ->
  (ip <= length text)%nat ->
  Safe.returns (fun p => (p <= length text)%nat)
    (Vm.run_cycle left text (length text) i ip).
Proof.
  intros Hlast. revert i ip. induction left as [|left IH]; intros i ip Hip;
    cbn [Vm.run_cycle].
  - now apply returns_ret.
  - destruct (_ && _) eqn:Hcond; [|now apply returns_ret].
    apply andb_true_iff in Hcond as [_ Hne].
    apply negb_true_iff, Nat.eqb_neq in Hne.
    destruct (lookup_lt_is_Some_2 text ip ltac:(lia)) as [word Hword].
    unfold Vm.fetch. rewrite Hword.
    eapply returns_bind; [apply (returns_ret (fun _ => True)); exact I|].
    intros word' _.
    eapply returns_bind; [apply returns_print|]. intros _ _.
    eapply returns_bind.
    { apply returns_run_instruction_from, last_word_in_drop; [assumption|lia]. }
    intros next Hnext. apply IH.
    destruct next as [p|]; [|lia].
    destruct (Hnext p eq_refl). rewrite length_drop in *. lia.
Qed.

Lemma returns_run_loop fuel text ip :
  (forall w, last text = Some w -> Arch.ops.is_greedy w = false) ->
  (ip <= length text)%nat ->
  Safe.returns (fun _ => True) (Vm.run_loop fuel text ip).
Proof.
  intros Hlast. revert ip. induction fuel as [|fuel IH]; intros ip Hip;
    cbn [Vm.run_loop]; destruct (ip =? length text)%nat;
    try (now apply returns_ret).
  eapply returns_bind; [apply returns_print|]. intros _ _.
  eapply returns_bind; [now apply returns_run_cycle|]. intros p Hp.
  destruct (p =? length text)%nat.
  - eapply returns_bind; [apply returns_print|]. intros _ _.
    now apply returns_ret.
  - eapply returns_bind; [apply returns_print|]. intros _ _. now apply IH.
Qed.

(** X10. On a register file of 256 slots none of which holds a pointer, and
    a text that is empty or ends with a word without the greedy bit, [run]
    always comes to its end: no executor throws, no read leaves the text or
    the register file, and the loop stops; the register file still has 256
    slots without pointers. *)
Theorem run_is_safe (text : list Arch.instruction_type)
    (registers : list Vm.Value) :
  length registers = 256%nat ->
  Forall (fun v => Vm.is_boxed v = false) registers ->
  (forall w, last text = Some w -> Arch.ops.is_greedy w = false) ->
  exists s',
    Vm.run text 0 (Vm.mkMachine registers []) = (s', Ok true)
    /\ length (Vm.registers s') = 256%nat
    /\ Forall (fun v => Vm.is_boxed v = false) (Vm.registers s').
Proof.
  intros Hlen Hu Hlast.
  destruct (returns_run_loop (length text) text 0 Hlast ltac:(lia)
              (Vm.mkMachine registers []) (conj Hlen Hu))
    as (s' & b & E & [Hlen' Hu'] & _).
  pose proof (run_finishes text (Vm.mkMachine registers [])) as Hfuel.
  unfold Vm.run in *. rewrite E in Hfuel. cbn [snd] in Hfuel.
  exists s'. destruct b; [|congruence]. now repeat split.
Qed.

Lemma run_is_safe_witness :
  exists s',
    Vm.run sample_program 0 (Vm.mkMachine (Vm.registers Vm.clean) [])
    = (s', Ok true)
    /\ length (Vm.registers s') = 256%nat
    /\ Forall (fun v => Vm.is_boxed v = false) (Vm.registers s').
Proof.
  apply (run_is_safe sample_program (Vm.registers Vm.clean)).
  - reflexivity.
  - apply Forall_forall. intros v Hv.
    apply elem_of_replicate in Hv as [-> _]. reflexivity.
  - intros w Hw. vm_compute in Hw. injection Hw as <-. reflexivity.
Defined.

(** ** A CALL or ATOM too close to the start of the text *)

Lemma text_at_before_start {S} (text : list Arch.instruction_type) (i : Z) (s : S) :
  Z.of_nat (length text) < 2 ^ 61 ->
  -2 <= i < 0 ->
  Stage.text_at text i s = (s, Throw out_of_range).
Proof.
  intros Hlen Hi. unfold Stage.text_at, uint64_t.
  replace (i mod 2 ^ 64) with (i + 2 ^ 64)
    by (apply Z.mod_unique with (-1); lia).
  rewrite lookup_ge_None_2 by lia. reflexivity.
Qed.

Lemma push_reloc_before_start text (i : nat) kind table :
  Z.of_nat (length text) < 2 ^ 61 ->
  (i < 2)%nat ->
  Stage.push_reloc text (Z.of_nat i) kind table = (table, Throw out_of_range).
Proof.
  intros Hlen Hi. unfold Stage.push_reloc.
  assert (Hneg : -2 <= Z.of_nat i - 2 < 0) by lia.
  now rewrite (bind_Throw _ _ _ _ _ (text_at_before_start text _ table Hlen Hneg)).
Qed.

Lemma reloc_body_plain text (i : nat) each table :
  Z.of_nat (length text) < 2 ^ 61 ->
  text !! i = Some each -> Expected.reloc_kind each = None ->
  (let* each := Stage.text_at text (Z.of_nat i) in
   let op := Z.land each Arch.ops.OPCODE_MASK in
   if op =? Arch.ops.CALL
   then Stage.push_reloc text (Z.of_nat i) Stage.R_VIUA_JUMP_SLOT
   else if op =? Arch.ops.ATOM
        then Stage.push_reloc text (Z.of_nat i) Stage.R_VIUA_OBJECT
        else ret tt) table
  = (table, Ok tt).
Proof.
  intros Hlen Hi Hk.
  rewrite (bind_Ok _ _ _ _ _ (text_at_in_range _ _ _ _ Hlen Hi)). cbv zeta.
  unfold Expected.reloc_kind in Hk.
  destruct (Z.land each Arch.ops.OPCODE_MASK =? Arch.ops.CALL); [discriminate|].
  destruct (Z.land each Arch.ops.OPCODE_MASK =? Arch.ops.ATOM); [discriminate|].
  reflexivity.
Qed.

Lemma reloc_body_early text (i : nat) each kind table :
  Z.of_nat (length text) < 2 ^ 61 ->
  text !! i = Some each -> Expected.reloc_kind each = Some kind ->
  (i < 2)%nat ->
  (let* each := Stage.text_at text (Z.of_nat i) in
   let op := Z.land each Arch.ops.OPCODE_MASK in
   if op =? Arch.ops.CALL
   then Stage.push_reloc text (Z.of_nat i) Stage.R_VIUA_JUMP_SLOT
   else if op =? Arch.ops.ATOM
        then Stage.push_reloc text (Z.of_nat i) Stage.R_VIUA_OBJECT
        else ret tt) table
  = (table, Throw out_of_range).
Proof.
  intros Hlen Hi Hk Hearly.
  rewrite (bind_Ok _ _ _ _ _ (text_at_in_range _ _ _ _ Hlen Hi)). cbv zeta.
  unfold Expected.reloc_kind in Hk.
  destruct (Z.land each Arch.ops.OPCODE_MASK =? Arch.ops.CALL);
    [now apply push_reloc_before_start|].
  destruct (Z.land each Arch.ops.OPCODE_MASK =? Arch.ops.ATOM);
    [now apply push_reloc_before_start|discriminate].
Qed.

(** X11. When the first or the second word of a text is a CALL or an ATOM,
    with no CALL or ATOM before it, the index [i - 2] wraps around in
    [size_t], [text.at] throws [std::out_of_range], and no relocation table
    is made. *)
Theorem make_reloc_table_throws_near_start
    (text : list Arch.instruction_type) (i : nat)
    (each : Arch.instruction_type) (kind : Stage.R_VIUA) :
  Z.of_nat (length text) < 2 ^ 61 ->
  (i < 2)%nat ->
  text !! i = Some each ->
  Expected.reloc_kind each = Some kind ->
  (forall j e, (j < i)%nat -> text !! j = Some e -> Expected.reloc_kind e = None) ->
  Stage.make_reloc_table text = Throw out_of_range.
Proof.
  intros Hlen Hi Heach Hkind Hbefore.
  unfold Stage.make_reloc_table, for_range.
  apply lookup_lt_Some in Heach as Hlt.
  destruct text as [|w0 text]; [cbn in Hlt; lia|].
  cbn [length seq foldr].
  destruct i as [|[|i]]; [| |lia].
  - rewrite (bind_Throw _ _ _ _ _
               (reloc_body_early (w0 :: text) 0 each kind [] Hlen Heach Hkind Hi)).
    reflexivity.
  - rewrite (bind_Ok _ _ _ _ _
               (reloc_body_plain (w0 :: text) 0 w0 [] Hlen eq_refl
                  (Hbefore 0%nat w0 ltac:(lia) eq_refl))).
    destruct text as [|w1 text]; [discriminate|].
    cbn [length seq foldr].
    rewrite (bind_Throw _ _ _ _ _
               (reloc_body_early (w0 :: w1 :: text) 1 each kind [] Hlen Heach
                  Hkind Hi)).
    reflexivity.
Qed.

Lemma make_reloc_table_throws_near_start_witness :
  Stage.make_reloc_table (drop 1 sample_call) = Throw out_of_range.
Proof.
  refine (make_reloc_table_throws_near_start (drop 1 sample_call) 1
            (Arch.ops.D.encode
               (Arch.ops.D.mk Arch.ops.CALL (Arch.Register_access.make_local 1)
                  (Arch.Register_access.make_local 2)))
            Stage.R_VIUA_JUMP_SLOT _ _ _ _ _).
  - cbn. lia.
  - lia.
  - reflexivity.
  - reflexivity.
  - intros j e Hj He. destruct j as [|j]; [|lia].
    injection He as <-. reflexivity.
Defined.

(** ** Lines that only the loop prints *)

Section Keeps.
Context {A : Type} (pick : Vm.line -> option A).

Lemma marks_app l1 l2 :
  Marks.marks pick (l1 ++ l2) = Marks.marks pick l1 ++ Marks.marks pick l2.
Proof. apply omap_app. Qed.

Lemma keeps_ret {B} (b : B) : Marks.keeps pick (ret b).
Proof. intros s s' r [= <- _]. reflexivity. Qed.

Lemma keeps_throw {B} e : Marks.keeps pick (throw (A := B) e).
Proof. intros s s' r [= <- _]. reflexivity. Qed.

Lemma keeps_undefined {B} : Marks.keeps pick (undefined (A := B)).
Proof. intros s s' r [= <- _]. reflexivity. Qed.

Lemma keeps_gets {B} (f : Vm.machine -> B) : Marks.keeps pick (gets f).
Proof. intros s s' r [= <- _]. reflexivity. Qed.

Lemma keeps_bind {B C} (c : M Vm.machine B) (k : B -> M Vm.machine C) :
  Marks.keeps pick c -> (forall b, Marks.keeps pick (k b)) ->
  Marks.keeps pick (bind c k).
Proof.
  intros Hc Hk s s' r. unfold bind.
  destruct (c s) as [s1 [b|e|]] eqn:E.
  - intros H. rewrite (Hk _ _ _ _ H). eauto.
  - intros [= <- _]. eauto.
  - intros [= <- _]. eauto.
Qed.

Lemma keeps_at i : Marks.keeps pick (Vm.at_ i).
Proof.
  intros s s' r. unfold Vm.at_.
  destruct (_ <? _)%nat; intros [= <- _]; reflexivity.
Qed.

Lemma keeps_read ref : Marks.keeps pick (Vm.read ref).
Proof.
  intros s s' r. unfold Vm.read.
  destruct (_ !! _); intros [= <- _]; reflexivity.
Qed.

Lemma keeps_write_type ref t : Marks.keeps pick (Vm.write_type ref t).
Proof. intros s s' r [= <- _]. reflexivity. Qed.

Lemma keeps_write_value ref x : Marks.keeps pick (Vm.write_value ref x).
Proof. intros s s' r [= <- _]. reflexivity. Qed.

Lemma keeps_get_uint64 x : Marks.keeps pick (Vm.get_uint64 x).
Proof. destruct x; [apply keeps_ret | apply keeps_throw]. Qed.

Lemma keeps_print l : pick l = None -> Marks.keeps pick (Vm.print l).
Proof.
  intros H s s' r [= <- _]. cbn [Vm.cerr].
  rewrite marks_app. cbn. rewrite H. apply app_nil_r.
Qed.

Lemma keeps_for_range n (body : nat -> M Vm.machine unit) :
  (forall i, Marks.keeps pick (body i)) -> Marks.keeps pick (for_range n body).
Proof.
  intros Hbody. unfold for_range.
  induction (seq 0 n) as [|i l IH]; cbn [foldr].
  - apply keeps_ret.
  - apply keeps_bind; [apply Hbody | intros _; exact IH].
Qed.
End Keeps.

Ltac keeps_step :=
  match goal with
  | |- Marks.keeps _ (bind _ _) => apply keeps_bind; [|intro]
  | |- Marks.keeps _ (ret _) => apply keeps_ret
  | |- Marks.keeps _ (throw _) => apply keeps_throw
  | |- Marks.keeps _ undefined => apply keeps_undefined
  | |- Marks.keeps _ (gets _) => apply keeps_gets
  | |- Marks.keeps _ (Vm.at_ _) => apply keeps_at
  | |- Marks.keeps _ (Vm.read _) => apply keeps_read
  | |- Marks.keeps _ (Vm.write_type _ _) => apply keeps_write_type
  | |- Marks.keeps _ (Vm.write_value _ _) => apply keeps_write_value
  | |- Marks.keeps _ (Vm.get_uint64 _) => apply keeps_get_uint64
  | |- Marks.keeps _ (Vm.print (if ?b then _ else _)) => destruct b
  | |- Marks.keeps _ (Vm.print _) => apply keeps_print; reflexivity
  | |- Marks.keeps _ (for_range _ _) => apply keeps_for_range; intro
  | |- Marks.keeps _ (if ?b then _ else _) => destruct b
  | |- Marks.keeps _ (match ?x with _ => _ end) => destruct x
  end.

Lemma keeps_execute_raw raw ip :
  Marks.keeps Marks.preempted (Vm.execute_raw raw ip).
Proof.
  unfold Vm.execute_raw, Vm.execute_ADD, Vm.execute_MUL, Vm.execute_arith,
    Vm.execute_DELETE,
    Vm.execute_LUI, Vm.execute_LUIU, Vm.execute_LUI_as, Vm.execute_ADDI,
    Vm.execute_ADDIU, Vm.execute_ADDI_as, Vm.execute_EBREAK, Vm.dump_slot.
  destruct (Arch.ops.FORMAT_of _) as [[]|]; repeat keeps_step.
Qed.

Lemma keeps_run_instruction_from rest ip :
  Marks.keeps Marks.preempted (Vm.run_instruction_from rest ip).
Proof.
  revert ip. induction rest as [|w rest IH]; intros ip;
    cbn [Vm.run_instruction_from].
  - apply keeps_undefined.
  - apply keeps_bind; [apply keeps_execute_raw|]. intros [p|].
    + destruct (Arch.ops.is_greedy w); [apply IH | apply keeps_ret].
    + apply keeps_ret.
Qed.

Lemma run_instruction_single text ip w s s' p :
  text !! ip = Some w -> Arch.ops.is_greedy w = false ->
  Vm.run_instruction text ip s = (s', Ok (Some p)) -> p = S ip.
Proof.
  intros Hw Hplain. unfold Vm.run_instruction.
  rewrite (drop_S _ _ _ Hw). cbn [Vm.run_instruction_from]. rewrite Hplain.
  unfold bind. destruct (Vm.execute_raw w ip s) as [s1 [[q|]|e|]] eqn:E;
    try discriminate.
  intros [= <- <-]. now apply execute_raw_next in E.
Qed.

Lemma run_cycle_at_end left text i s :
  Vm.run_cycle left text (length text) i (length text) s = (s, Ok (length text)).
Proof.
  destruct left; cbn [Vm.run_cycle]; [reflexivity|].
  now rewrite Nat.eqb_refl, andb_false_r.
Qed.

Lemma run_cycle_count left text i ip s s' p :
  Vm.run_cycle left text (length text) i ip s = (s', Ok p) ->
  (Vm.PREEMPTION_THRESHOLD <= left + i)%nat ->
  p <> length text ->
  (Vm.PREEMPTION_THRESHOLD <= i + (p - ip))%nat /\ (ip <= p)%nat.
Proof.
  revert i ip s. induction left as [|left IH]; intros i ip s;
    cbn [Vm.run_cycle].
  - intros [= <- <-] Hi _. lia.
  - destruct (Nat.ltb_spec i Vm.PREEMPTION_THRESHOLD) as [Hlt|Hge];
      cbn [andb]; [|intros [= <- <-] _ _; lia].
    destruct (Nat.eqb_spec ip (length text)) as [->|Hne]; cbn [negb];
      [intros [= <- <-] _ Hp; congruence|].
    unfold bind at 1.
    destruct (Vm.fetch text ip s) as [s1 [word|e|]] eqn:Ef; [|discriminate..].
    assert (Hword : text !! ip = Some word).
    { unfold Vm.fetch in Ef. destruct (text !! ip); [|discriminate].
      now injection Ef as <- <-. }
    rewrite (bind_Ok _ _ s1
               (Vm.mkMachine (Vm.registers s1)
                  (Vm.cerr s1 ++ [if Arch.ops.is_greedy word
                                  then Vm.Line_bundle i else Vm.Line_single i]))
               tt) by reflexivity.
    unfold bind at 1.
    destruct (Vm.run_instruction text ip _) as [s3 [next|e|]] eqn:Er;
      [|discriminate..].
    intros Hrun Hfuel Hp.
    destruct next as [p1|].
    2:{ rewrite run_cycle_at_end in Hrun. injection Hrun as <- <-. congruence. }
    destruct (Nat.eqb_spec p1 (length text)) as [->|Hne1].
    { rewrite run_cycle_at_end in Hrun. injection Hrun as <- <-. congruence. }
    destruct (run_instruction_result _ _ _ _ _ Er) as [_ Hnext].
    destruct (Hnext p1 eq_refl) as [_ Hp1].
    destruct (Arch.ops.is_greedy word) eqn:G; cbn [andb negb] in Hrun.
    + apply IH in Hrun; [lia|lia|assumption].
    + apply (run_instruction_single _ _ _ _ _ _ Hword G) in Er as ->.
      apply IH in Hrun; [lia|lia|assumption].
Qed.

Lemma keeps_run_cycle left text ip_end i ip :
  Marks.keeps Marks.preempted (Vm.run_cycle left text ip_end i ip).
Proof.
  revert i ip. induction left as [|left IH]; intros i ip; cbn [Vm.run_cycle].
  - apply keeps_ret.
  - destruct (_ && _); [|apply keeps_ret].
    apply keeps_bind.
    { unfold Vm.fetch. destruct (_ !! _); [apply keeps_ret|apply keeps_undefined]. }
    intros word. apply keeps_bind.
    { destruct (Arch.ops.is_greedy word); now apply keeps_print. }
    intros _. apply keeps_bind; [apply keeps_run_instruction_from|].
    intros next. apply IH.
Qed.

Lemma run_loop_preempted fuel text ip s s' r :
  Vm.run_loop fuel text ip s = (s', r) ->
  forall n, In n (Marks.marks Marks.preempted (Vm.cerr s')) ->
    In n (Marks.marks Marks.preempted (Vm.cerr s))
    \/ Z.of_nat Vm.PREEMPTION_THRESHOLD <= n.
Proof.
  revert ip s. induction fuel as [|fuel IH]; intros ip s; cbn [Vm.run_loop];
    destruct (ip =? length text)%nat eqn:Eend;
    try (intros [= <- <-] n Hn; now left).
  set (s0 := Vm.mkMachine (Vm.registers s)
               (Vm.cerr s ++ [Vm.Line_cycle (Z.of_nat ip * sizeof_instruction_type)])).
  rewrite (bind_Ok _ _ s s0 tt) by reflexivity.
  assert (H0 : Marks.marks Marks.preempted (Vm.cerr s0)
               = Marks.marks Marks.preempted (Vm.cerr s))
    by (subst s0; cbn [Vm.cerr]; rewrite marks_app; apply app_nil_r).
  intros H n Hn. unfold bind at 1 in H.
  destruct (Vm.run_cycle _ _ _ _ _ _) as [s1 [p|e|]] eqn:Ec;
    pose proof (keeps_run_cycle _ _ _ _ _ _ _ _ Ec) as Hk;
    [|injection H as <- <-; left; congruence..].
  destruct (Nat.eqb_spec p (length text)) as [->|Hne].
  - cbv [bind Vm.print modify ret] in H. injection H as <- <-.
    cbn [Vm.cerr] in Hn. rewrite marks_app in Hn. cbn in Hn.
    rewrite app_nil_r in Hn. left. congruence.
  - rewrite (bind_Ok _ _ s1
               (Vm.mkMachine (Vm.registers s1)
                  (Vm.cerr s1 ++ [Vm.Line_preempted (Z.of_nat p - Z.of_nat ip)]))
               tt) in H by reflexivity.
    destruct (IH _ _ H n Hn) as [Hin|Hin]; [|now right].
    cbn [Vm.cerr] in Hin. rewrite marks_app in Hin.
    apply in_app_or in Hin as [Hin|Hin]; [left; congruence|].
    right. destruct Hin as [<-|[]].
    destruct (run_cycle_count _ _ _ _ _ _ _ Ec ltac:(lia) Hne). lia.
Qed.

(** X12. The loop preempts only after the threshold: every "preempted
    after n ops" line that [run] prints has [n] at least
    PREEMPTION_THRESHOLD, the operations of a greedy bundle counting one
    each. *)
Theorem preemption_waits_for_threshold (text : list Arch.instruction_type)
    (registers : list Vm.Value) (n : Z) :
  In (Vm.Line_preempted n)
     (Vm.cerr (Vm.run text 0 (Vm.mkMachine registers [])).1) ->
  Z.of_nat Vm.PREEMPTION_THRESHOLD <= n.
Proof.
  intros Hin. destruct (Vm.run text 0 _) as [s' r] eqn:E. cbn [fst] in Hin.
  assert (Hn : In n (Marks.marks Marks.preempted (Vm.cerr s'))).
  { unfold Marks.marks. rewrite <- list_elem_of_In, list_elem_of_omap.
    exists (Vm.Line_preempted n). split; [now apply list_elem_of_In|reflexivity]. }
  destruct (run_loop_preempted _ _ _ _ _ _ E n Hn) as [[]|]. assumption.
Qed.

Lemma preemption_waits_for_threshold_witness :
  In (Vm.Line_preempted 7)
     (Vm.cerr (Vm.run sample_program 0 (Vm.mkMachine (Vm.registers Vm.clean) [])).1)
  /\ Z.of_nat Vm.PREEMPTION_THRESHOLD <= 7.
Proof.
  assert (H : In (Vm.Line_preempted 7)
                (Vm.cerr (Vm.run sample_program 0
                            (Vm.mkMachine (Vm.registers Vm.clean) [])).1))
    by (vm_compute; tauto).
  split; [exact H|].
  exact (preemption_waits_for_threshold sample_program (Vm.registers Vm.clean) 7 H).
Defined.

(** ** What EBREAK prints *)

Lemma dump_slot_lines i each s :
  Vm.is_void each = false ->
  Vm.dump_slot i each s
  = (Vm.mkMachine (Vm.registers s) (Vm.cerr s ++ Marks.dump_of_slot i each),
     Ok tt).
Proof.
  intros Hv. unfold Marks.dump_of_slot. rewrite Hv.
  unfold Vm.dump_slot, Vm.is_boxed. unfold Vm.is_void, Vm.is_boxed in Hv.
  destruct each as [t [v|p]]; [destruct t|]; try discriminate;
    cbv [bind Vm.print modify Vm.get_uint64 ret Vm.value Vm.type_of_unboxed];
    cbn [Vm.registers Vm.cerr];
    rewrite <- ?app_assoc; reflexivity.
Qed.

Lemma dump_loop_lines rest k s :
  drop k (Vm.registers s) = rest ->
  foldr (fun i rest =>
           (let* ref := Vm.at_ (Z.of_nat i) in
            let* each := Vm.read ref in
            if Vm.is_void each then ret tt else Vm.dump_slot i each) ;;; rest)
        (ret tt) (seq k (length rest)) s
  = (Vm.mkMachine (Vm.registers s)
       (Vm.cerr s
        ++ concat (imap (fun j => Marks.dump_of_slot (k + j)) rest)),
     Ok tt).
Proof.
  revert k s. induction rest as [|each rest IH]; intros k s Hdrop.
  - cbn. destruct s. cbn. now rewrite app_nil_r.
  - assert (Heach : Vm.registers s !! k = Some each).
    { rewrite <- (Nat.add_0_r k), <- lookup_drop, Hdrop. reflexivity. }
    assert (Hrest : drop (S k) (Vm.registers s) = rest).
    { rewrite (drop_S _ _ _ Heach) in Hdrop. now injection Hdrop. }
    cbn [length seq foldr imap concat].
    assert (Hbody :
      (let* ref := Vm.at_ (Z.of_nat k) in
       let* each := Vm.read ref in
       if Vm.is_void each then ret tt else Vm.dump_slot k each) s
      = (Vm.mkMachine (Vm.registers s)
           (Vm.cerr s ++ Marks.dump_of_slot k each), Ok tt)).
    { rewrite (bind_Ok _ _ s s k)
        by (rewrite at_in_range;
            [now rewrite Nat2Z.id
            |rewrite Nat2Z.id; now apply lookup_lt_Some in Heach]).
      rewrite (bind_Ok _ _ _ _ _ (read_slot _ _ _ Heach)).
      destruct (Vm.is_void each) eqn:Hv.
      - unfold Marks.dump_of_slot. rewrite Hv. destruct s. cbn.
        now rewrite app_nil_r.
      - now apply dump_slot_lines. }
    rewrite (bind_Ok _ _ _ _ _ Hbody).
    rewrite (IH (S k)
               (Vm.mkMachine (Vm.registers s)
                  (Vm.cerr s ++ Marks.dump_of_slot k each)) Hrest).
    cbn [Vm.registers Vm.cerr].
    assert (Himap :
      imap (fun j => Marks.dump_of_slot (S k + j)) rest
      = imap ((fun j => Marks.dump_of_slot (k + j)) ∘ S) rest)
      by (apply imap_ext; intros j x _; cbn; f_equal; lia).
    now rewrite Himap, Nat.add_0_r, <- app_assoc.
Qed.

Lemma Dump_index_in_slot i j each :
  In (Vm.Dump_index i) (Marks.dump_of_slot j each)
  <-> j = i /\ Vm.is_void each = false.
Proof.
  unfold Marks.dump_of_slot. destruct (Vm.is_void each).
  - cbn. split; [tauto|]. intros [_ H]. discriminate.
  - cbn. split.
    + intros [[= ->]|H]; [tauto|].
      destruct (Vm.value each); [destruct (Vm.type_of_unboxed each)|];
        cbn in H; repeat destruct H as [H|H]; try discriminate; tauto.
    + intros [-> _]. now left.
Qed.

(** X13. EBREAK prints the dump of the register file and nothing else: for
    every slot that is not void, in the order of the indexes, a line with
    its index followed by its content; a slot has an index line exactly when
    it is not void. *)
Theorem execute_EBREAK_dumps (op : Arch.ops.N.t) (s : Vm.machine) :
  Vm.execute_EBREAK op s
  = (Vm.mkMachine (Vm.registers s) (Vm.cerr s ++ Marks.dump (Vm.registers s)),
     Ok tt)
  /\ forall i,
       In (Vm.Dump_index i) (Marks.dump (Vm.registers s))
       <-> exists each, Vm.registers s !! i = Some each /\ Vm.is_void each = false.
Proof.
  split.
  - unfold Vm.execute_EBREAK, for_range, gets. unfold bind at 1.
    apply (dump_loop_lines (Vm.registers s) 0 s). apply drop_0.
  - intros i. unfold Marks.dump. rewrite in_concat. split.
    + intros (l & Hl & Hin).
      apply list_elem_of_In, elem_of_lookup_imap in Hl as (j & each & -> & Hj).
      apply Dump_index_in_slot in Hin as [-> Hv]. eauto.
    + intros (each & Hi & Hv). exists (Marks.dump_of_slot i each). split.
      * apply list_elem_of_In, elem_of_lookup_imap. eauto.
      * apply Dump_index_in_slot. auto.
Qed.

(** ** Bytecode emission *)

Section Emission.
Context {Instruction : Type}.
Variable emit_instruction : Instruction -> result Stage.Error Arch.instruction_type.
Variable enc : Instruction -> Arch.instruction_type.


Lemma functions_Fn (fn : Emit.Fn_def Instruction) (rest : list (Emit.Node Instruction)) :
  Layout.functions (Emit.Fn fn :: rest) = fn :: Layout.functions rest.
Proof. reflexivity. Qed.

Lemma functions_Label ct (rest : list (Emit.Node Instruction)) :
  Layout.functions (Emit.Label ct :: rest) = Layout.functions rest.
Proof. reflexivity. Qed.

Lemma functions_app (l k : list (Emit.Node Instruction)) :
  Layout.functions (l ++ k) = Layout.functions l ++ Layout.functions k.
Proof. apply omap_app. Qed.

Lemma size_Fn (fn : Emit.Fn_def Instruction) (rest : list (Emit.Node Instruction)) :
  Layout.size (Emit.Fn fn :: rest)
  = (length (Emit.instructions fn) + Layout.size rest)%nat.
Proof.
  unfold Layout.size. rewrite functions_Fn. cbn [flat_map]. apply length_app.
Qed.

Lemma size_app (l k : list (Emit.Node Instruction)) :
  Layout.size (l ++ k) = (Layout.size l + Layout.size k)%nat.
Proof.
  unfold Layout.size. now rewrite functions_app, flat_map_app, length_app.
Qed.

Lemma code_length (nodes : list (Emit.Node Instruction)) : length (Layout.code enc nodes) = Layout.size nodes.
Proof.
  unfold Layout.size, Layout.code.
  induction (Layout.functions nodes) as [|fn fns IH]; [reflexivity|].
  cbn [flat_map]. rewrite !length_app, length_map. now f_equal.
Qed.

Lemma ops_count_size (nodes : list (Emit.Node Instruction)) :
  Emit.ops_count nodes = S (Layout.size nodes).
Proof.
  unfold Emit.ops_count. cbn [Nat.add]. f_equal.
  enough (H : forall acc,
    foldl (fun acc (each : Emit.Node Instruction) =>
             match each with
             | Emit.Fn fn => (acc + length (Emit.instructions fn))%nat
             | Emit.Label _ => acc
             end) acc nodes
    = (acc + Layout.size nodes)%nat)
    by apply (H 0%nat).
  induction nodes as [|[fn|ct] rest IH]; intros acc; cbn [foldl].
  - cbn. lia.
  - rewrite IH, size_Fn. lia.
  - apply IH.
Qed.

(** *** The words of one function *)

Lemma emit_instructions_ok (insns : list Instruction) :
  forall (pre mid post : list Arch.instruction_type),
  Forall (fun insn => emit_instruction insn = Ok (enc insn)) insns ->
  length mid = length insns ->
  Emit.emit_instructions emit_instruction insns (length pre)
    (pre ++ mid ++ post)
  = (pre ++ map enc insns ++ post, Ok (length pre + length insns)%nat).
Proof.
  induction insns as [|insn rest IH]; intros pre mid post Henc Hlen.
  - destruct mid; [|discriminate]. cbn. now rewrite Nat.add_0_r.
  - destruct mid as [|m mid]; [discriminate|]. injection Hlen as Hlen.
    apply Forall_cons in Henc as [Hinsn Henc].
    cbn [Emit.emit_instructions]. rewrite Hinsn.
    assert (Hlt : (length pre <? length (pre ++ (m :: mid) ++ post))%nat = true).
    { apply Nat.ltb_lt. rewrite length_app. cbn. lia. }
    rewrite Hlt.
    assert (Hins : <[length pre := enc insn]> (pre ++ (m :: mid) ++ post)
                   = (pre ++ [enc insn]) ++ mid ++ post).
    { rewrite <- (Nat.add_0_r (length pre)), insert_app_r.
      now rewrite <- app_assoc. }
    rewrite Hins.
    replace (S (length pre)) with (length (pre ++ [enc insn]))
      by (rewrite length_app; cbn; lia).
    rewrite (IH _ mid post Henc Hlen), length_app, <- app_assoc.
    cbn. do 2 f_equal. lia.
Qed.

(** *** The words of all the functions *)

Lemma insert_is_alter {A} (f : A -> A) (l : list A) (i : nat) (x : A) :
  l !! i = Some x -> <[i := f x]> l = alter f i l.
Proof.
  intros Hx. apply list_eq. intros j. destruct (decide (i = j)) as [<-|Hne].
  - rewrite list_lookup_insert_eq by (now apply lookup_lt_Some in Hx).
    now rewrite list_lookup_alter_eq, Hx.
  - now rewrite list_lookup_insert_ne, list_lookup_alter_ne.
Qed.

Lemma symbols_length symbol_map (nodes : list (Emit.Node Instruction)) :
  forall ip table,
  length (Layout.symbols symbol_map nodes ip table) = length table.
Proof.
  induction nodes as [|[fn|ct] rest IH]; intros ip table;
    cbn [Layout.symbols]; [reflexivity| |apply IH].
  destruct (symbol_map !! _); [|reflexivity].
  now rewrite IH, length_alter.
Qed.

Lemma emit_functions_ok symbol_map (nodes : list (Emit.Node Instruction)) :
  forall (pre mid post : list Arch.instruction_type) table,
  Layout.encoded emit_instruction enc nodes ->
  Layout.named symbol_map (length table) nodes ->
  length mid = Layout.size nodes ->
  Emit.emit_functions emit_instruction symbol_map nodes (length pre)
    (Emit.mkBuffers (pre ++ mid ++ post) table)
  = (Emit.mkBuffers (pre ++ Layout.code enc nodes ++ post)
       (Layout.symbols symbol_map nodes (length pre) table),
     Ok tt).
Proof.
  induction nodes as [|[fn|ct] rest IH]; intros pre mid post table Henc Hsym Hlen.
  - destruct mid; [|discriminate]. reflexivity.
  - unfold Layout.encoded, Layout.named in Henc, Hsym.
    rewrite functions_Fn in Henc, Hsym.
    apply Forall_cons in Henc as [Hfn Henc].
    apply Forall_cons in Hsym as [(index & Hindex & Hlt) Hsym].
    rewrite size_Fn in Hlen.
    cbn [Emit.emit_functions Layout.symbols Emit.text Emit.symbol_table].
    rewrite Hindex.
    destruct (lookup_lt_is_Some_2 table index Hlt) as [sym Hsymbol].
    rewrite Hsymbol.
    rewrite <- (take_drop (length (Emit.instructions fn)) mid), <- app_assoc.
    rewrite (emit_instructions_ok _ pre _ _ Hfn)
      by (rewrite length_take; lia).
    rewrite (insert_is_alter _ _ _ _ Hsymbol).
    replace (length pre + length (Emit.instructions fn))%nat
      with (length (pre ++ map enc (Emit.instructions fn)))
      by (now rewrite length_app, length_map).
    rewrite app_assoc.
    rewrite (IH _ (drop (length (Emit.instructions fn)) mid) post).
    + unfold Layout.code. rewrite functions_Fn. cbn [flat_map].
      now rewrite <- !app_assoc.
    + exact Henc.
    + now rewrite length_alter.
    + rewrite length_drop. lia.
  - cbn [Emit.emit_functions Layout.symbols]. now apply IH.
Qed.

Lemma emit_bytecode_ok symbol_map (nodes : list (Emit.Node Instruction)) (b : Emit.buffers) :
  Layout.encoded emit_instruction enc nodes ->
  Layout.named symbol_map (length (Emit.symbol_table b)) nodes ->
  Emit.emit_bytecode emit_instruction nodes b symbol_map
  = (Emit.mkBuffers
       (Arch.ops.N.encode (Arch.ops.N.mk Arch.ops.HALT) :: Layout.code enc nodes)
       (Layout.symbols symbol_map nodes 1 (Emit.symbol_table b)),
     Ok empty).
Proof.
  intros Henc Hsym. unfold Emit.emit_bytecode.
  rewrite ops_count_size.
  destruct (resize (S (Layout.size nodes)) 0 (Emit.text b)) as [|w mid] eqn:Hr.
  { apply (f_equal length) in Hr. now rewrite length_resize in Hr. }
  assert (Hlen : length mid = Layout.size nodes).
  { apply (f_equal length) in Hr. rewrite length_resize in Hr. cbn in Hr. lia. }
  cbn [insert list_insert].
  pose proof (emit_functions_ok symbol_map nodes
                [Arch.ops.N.encode (Arch.ops.N.mk Arch.ops.HALT)] mid []
                (Emit.symbol_table b) Henc Hsym Hlen) as H.
  cbn [length app] in H. rewrite !app_nil_r in H.
  match type of H with
  | _ = ?rhs =>
      match goal with
      | |- (let (b', r) := ?c in _) = _ =>
          replace c with rhs by (symmetry; exact H)
      end
  end.
  reflexivity.
Qed.

(** *** The symbol table that results *)

Lemma symbols_identity symbol_map (nodes : list (Emit.Node Instruction)) :
  forall ip table,
  Layout.identity <$> Layout.symbols symbol_map nodes ip table
  = Layout.identity <$> table.
Proof.
  induction nodes as [|[fn|ct] rest IH]; intros ip table;
    cbn [Layout.symbols]; [reflexivity| |apply IH].
  destruct (symbol_map !! _) as [index|]; [|reflexivity].
  rewrite IH, (list_fmap_alter Layout.identity _ id).
  - now apply list_alter_id.
  - apply Forall_forall. intros sym _. unfold Emit.save_address.
    now destruct (Emit.has_attr fn _).
Qed.

Lemma symbols_unused symbol_map (nodes : list (Emit.Node Instruction)) (index : nat) :
  forall ip table,
  Layout.unused symbol_map index nodes ->
  Layout.symbols symbol_map nodes ip table !! index = table !! index.
Proof.
  induction nodes as [|[fn|ct] rest IH]; intros ip table Hun;
    cbn [Layout.symbols]; [reflexivity| |now apply IH].
  unfold Layout.unused in Hun.
  rewrite functions_Fn in Hun. apply Forall_cons in Hun as [Hfn Hun].
  destruct (symbol_map !! _) as [i|] eqn:Hi; [|reflexivity].
  rewrite IH by exact Hun.
  destruct (decide (i = index)) as [->|Hne].
  - unfold Emit.save_address.
    destruct (Emit.has_attr fn "extern") eqn:Hext.
    + now rewrite list_alter_id.
    + now destruct (Hfn eq_refl).
  - now apply list_lookup_alter_ne.
Qed.

Lemma symbols_app symbol_map (before rest : list (Emit.Node Instruction)) :
  forall ip table,
  Layout.named symbol_map (length table) before ->
  Layout.symbols symbol_map (before ++ rest) ip table
  = Layout.symbols symbol_map rest (ip + Layout.size before)
      (Layout.symbols symbol_map before ip table).
Proof.
  induction before as [|[fn|ct] before IH]; intros ip table Hsym;
    cbn [app Layout.symbols].
  - now rewrite Nat.add_0_r.
  - unfold Layout.named in Hsym. rewrite functions_Fn in Hsym.
    apply Forall_cons in Hsym as [(index & Hindex & Hlt) Hsym].
    rewrite Hindex, IH, size_Fn by (now rewrite length_alter).
    now rewrite Nat.add_assoc.
  - now apply IH.
Qed.

Lemma symbols_of_function symbol_map (before after : list (Emit.Node Instruction)) (fn : Emit.Fn_def Instruction)
    (table : list Emit.Elf64_Sym) (index : nat) (sym : Emit.Elf64_Sym) :
  Layout.named symbol_map (length table) before ->
  Emit.has_attr fn "extern" = false ->
  symbol_map !! Stage.text (Emit.name fn) = Some index ->
  table !! index = Some sym ->
  Layout.unused symbol_map index after ->
  Layout.symbols symbol_map (before ++ Emit.Fn fn :: after) 1 table !! index
  = Some (Emit.mkSym (Emit.st_name sym) (Emit.st_info sym)
            (Emit.st_other sym) (Emit.st_shndx sym)
            (uint64_t (Z.of_nat (1 + Layout.size before)
                       * sizeof_instruction_type))
            (uint64_t (Z.of_nat (length (Emit.instructions fn))
                       * sizeof_instruction_type))).
Proof.
  intros Hsym Hext Hindex Hsymbol Hun.
  rewrite symbols_app by exact Hsym. cbn [Layout.symbols]. rewrite Hindex.
  rewrite symbols_unused by exact Hun.
  rewrite list_lookup_alter_eq.
  pose proof (f_equal (fun l => l !! index)
                (symbols_identity symbol_map before 1 table)) as Hid.
  cbn beta in Hid. rewrite !list_lookup_fmap, Hsymbol in Hid.
  destruct (Layout.symbols symbol_map before 1 table !! index) as [sym0|];
    [|discriminate].
  cbn in Hid. injection Hid as Hn Hi Ho Hs.
  cbn. unfold Emit.save_address. rewrite Hext. now rewrite Hn, Hi, Ho, Hs.
Qed.

(** *** What holds however the stage ends *)

Lemma save_address_identity (fn : Emit.Fn_def Instruction) ip sym :
  Layout.identity (Emit.save_address fn ip sym) = Layout.identity sym.
Proof. unfold Emit.save_address. now destruct (Emit.has_attr fn _). Qed.

Lemma insert_save_identity (fn : Emit.Fn_def Instruction) ip sym
    (table : list Emit.Elf64_Sym) (index : nat) :
  table !! index = Some sym ->
  Layout.identity <$> <[index := Emit.save_address fn ip sym]> table
  = Layout.identity <$> table.
Proof.
  intros Hsym. rewrite list_fmap_insert, save_address_identity.
  apply list_insert_id. now rewrite list_lookup_fmap, Hsym.
Qed.

Lemma insert_save_unused (symbol_map : gmap string nat)
    (fn : Emit.Fn_def Instruction) ip sym
    (table : list Emit.Elf64_Sym) (i index : nat) :
  (Emit.has_attr fn "extern" = false ->
   symbol_map !! Stage.text (Emit.name fn) <> Some index) ->
  symbol_map !! Stage.text (Emit.name fn) = Some i ->
  table !! i = Some sym ->
  <[i := Emit.save_address fn ip sym]> table !! index = table !! index.
Proof.
  intros Hfn Hi Hsym. destruct (decide (i = index)) as [->|Hne].
  - unfold Emit.save_address. destruct (Emit.has_attr fn "extern").
    + now rewrite list_insert_id.
    + now destruct (Hfn eq_refl).
  - now apply list_lookup_insert_ne.
Qed.

Hypothesis emit_instruction_defined :
  forall insn, emit_instruction insn <> Undefined.

Lemma emit_instructions_bounded (insns : list Instruction) :
  forall (pre rest : list Arch.instruction_type),
  (length insns <= length rest)%nat ->
  exists rest' r,
    Emit.emit_instructions emit_instruction insns (length pre) (pre ++ rest)
    = (pre ++ rest', r)
    /\ length rest' = length rest
    /\ match r with
       | Ok ip' => ip' = (length pre + length insns)%nat
       | Throw _ => True
       | Undefined => False
       end.
Proof.
  induction insns as [|insn insns IH]; intros pre rest Hlen.
  - exists rest, (Ok (length pre)). cbn. split; [reflexivity|]. split; lia.
  - destruct rest as [|m rest]; [cbn in Hlen; lia|]. cbn in Hlen.
    cbn [Emit.emit_instructions].
    destruct (emit_instruction insn) as [word|e|] eqn:Hinsn.
    + assert (Hlt : (length pre <? length (pre ++ m :: rest))%nat = true).
      { apply Nat.ltb_lt. rewrite length_app. cbn. lia. }
      rewrite Hlt.
      assert (Hins : <[length pre := word]> (pre ++ m :: rest)
                     = (pre ++ [word]) ++ rest).
      { rewrite <- (Nat.add_0_r (length pre)), insert_app_r.
        now rewrite <- app_assoc. }
      rewrite Hins.
      replace (S (length pre)) with (length (pre ++ [word]))
        by (rewrite length_app; cbn; lia).
      destruct (IH (pre ++ [word]) rest ltac:(lia)) as (rest' & r & -> & Hl & Hr).
      exists (word :: rest'), r. rewrite <- app_assoc.
      split; [reflexivity|]. split; [cbn; lia|].
      destruct r; [|exact I|exact Hr].
      rewrite Hr, length_app. cbn. lia.
    + exists (m :: rest), (Throw (Emit.compile_time e)). auto.
    + now destruct (emit_instruction_defined insn).
Qed.

Lemma emit_functions_bounded symbol_map (nodes : list (Emit.Node Instruction)) :
  forall (pre rest : list Arch.instruction_type) table,
  (Layout.size nodes <= length rest)%nat ->
  exists rest' table' r,
    Emit.emit_functions emit_instruction symbol_map nodes (length pre)
      (Emit.mkBuffers (pre ++ rest) table)
    = (Emit.mkBuffers (pre ++ rest') table', r)
    /\ length rest' = length rest
    /\ r <> Undefined
    /\ Layout.identity <$> table' = Layout.identity <$> table
    /\ forall index,
         Layout.unused symbol_map index nodes ->
         table' !! index = table !! index.
Proof.
  induction nodes as [|[fn|ct] nodes IH]; intros pre rest table Hlen.
  - exists rest, table, (Ok tt). cbn. repeat split; auto; discriminate.
  - rewrite size_Fn in Hlen. cbn [Emit.emit_functions Emit.text Emit.symbol_table].
    destruct (symbol_map !! _) as [i|] eqn:Hi;
      [|exists rest, table, (Throw Emit.at_out_of_range);
        repeat split; auto; discriminate].
    destruct (table !! i) as [sym|] eqn:Hsym;
      [|exists rest, table, (Throw Emit.at_out_of_range);
        repeat split; auto; discriminate].
    destruct (emit_instructions_bounded (Emit.instructions fn) pre rest
                ltac:(lia)) as (rest1 & r1 & -> & Hl1 & Hr1).
    assert (Hun : forall index,
              Layout.unused symbol_map index (Emit.Fn fn :: nodes) ->
              <[i := Emit.save_address fn (length pre) sym]> table !! index
              = table !! index
              /\ Layout.unused symbol_map index nodes).
    { intros index H. unfold Layout.unused in H. rewrite functions_Fn in H.
      apply Forall_cons in H as [Hfn H]. split; [|exact H].
      now apply (insert_save_unused symbol_map). }
    destruct r1 as [ip'|e|]; [|clear IH|destruct Hr1].
    + subst ip'.
      rewrite <- (take_drop (length (Emit.instructions fn)) rest1), app_assoc.
      replace (length pre + length (Emit.instructions fn))%nat
        with (length (pre ++ take (length (Emit.instructions fn)) rest1))
        by (rewrite length_app, length_take; lia).
      destruct (IH (pre ++ take (length (Emit.instructions fn)) rest1)
                   (drop (length (Emit.instructions fn)) rest1)
                   (<[i := Emit.save_address fn (length pre) sym]> table))
        as (rest' & table' & r & -> & Hl & Hr & Hid & Hnot).
      { rewrite length_drop. lia. }
      exists (take (length (Emit.instructions fn)) rest1 ++ rest'), table', r.
      rewrite <- app_assoc. split; [reflexivity|].
      split; [rewrite length_app, length_take, Hl, length_drop; lia|].
      split; [exact Hr|].
      split; [now rewrite Hid, insert_save_identity|].
      intros index H. apply Hun in H as [H1 H2]. now rewrite Hnot.
    + exists rest1, (<[i := Emit.save_address fn (length pre) sym]> table),
        (Throw e).
      split; [reflexivity|]. split; [exact Hl1|]. split; [discriminate|].
      split; [now apply insert_save_identity|].
      intros index H. now apply Hun in H as [H1 _].
  - cbn [Emit.emit_functions].
    destruct (IH pre rest table Hlen) as (rest' & table' & r & H).
    exists rest', table', r. exact H.
Qed.

Lemma emit_bytecode_bounded symbol_map (nodes : list (Emit.Node Instruction))
    (b : Emit.buffers) :
  exists text' table' r,
    Emit.emit_bytecode emit_instruction nodes b symbol_map
    = (Emit.mkBuffers text' table', r)
    /\ r <> Undefined
    /\ length text' = Emit.ops_count nodes
    /\ text' !! 0%nat = Some (Arch.ops.N.encode (Arch.ops.N.mk Arch.ops.HALT))
    /\ Layout.identity <$> table' = Layout.identity <$> Emit.symbol_table b
    /\ forall index,
         Layout.unused symbol_map index nodes ->
         table' !! index = Emit.symbol_table b !! index.
Proof.
  unfold Emit.emit_bytecode. rewrite ops_count_size.
  destruct (resize (S (Layout.size nodes)) 0 (Emit.text b)) as [|w mid] eqn:Hr.
  { apply (f_equal length) in Hr. now rewrite length_resize in Hr. }
  assert (Hlen : length mid = Layout.size nodes).
  { apply (f_equal length) in Hr. rewrite length_resize in Hr. cbn in Hr. lia. }
  cbn [insert list_insert].
  destruct (emit_functions_bounded symbol_map nodes
              [Arch.ops.N.encode (Arch.ops.N.mk Arch.ops.HALT)] mid
              (Emit.symbol_table b)
              ltac:(apply Nat.eq_le_incl; symmetry; exact Hlen))
    as (rest' & table' & r & H & Hl & Hr' & Hid & Hnot).
  cbn [length app] in H.
  match type of H with
  | _ = ?rhs =>
      match goal with
      | |- context [let (b', r) := ?c in _] =>
          replace c with rhs by (symmetry; exact H)
      end
  end.
  exists (Arch.ops.N.encode (Arch.ops.N.mk Arch.ops.HALT) :: rest'), table'.
  destruct r as [[]|e|]; [exists (Ok empty)|exists (Throw e)|now destruct Hr'];
    (split; [reflexivity|]); (split; [discriminate|]);
    (split; [cbn [length]; f_equal; etransitivity; [exact Hl|exact Hlen]|]);
    auto.
Qed.

End Emission.

(** X14. The layout of the emitted text. When every function has a symbol
    and every instruction is encoded, [emit_bytecode] returns normally and
    the text is a HALT followed by the words of the instructions of the
    functions, in the order of the functions and of their instructions:
    nothing of what the text held before is left, and no word is set aside
    for a node that is not a function. The symbol table keeps its size. *)
Theorem emit_bytecode_layout {I : Type}
    (emit_instruction : I -> result Stage.Error Arch.instruction_type)
    (enc : I -> Arch.instruction_type) (nodes : list (Emit.Node I))
    (b : Emit.buffers) (symbol_map : gmap string nat) :
  Layout.encoded emit_instruction enc nodes ->
  Layout.named symbol_map (length (Emit.symbol_table b)) nodes ->
  exists table',
    Emit.emit_bytecode emit_instruction nodes b symbol_map
    = (Emit.mkBuffers
         (Arch.ops.N.encode (Arch.ops.N.mk Arch.ops.HALT)
          :: Layout.code enc nodes)
         table',
       Ok empty)
    /\ length table' = length (Emit.symbol_table b).
Proof.
  intros Henc Hsym. eexists. split.
  - apply (emit_bytecode_ok emit_instruction enc); assumption.
  - apply symbols_length.
Qed.

Lemma emit_bytecode_layout_witness :
  exists table',
    Emit.emit_bytecode sample_emit sample_module sample_buffers
      sample_symbol_map
    = (Emit.mkBuffers
         (Arch.ops.N.encode (Arch.ops.N.mk Arch.ops.HALT)
          :: Layout.code Codec.encode sample_module)
         table',
       Ok empty)
    /\ length table' = 4%nat.
Proof.
  apply (emit_bytecode_layout sample_emit Codec.encode sample_module
           sample_buffers sample_symbol_map).
  - repeat constructor.
  - repeat (constructor;
            [eexists; split; [vm_compute; reflexivity|cbn; lia]|]).
    constructor.
Defined.

(** X15. The symbol of a function points at its code. For a function that
    is not extern, once the stage has returned, the symbol that the map
    gives for its name holds in [st_value] the offset in bytes of the first
    word of the function in the text (the HALT and the instructions of the
    functions before it, eight bytes each), a multiple of eight, and in
    [st_size] the size of its instructions in bytes; the words at that
    offset are the encoded instructions of the function; the other fields
    of the symbol are as they were. This is so when no later function that
    is not extern has the same symbol. *)
Theorem emit_bytecode_symbol_of_function {I : Type}
    (emit_instruction : I -> result Stage.Error Arch.instruction_type)
    (enc : I -> Arch.instruction_type)
    (before after : list (Emit.Node I)) (fn : Emit.Fn_def I)
    (b : Emit.buffers) (symbol_map : gmap string nat)
    (index : nat) (sym : Emit.Elf64_Sym) :
  let nodes := before ++ Emit.Fn fn :: after in
  let first := (1 + Layout.size before)%nat in
  let count := length (Emit.instructions fn) in
  Layout.encoded emit_instruction enc nodes ->
  Layout.named symbol_map (length (Emit.symbol_table b)) nodes ->
  Emit.has_attr fn "extern" = false ->
  symbol_map !! Stage.text (Emit.name fn) = Some index ->
  Emit.symbol_table b !! index = Some sym ->
  Layout.unused symbol_map index after ->
  exists b' sym',
    Emit.emit_bytecode emit_instruction nodes b symbol_map = (b', Ok empty)
    /\ Emit.symbol_table b' !! index = Some sym'
    /\ Layout.identity sym' = Layout.identity sym
    /\ Emit.st_value sym' = uint64_t (Z.of_nat first * sizeof_instruction_type)
    /\ Emit.st_value sym' mod sizeof_instruction_type = 0
    /\ Emit.st_size sym' = uint64_t (Z.of_nat count * sizeof_instruction_type)
    /\ take count (drop first (Emit.text b')) = map enc (Emit.instructions fn).
Proof.
  intros nodes first count Henc Hsym Hext Hindex Hsymbol Hun.
  eexists. eexists.
  split; [apply (emit_bytecode_ok emit_instruction enc); assumption|].
  cbn [Emit.symbol_table Emit.text].
  assert (Hbefore : Layout.named symbol_map (length (Emit.symbol_table b)) before).
  { unfold Layout.named in *. subst nodes. rewrite functions_app in Hsym.
    now apply Forall_app in Hsym as [H _]. }
  split;
    [subst nodes;
     apply (symbols_of_function symbol_map before after fn
              (Emit.symbol_table b) index sym); assumption|].
  cbn [Emit.st_value Emit.st_size Layout.identity Emit.st_name Emit.st_info
       Emit.st_other Emit.st_shndx].
  split; [reflexivity|]. split; [reflexivity|]. split.
  { unfold uint64_t, sizeof_instruction_type.
    rewrite Z.mod_mod_divide by (exists (2 ^ 61); reflexivity).
    apply Z.mod_mul. lia. }
  split; [reflexivity|].
  subst nodes first. unfold Layout.code.
  rewrite functions_app, functions_Fn, flat_map_app. cbn [flat_map].
  change (drop (1 + Layout.size before) (?x :: ?l))
    with (drop (Layout.size before) l).
  rewrite <- (code_length enc before). unfold Layout.code.
  rewrite drop_app_length. subst count.
  rewrite <- (length_map enc (Emit.instructions fn)).
  apply take_app_length.
Qed.

Lemma emit_bytecode_symbol_of_function_witness :
  exists b' sym',
    Emit.emit_bytecode sample_emit sample_module sample_buffers
      sample_symbol_map = (b', Ok empty)
    /\ Emit.symbol_table b' !! 2%nat = Some sym'
    /\ Layout.identity sym' = (8, 18, 0, 0)
    /\ Emit.st_value sym' = 16
    /\ Emit.st_value sym' mod sizeof_instruction_type = 0
    /\ Emit.st_size sym' = 16
    /\ take 2 (drop 2 (Emit.text b'))
       = map Codec.encode (Emit.instructions sample_main).
Proof.
  refine (emit_bytecode_symbol_of_function sample_emit Codec.encode
            [Emit.Fn sample_helper; Emit.Label sample_label]
            [Emit.Fn sample_print] sample_main sample_buffers
            sample_symbol_map 2 (Emit.mkSym 8 18 0 0 0 0) _ _ _ _ _ _).
  - repeat constructor.
  - repeat (constructor;
            [eexists; split; [vm_compute; reflexivity|cbn; lia]|]).
    constructor.
  - reflexivity.
  - vm_compute. reflexivity.
  - reflexivity.
  - repeat constructor. intros H. discriminate H.
Defined.

(** X16. The stage stays inside its buffers, however it ends. With an
    encoder that is defined on every instruction, [emit_bytecode] returns
    or throws and never stores a word outside the text; then the text has
    one word for the HALT and one for each instruction of the functions,
    its first word is the HALT, the symbol table has the entries it had,
    changed in [st_value] and [st_size] at most, and a symbol that no
    function other than extern ones is mapped to is as it was. *)
Theorem emit_bytecode_stays_in_bounds {I : Type}
    (emit_instruction : I -> result Stage.Error Arch.instruction_type)
    (nodes : list (Emit.Node I)) (b : Emit.buffers)
    (symbol_map : gmap string nat) :
  (forall insn, emit_instruction insn <> Undefined) ->
  exists text' table' r,
    Emit.emit_bytecode emit_instruction nodes b symbol_map
    = (Emit.mkBuffers text' table', r)
    /\ r <> Undefined
    /\ length text' = Emit.ops_count nodes
    /\ text' !! 0%nat = Some (Arch.ops.N.encode (Arch.ops.N.mk Arch.ops.HALT))
    /\ Layout.identity <$> table' = Layout.identity <$> Emit.symbol_table b
    /\ forall index,
         Layout.unused symbol_map index nodes ->
         table' !! index = Emit.symbol_table b !! index.
Proof.
  intros Hdef. now apply emit_bytecode_bounded.
Qed.

Lemma emit_bytecode_stays_in_bounds_witness :
  exists text' table' r,
    Emit.emit_bytecode sample_emit sample_module
      (Emit.mkBuffers [] (take 2 (Emit.symbol_table sample_buffers)))
      sample_symbol_map
    = (Emit.mkBuffers text' table', r)
    /\ r <> Undefined
    /\ length text' = 4%nat
    /\ text' !! 0%nat = Some (Arch.ops.N.encode (Arch.ops.N.mk Arch.ops.HALT))
    /\ Layout.identity <$> table' = [(0, 0, 0, 0); (1, 18, 0, 0)]
    /\ forall index,
         Layout.unused sample_symbol_map index sample_module ->
         table' !! index
         = take 2 (Emit.symbol_table sample_buffers) !! index.
Proof.
  apply (emit_bytecode_stays_in_bounds sample_emit sample_module
           (Emit.mkBuffers [] (take 2 (Emit.symbol_table sample_buffers)))
           sample_symbol_map).
  intros insn. discriminate.
Defined.

(** ** Entry-point detection on a label *)

Lemma find_entry_point_from_app (l k : list Stage.Node) :
  forall acc,
  Stage.find_entry_point_from (l ++ k) acc
  = match Stage.find_entry_point_from l acc with
    | Ok acc' => Stage.find_entry_point_from k acc'
    | Throw e => Throw e
    | Undefined => Undefined
    end.
Proof.
  induction l as [|each l IH]; intros acc; [reflexivity|].
  cbn [app Stage.find_entry_point_from].
  destruct (Stage.has_attr each "entry_point"); [|apply IH].
  destruct acc as [first|].
  - destruct (Stage.static_cast_Fn_def each) as [dup| |]; [|reflexivity..].
    now destruct (Stage.attr (Stage.Fn dup) "entry_point").
  - destruct (Stage.static_cast_Fn_def each); [apply IH|reflexivity..].
Qed.

(** X17. The attribute [entry_point] on a label definition. When a label
    definition carries the attribute, and before it no label does and at
    most one function does, detection reaches the label and casts it to a
    function definition: the behaviour of the assembler is undefined, and no
    error is reported. *)
Theorem find_entry_point_casts_labels (before after : list Stage.Node)
    (ct : Stage.Label_def) :
  (forall c, Stage.Label c ∈ before ->
     Stage.has_attr (Stage.Label c) "entry_point" = false) ->
  (length (Expected.entry_point_functions before) <= 1)%nat ->
  Stage.has_attr (Stage.Label ct) "entry_point" = true ->
  Stage.find_entry_point (before ++ Stage.Label ct :: after) = Undefined.
Proof.
  intros Hlabels Hlen Hct. unfold Stage.find_entry_point.
  rewrite find_entry_point_from_app, (find_entry_point_from_spec _ _ Hlabels).
  destruct (Expected.entry_point_functions before) as [|first [|dup fns]];
    [| |cbn in Hlen; lia];
    cbn [Stage.find_entry_point_from]; now rewrite Hct.
Qed.

Lemma find_entry_point_casts_labels_witness :
  Stage.find_entry_point
    (take 1 sample_nodes
     ++ Stage.Label
          (Stage.mkLabel_def [(Stage.mkLexeme "entry_point" 40, None)]
             (Stage.mkLexeme "msg" 60) (Stage.mkLexeme "string" 50) [])
     :: drop 2 sample_nodes)
  = Undefined.
Proof.
  apply (find_entry_point_casts_labels (take 1 sample_nodes)
           (drop 2 sample_nodes)).
  - intros c Hc. apply list_elem_of_In in Hc. cbn in Hc.
    destruct Hc as [Hc|[]]. discriminate Hc.
  - cbn. lia.
  - reflexivity.
Defined.
